(** * Swiss tournament manager: pairing core, bracket seeder, stat recomputer

    A shallow embedding of the JavaScript tournament engine
    ([TournamentManager], its older sibling under [docs/manager] and the
    head-to-head loop of the simulator), followed by the properties the
    specification states about them.

    Modelling conventions.
    - JS numbers that hold ids, scores, counters and round indices are [Z];
      array positions are [nat].
    - A team object is a record; the array [this.teams] is the store, and a
      reference to a team object is its position in that store, so that two
      arrays holding the same team object hold the same reference.
    - [Math.random()] is an oracle: a list of exact fractions in [0,1),
      consumed from the head.
    - A thrown [Error] is a [Throw] result that carries the state as the
      store stood when the exception left the method.
    - The two log texts are kept as lists of lines, every line with its
      whitespace-separated fields already split. *)

From stdpp Require Import gmap list strings pretty sorting.
From Equations Require Import Equations.
From Stdlib Require Import ZArith Lia.

Local Open Scope Z_scope.

(** ** JavaScript helpers *)

Section js_sort.
Context {A : Type} (cmp : A → A → Z).

(** [Array.prototype.sort(cmp)] is stable and puts [a] before [b] when
    [cmp a b < 0]; equal elements keep their order. *)
Fixpoint sort_insert (x : A) (l : list A) : list A :=
  match l with
  | [] => [x]
  | y :: l' => if decide (cmp x y ≤ 0) then x :: y :: l' else y :: sort_insert x l'
  end.

Definition js_sort (l : list A) : list A := foldr sort_insert [] l.
End js_sort.

(** One value of [Math.random()]: the fraction [(num mod (den+1)) / (den+1)]. *)
Record draw := mkDraw { num : nat; den : nat }.

Definition Rng := list draw.

Definition next_draw (g : Rng) : draw * Rng :=
  match g with
  | [] => (mkDraw 0 0, [])
  | d :: g' => (d, g')
  end.

(** [Math.floor(d * n)] *)
Definition floor_mul (d : draw) (n : nat) : nat :=
  (((num d `mod` S (den d)) * n) `div` S (den d))%nat.

(** [d < 0.5] *)
Definition lt_half (d : draw) : bool :=
  bool_decide (2 * (num d `mod` S (den d)) < S (den d))%nat.

(** ** Data model *)

Inductive Side := Aff | Neg.

Global Instance Side_eq_dec : EqDecision Side.
Proof. solve_decision. Defined.

Record Member := mkMember { member_name : string; member_id : Z }.

(** [{round, points}] of [speaker_points_history]; [null] is [None]. *)
Record SpEntry := mkSpEntry { sp_round : Z; sp_points : list (option Z) }.

(** Speaker points are modelled as exact integers, on which the arithmetic
    of JS numbers is exact. *)
Record SpeakerPoints := mkSpeakerPoints {
  affPoints : list (option Z);
  negPoints : list (option Z)
}.

Record Team := mkTeam {
  id : Z;
  name : string;
  institution : string;
  members : list Member;
  wins : Z;
  score : Z;
  buchholz : Z;
  opponents : list Z;
  aff_count : Z;
  neg_count : Z;
  last_side : option Side;
  side_history : gmap Z (list Side);
  break_seed : option Z;
  speaker_points_history : list SpEntry
}.

Definition default_members : list Member :=
  [mkMember "Member 1" 1; mkMember "Member 2" 2].

(** [new Team(id, name, institution, members)] *)
Definition new_Team (i : Z) (nm inst : string) (ms : list Member) : Team :=
  mkTeam i nm (if decide (inst = "") then "Unknown" else inst)
    (if decide (length ms = 2%nat) then ms else default_members)
    0 0 0 [] 0 0 None ∅ None [].

Global Instance Team_inhabited : Inhabited Team :=
  populate (new_Team 0 "" "" []).

(** A reference to a team object: its position in [this.teams]. *)
Abbreviation ref := nat (only parsing).

(** ** Field updates of a team object *)

Definition set_buchholz (b : Z) (t : Team) : Team :=
  mkTeam (id t) (name t) (institution t) (members t) (wins t) (score t) b
    (opponents t) (aff_count t) (neg_count t) (last_side t) (side_history t)
    (break_seed t) (speaker_points_history t).

Definition set_break_seed (s : option Z) (t : Team) : Team :=
  mkTeam (id t) (name t) (institution t) (members t) (wins t) (score t)
    (buchholz t) (opponents t) (aff_count t) (neg_count t) (last_side t)
    (side_history t) s (speaker_points_history t).

Definition set_speaker_points_history (h : list SpEntry) (t : Team) : Team :=
  mkTeam (id t) (name t) (institution t) (members t) (wins t) (score t)
    (buchholz t) (opponents t) (aff_count t) (neg_count t) (last_side t)
    (side_history t) (break_seed t) h.

(** [byeTeam.score += 1; byeTeam.opponents.push(-1)] *)
Definition award_bye (t : Team) : Team :=
  mkTeam (id t) (name t) (institution t) (members t) (wins t) (score t + 1)
    (buchholz t) (opponents t ++ [-1]) (aff_count t) (neg_count t)
    (last_side t) (side_history t) (break_seed t) (speaker_points_history t).

(** The reset at the head of [recalculateStats]. *)
Definition reset_stats (t : Team) : Team :=
  mkTeam (id t) (name t) (institution t) (members t) 0 0 0 [] 0 0 None ∅
    (break_seed t) (speaker_points_history t).

Definition push_side (o : Z) (s : Side) (h : gmap Z (list Side)) : gmap Z (list Side) :=
  <[o := default [] (h !! o) ++ [s]]> h.

(** What [recalculateStats] does to the Aff team of a match against [o]. *)
Definition play_aff (o : Z) (won : bool) (t : Team) : Team :=
  mkTeam (id t) (name t) (institution t) (members t)
    (if won then wins t + 1 else wins t) (if won then score t + 1 else score t)
    (buchholz t) (opponents t ++ [o]) (aff_count t + 1) (neg_count t)
    (Some Aff) (push_side o Aff (side_history t)) (break_seed t)
    (speaker_points_history t).

Definition play_neg (o : Z) (won : bool) (t : Team) : Team :=
  mkTeam (id t) (name t) (institution t) (members t)
    (if won then wins t + 1 else wins t) (if won then score t + 1 else score t)
    (buchholz t) (opponents t ++ [o]) (aff_count t) (neg_count t + 1)
    (Some Neg) (push_side o Neg (side_history t)) (break_seed t)
    (speaker_points_history t).

(** [this.teams.find(t => t.id === i)], as a reference. *)
Definition find_team (ts : list Team) (i : Z) : option ref :=
  fst <$> list_find (λ t, id t = i) ts.

(** ** Pairing helpers *)

Definition calculateSidePreference (team : Team) : Z :=
  let pref := neg_count team - aff_count team in
  match last_side team with
  | Some Neg => pref + 2
  | Some Aff => pref - 2
  | None => pref
  end.

Record BestOpponent := mkBest {
  opponent : option ref;
  index : Z;
  isSwappable : bool
}.

Definition t1History (t1 : Team) (other : Z) : list Side :=
  default [] (side_history t1 !! other).

Fixpoint findBestOpponent_loop (ts : list Team) (t1 : Team) (group : list ref)
    (i : nat) (bestSwappable : option (ref * nat)) : BestOpponent :=
  match group with
  | [] =>
      match bestSwappable with
      | Some (c, j) => mkBest (Some c) (Z.of_nat j) true
      | None => mkBest None (-1) false
      end
  | c :: rest =>
      let candidate := ts !!! c in
      if bool_decide (id candidate ∉ opponents t1)
      then mkBest (Some c) (Z.of_nat i) false
      else
        let bs :=
          match bestSwappable with
          | Some _ => bestSwappable
          | None =>
              let h := t1History t1 (id candidate) in
              let canPlayAff := bool_decide (Aff ∉ h) in
              let canPlayNeg := bool_decide (Neg ∉ h) in
              if canPlayAff || canPlayNeg then Some (c, i) else None
          end in
        findBestOpponent_loop ts t1 rest (S i) bs
  end.

Definition findBestOpponent (ts : list Team) (t1 : ref) (group : list ref) : BestOpponent :=
  findBestOpponent_loop ts (ts !!! t1) group 0%nat None.

(** Returns [[aff, neg]] and the oracle that is left. *)
Definition determineSides (ts : list Team) (t1 t2 : ref) (swappable : bool)
    (g : Rng) : (ref * ref) * Rng :=
  let h := t1History (ts !!! t1) (id (ts !!! t2)) in
  let canPlayAff := bool_decide (Aff ∉ h) in
  let canPlayNeg := bool_decide (Neg ∉ h) in
  if swappable && canPlayAff && negb canPlayNeg then ((t1, t2), g)
  else if swappable && canPlayNeg && negb canPlayAff then ((t2, t1), g)
  else
    let t1Pref := calculateSidePreference (ts !!! t1) in
    let t2Pref := calculateSidePreference (ts !!! t2) in
    if decide (t1Pref > t2Pref) then ((t1, t2), g)
    else if decide (t2Pref > t1Pref) then ((t2, t1), g)
    else
      let '(d, g') := next_draw g in
      if lt_half d then ((t1, t2), g') else ((t2, t1), g').

Definition buchholz_of (ts : list Team) (team : Team) : Z :=
  foldl (λ sum oppId,
           if decide (oppId = -1) then sum
           else sum + match find_team ts oppId with
                      | Some r => score (ts !!! r)
                      | None => 0
                      end)
        0 (opponents team).

Definition updateBuchholz (ts : list Team) : list Team :=
  fmap (λ team, set_buchholz (buchholz_of ts team) team) ts.

(** [[array[i], array[j]] = [array[j], array[i]]] *)
Definition swap (a : list ref) (i j : nat) : list ref :=
  <[j := a !!! i]> (<[i := a !!! j]> a).

Fixpoint shuffle_loop (i : nat) (a : list ref) (g : Rng) : list ref * Rng :=
  match i with
  | O => (a, g)
  | S i' =>
      let '(d, g') := next_draw g in
      let j := floor_mul d (S i') in
      shuffle_loop i' (swap a (S i') j) g'
  end.

Definition shuffleArray (a : list ref) (g : Rng) : list ref * Rng :=
  shuffle_loop (length a - 1)%nat a g.

(** ** Swiss pairing *)

(** The [while (group.length > 0)] loop of one score bracket. *)
Equations? pairGroup (ts : list Team) (group : list ref) (pairs : list (ref * ref))
    (floaters : list ref) (g : Rng) : list (ref * ref) * list ref * Rng
    by wf (length group) lt :=
  pairGroup ts [] pairs floaters g := (pairs, floaters, g);
  pairGroup ts (t1 :: rest) pairs floaters g with findBestOpponent ts t1 rest := {
    | mkBest (Some opp) idx sw =>
        pairGroup ts (delete (Z.to_nat idx) rest)
          (pairs ++ [(determineSides ts t1 opp sw g).1]) floaters
          (determineSides ts t1 opp sw g).2;
    | mkBest None _ _ => pairGroup ts rest pairs (floaters ++ [t1]) g }.
Proof.
  rewrite delete_take_drop, length_app, length_take, length_drop. simpl. lia.
Qed.

(** [scoreGroups[key].push(team)] for every team of the shuffled copy. *)
Definition group_by_score (ts : list Team) (teams : list ref) : gmap Z (list ref) :=
  foldl (λ scoreGroups team,
           let key := score (ts !!! team) in
           <[key := default [] (scoreGroups !! key) ++ [team]]> scoreGroups)
        ∅ teams.

(** [Object.keys(scoreGroups).map(Number).sort((a, b) => b - a)] *)
Definition sortedScores (scoreGroups : gmap Z (list ref)) : list Z :=
  js_sort (λ a b, b - a) (fst <$> map_to_list scoreGroups).

(** The comparator of the sort within a bracket (rounds 3+). *)
Definition bracket_cmp (ts : list Team) (a b : ref) : Z :=
  if decide (buchholz (ts !!! b) ≠ buchholz (ts !!! a))
  then buchholz (ts !!! b) - buchholz (ts !!! a)
  else id (ts !!! a) - id (ts !!! b).

(** One iteration of [for (const score of sortedScores)]. *)
Definition pairBracket (ts : list Team) (roundNum : Z)
    (scoreGroups : gmap Z (list ref))
    (acc : list (ref * ref) * list ref * Rng) (sc : Z)
    : list (ref * ref) * list ref * Rng :=
  let '(pairs, floaters, g) := acc in
  let group := default [] (scoreGroups !! sc) ++ floaters in
  let group := if decide (roundNum > 2) then js_sort (bracket_cmp ts) group else group in
  pairGroup ts group pairs [] g.

(** [while (floaters.length >= 2)]: the floaters that remain are returned. *)
Fixpoint drainFloaters (ts : list Team) (floaters : list ref)
    (pairs : list (ref * ref)) (g : Rng) : list (ref * ref) * list ref * Rng :=
  match floaters with
  | t1 :: t2 :: rest =>
      drainFloaters ts rest (pairs ++ [(determineSides ts t1 t2 false g).1])
        (determineSides ts t1 t2 false g).2
  | _ => (pairs, floaters, g)
  end.

(** [if (floaters.length === 1)]: the bye mutates the team object. *)
Definition giveBye (ts : list Team) (floaters : list ref) : list Team :=
  match floaters with
  | [byeTeam] => alter award_bye byeTeam ts
  | _ => ts
  end.

(** Everything of [generateSwissPairings] up to the bye: the pairs, the
    floaters left after the drain, the store after [updateBuchholz]. *)
Definition swissAssignment (ts : list Team) (roundNum : Z) (g : Rng)
    : list (ref * ref) * list ref * list Team * Rng :=
  let ts1 := updateBuchholz ts in
  let '(teams, g1) := shuffleArray (seq 0 (length ts)) g in
  let scoreGroups :=
    if decide (roundNum > 2) then group_by_score ts1 teams else {[ 0 := teams ]} in
  let '(pairs, floaters, g2) :=
    foldl (pairBracket ts1 roundNum scoreGroups) ([], [], g1) (sortedScores scoreGroups) in
  let '(pairs, floaters, g3) := drainFloaters ts1 floaters pairs g2 in
  (pairs, floaters, ts1, g3).

Definition generateSwissPairings (ts : list Team) (roundNum : Z) (g : Rng)
    : list (ref * ref) * list Team * Rng :=
  let '(pairs, floaters, ts1, g') := swissAssignment ts roundNum g in
  (pairs, giveBye ts1 floaters, g').

(** ** Matches, logs and the manager state *)

Record Match := mkMatch {
  match_id : Z;
  round_num : Z;
  aff_id : Z;
  neg_id : Z;
  aff_name : string;
  neg_name : string;
  result : option string;
  judge_id : option Z;
  speaker_points : option SpeakerPoints
}.

Global Instance Match_inhabited : Inhabited Match :=
  populate (mkMatch 0 0 0 0 "" "" None None None).

Definition set_result (r : option string) (m : Match) : Match :=
  mkMatch (match_id m) (round_num m) (aff_id m) (neg_id m) (aff_name m)
    (neg_name m) r (judge_id m) (speaker_points m).

Definition set_speaker_points (sp : option SpeakerPoints) (m : Match) : Match :=
  mkMatch (match_id m) (round_num m) (aff_id m) (neg_id m) (aff_name m)
    (neg_name m) (result m) (judge_id m) sp.

(** A line of the pairing log: a [#] comment, or [Round MatchID AffID NegID]. *)
Inductive PairingLine :=
  | PComment (text : string)
  | PEntry (r mid aff neg : Z).

(** One speaker-point token of a result line. *)
Inductive SpToken := TNum (p : Z) | TNull | TUndefined.

Record ResultEntry := mkResultEntry {
  re_round : Z;
  re_match : Z;
  re_aff : Z;
  re_neg : Z;
  re_outcome : string;
  re_judge : Z;
  re_points : option (list SpToken)
}.

(** A line of the result log: a [#] comment, an entry, or an entry that
    [updateResult] has commented out as [# ... # Updated/Corrected]. *)
Inductive ResultLine :=
  | RComment (text : string)
  | REntry (e : ResultEntry)
  | RRetired (e : ResultEntry).

Record Config := mkConfig {
  num_teams : Z;
  num_prelim_rounds : Z;
  num_elim_rounds : Z;
  num_rounds : Z
}.

(** [this.data] and [this.teams] of a [TournamentManager] in local mode. *)
Record TournamentManager := mkTM {
  config : Config;
  current_round : Z;
  matches : list Match;
  next_match_id : Z;
  next_judge_id : Z;
  pairing_file_content : list PairingLine;
  result_file_content : list ResultLine;
  teams : list Team
}.

Definition set_teams (ts : list Team) (s : TournamentManager) : TournamentManager :=
  mkTM (config s) (current_round s) (matches s) (next_match_id s)
    (next_judge_id s) (pairing_file_content s) (result_file_content s) ts.

Definition set_matches (ms : list Match) (s : TournamentManager) : TournamentManager :=
  mkTM (config s) (current_round s) ms (next_match_id s)
    (next_judge_id s) (pairing_file_content s) (result_file_content s) (teams s).

Definition set_current_round (r : Z) (s : TournamentManager) : TournamentManager :=
  mkTM (config s) r (matches s) (next_match_id s)
    (next_judge_id s) (pairing_file_content s) (result_file_content s) (teams s).

Definition set_result_file_content (c : list ResultLine) (s : TournamentManager)
    : TournamentManager :=
  mkTM (config s) (current_round s) (matches s) (next_match_id s)
    (next_judge_id s) (pairing_file_content s) c (teams s).

Definition set_pairing_file_content (c : list PairingLine) (s : TournamentManager)
    : TournamentManager :=
  mkTM (config s) (current_round s) (matches s) (next_match_id s)
    (next_judge_id s) c (result_file_content s) (teams s).

Inductive Error :=
  | MatchNotFound (mid : Z)
  | AlreadyHasResult (mid : Z)
  | InvalidOutcome (o : string)
  | RoundNotComplete (r : Z)
  | RoundAlreadyPaired (r : Z)
  | NotEnoughTeams
  | SpeakerPointsOutOfRange (p : Z)
  | RedundancyCheckFailed
  | TypeError
  | StackOverflow.

(** The outcome of a method call: it returns, or it throws; either way the
    manager is left in some state. *)
Inductive Result (A : Type) :=
  | Ok (a : A) (s : TournamentManager)
  | Throw (e : Error) (s : TournamentManager).

Arguments Ok {A} a s.
Arguments Throw {A} e s.

Definition state_of {A} (r : Result A) : TournamentManager :=
  match r with Ok _ s => s | Throw _ s => s end.

(** [this.data.matches.find(m => m.match_id === matchId)], with its position. *)
Definition find_match (ms : list Match) (matchId : Z) : option (nat * Match) :=
  list_find (λ m, match_id m = matchId) ms.

Definition round_matches (ms : list Match) (r : Z) : list Match :=
  filter (λ m, round_num m = r) ms.

Definition unreported (m : Match) : bool := bool_decide (result m = None).

(** ** Consistency layer *)

Definition pairing_entries (c : list PairingLine) : list (Z * Z * Z * Z) :=
  omap (λ l, match l with PEntry r mid a n => Some (r, mid, a, n) | PComment _ => None end) c.

Definition result_entries (c : list ResultLine) : list ResultEntry :=
  omap (λ l, match l with REntry e => Some e | _ => None end) c.

Definition generatePairingFileContent (ms : list Match) : list PairingLine :=
  PComment "Format: Round MatchID AffID NegID"
  :: fmap (λ m, PEntry (round_num m) (match_id m) (aff_id m) (neg_id m))
       (js_sort (λ a b, match_id a - match_id b) ms).

Definition generateResultFileContent (ms : list Match) : list ResultLine :=
  RComment "Format: Round MatchID AffID NegID Outcome"
  :: omap (λ m, match result m with
                | Some o => Some (REntry (mkResultEntry (round_num m) (match_id m)
                                            (aff_id m) (neg_id m) o (-1) None))
                | None => None
                end)
       (js_sort (λ a b, match_id a - match_id b) ms).

Definition validatePairingRedundancy (ms : list Match) (c : list PairingLine) : bool :=
  let lines := pairing_entries c in
  bool_decide (length lines = length ms)
  && forallb (λ '(r, mid, a, n),
                match find_match ms mid with
                | None => false
                | Some (_, m) =>
                    bool_decide (round_num m = r) && bool_decide (aff_id m = a)
                    && bool_decide (neg_id m = n)
                end) lines.

Definition validateResultRedundancy (ms : list Match) (c : list ResultLine) : bool :=
  let lines := result_entries c in
  let matchesWithResults := filter (λ m, result m ≠ None) ms in
  bool_decide (length lines = length matchesWithResults)
  && forallb (λ e,
                match find_match ms (re_match e) with
                | None => false
                | Some (_, m) =>
                    bool_decide (round_num m = re_round e)
                    && bool_decide (aff_id m = re_aff e)
                    && bool_decide (neg_id m = re_neg e)
                    && bool_decide (result m = Some (re_outcome e))
                end) lines.

(** [checkConsistency]: an empty text is regenerated, then both validators
    run; a validator that throws leaves the regenerated texts in place. *)
Definition checkConsistency (s : TournamentManager) : Result unit :=
  let s1 := match pairing_file_content s with
            | [] => set_pairing_file_content (generatePairingFileContent (matches s)) s
            | _ => s
            end in
  let s2 := match result_file_content s1 with
            | [] => set_result_file_content (generateResultFileContent (matches s1)) s1
            | _ => s1
            end in
  if validatePairingRedundancy (matches s2) (pairing_file_content s2)
     && validateResultRedundancy (matches s2) (result_file_content s2)
  then Ok tt s2
  else Throw RedundancyCheckFailed s2.

(** The second [saveToStorage] of the class body is the one in force:
    [checkConsistency], then the write to [localStorage]. *)
Definition saveToStorage (s : TournamentManager) : Result unit := checkConsistency s.

(** ** Stat recomputer *)

(** The body of [for (const match of sortedMatches)]. A team that [find]
    does not return makes the first use of it a [TypeError]. *)
Definition replay_match (ts : list Team) (m : Match) : list Team + list Team :=
  match find_team ts (aff_id m), find_team ts (neg_id m) with
  | None, _ => inl ts
  | Some a, None =>
      inl (alter (λ t, mkTeam (id t) (name t) (institution t) (members t)
                          (wins t) (score t) (buchholz t) (opponents t)
                          (aff_count t + 1) (neg_count t) (last_side t)
                          (side_history t) (break_seed t)
                          (speaker_points_history t)) a ts)
  | Some a, Some n =>
      inr (alter (play_neg (aff_id m) (bool_decide (result m = Some "N"))) n
             (alter (play_aff (neg_id m) (bool_decide (result m = Some "A"))) a ts))
  end.

Fixpoint replay_matches (ts : list Team) (ms : list Match) : list Team + list Team :=
  match ms with
  | [] => inr ts
  | m :: ms' =>
      match replay_match ts m with
      | inl ts' => inl ts'
      | inr ts' => replay_matches ts' ms'
      end
  end.

Definition round_complete (ms : list Match) (r : Z) : bool :=
  let roundMatches := round_matches ms r in
  bool_decide (0 < length roundMatches)%nat
  && forallb (λ m, negb (unreported m)) roundMatches.

(** [for (let r = 1; r <= num_rounds; r++)] with its [break]; [n] rounds
    remain to be looked at, [cur] is [this.data.current_round]. *)
Fixpoint current_round_loop (ms : list Match) (n : nat) (r : Z) (cur : Z) : Z :=
  match n with
  | O => cur
  | S n' => if round_complete ms r then current_round_loop ms n' (r + 1) r else cur
  end.

Definition recalculateStats (s : TournamentManager) : Result unit :=
  let ts0 := fmap reset_stats (teams s) in
  let sortedMatches := js_sort (λ a b, round_num a - round_num b) (matches s) in
  match replay_matches ts0 sortedMatches with
  | inl ts' => Throw TypeError (set_teams ts' s)
  | inr ts1 =>
      let s1 := set_teams (updateBuchholz ts1) s in
      Ok tt (set_current_round
               (current_round_loop (matches s) (Z.to_nat (num_rounds (config s))) 1
                  (current_round s)) s1)
  end.

(** ** Reporting and correcting results *)

Definition valid_outcome (o : string) : bool :=
  bool_decide (o = "A") || bool_decide (o = "N").

(** [pts[i] !== null ? pts[i] : "null"] as it is printed. *)
Definition sp_token (pts : list (option Z)) (i : nat) : SpToken :=
  match pts !! i with
  | Some (Some p) => TNum p
  | Some None => TNull
  | None => TUndefined
  end.

Definition spString (pointsToLog : option SpeakerPoints) : option (list SpToken) :=
  match pointsToLog with
  | Some sp =>
      Some [sp_token (affPoints sp) 0; sp_token (affPoints sp) 1;
            sp_token (negPoints sp) 0; sp_token (negPoints sp) 1]
  | None => None
  end.

Definition result_line (m : Match) (outcome : string) (pointsToLog : option SpeakerPoints)
    : ResultLine :=
  REntry (mkResultEntry (round_num m) (match_id m) (aff_id m) (neg_id m) outcome
            (default (-1) (judge_id m)) (spString pointsToLog)).

(** The [lines.map] of [updateResult]: active lines of the match are
    commented out. *)
Definition retire_lines (matchId : Z) (c : list ResultLine) : list ResultLine :=
  fmap (λ line, match line with
               | REntry e => if decide (re_match e = matchId) then RRetired e else line
               | _ => line
               end) c.

(** The first speaker point outside [0, 30], if any. *)
Definition bad_points (sp : SpeakerPoints) : option Z :=
  snd <$> list_find (λ p, p < 0 ∨ p > 30)
            (omap (λ x, x) (affPoints sp ++ negPoints sp)).

Definition store_history (r : Z) (pts : list (option Z)) (t : Team) : Team :=
  set_speaker_points_history
    (filter (λ entry, sp_round entry ≠ r) (speaker_points_history t)
     ++ [mkSpEntry r pts]) t.

Section update.
(** [updateResult] and [storeSpeakerPoints] call each other; the call of
    [storeSpeakerPoints] inside [updateResult] is the parameter here. *)
Variable storeSpeakerPoints : Z → SpeakerPoints → TournamentManager → Result unit.

Definition updateResult_body (matchId : Z) (newOutcome : option string)
    (speakerPoints : option SpeakerPoints) (s : TournamentManager) : Result bool :=
  match find_match (matches s) matchId with
  | None => Throw (MatchNotFound matchId) s
  | Some (i, _) =>
      match newOutcome with
      | Some o =>
          if valid_outcome o then
            let s1 := set_matches (alter (set_result newOutcome) i (matches s)) s in
            let s2 := set_result_file_content
                        (retire_lines matchId (result_file_content s1)) s1 in
            let pointsToLog :=
              match speakerPoints with
              | Some sp => Some sp
              | None => speaker_points (matches s2 !!! i)
              end in
            let stored :=
              match speakerPoints with
              | Some sp => storeSpeakerPoints matchId sp s2
              | None => Ok tt s2
              end in
            match stored with
            | Throw e s3 => Throw e s3
            | Ok _ s3 =>
                let s4 := set_result_file_content
                            (result_file_content s3
                             ++ [result_line (matches s3 !!! i) o pointsToLog]) s3 in
                match recalculateStats s4 with
                | Throw e s5 => Throw e s5
                | Ok _ s5 =>
                    match saveToStorage s5 with
                    | Throw e s6 => Throw e s6
                    | Ok _ s6 => Ok true s6
                    end
                end
            end
          else Throw (InvalidOutcome o) s
      | None =>
          let s1 := set_matches (alter (set_result None) i (matches s)) s in
          let s2 := set_result_file_content
                      (retire_lines matchId (result_file_content s1)) s1 in
          match recalculateStats s2 with
          | Throw e s3 => Throw e s3
          | Ok _ s3 =>
              match saveToStorage s3 with
              | Throw e s4 => Throw e s4
              | Ok _ s4 => Ok true s4
              end
          end
      end
  end.
End update.

(** [storeSpeakerPoints]. Its call of [updateResult] is not awaited: what
    that call throws is lost, what it has written stays. *)
Definition storeSpeakerPoints (matchId : Z) (speakerPoints : SpeakerPoints)
    (s : TournamentManager) : Result unit :=
  match find_match (matches s) matchId with
  | None => Throw (MatchNotFound matchId) s
  | Some (i, m) =>
      match bad_points speakerPoints with
      | Some p => Throw (SpeakerPointsOutOfRange p) s
      | None =>
          let s1 := set_matches (alter (set_speaker_points (Some speakerPoints)) i
                                   (matches s)) s in
          match find_team (teams s1) (aff_id m), find_team (teams s1) (neg_id m) with
          | Some a, Some n =>
              let ts1 := alter (store_history (round_num m) (affPoints speakerPoints)) a
                           (teams s1) in
              let ts2 := alter (store_history (round_num m) (negPoints speakerPoints)) n
                           ts1 in
              let s2 := set_teams ts2 s1 in
              match result m with
              | Some o =>
                  Ok tt (state_of (updateResult_body (λ _ _ s', Ok tt s')
                                     matchId (Some o) None s2))
              | None => saveToStorage s2
              end
          | _, _ => Throw TypeError s1
          end
      end
  end.

Definition updateResult : Z → option string → option SpeakerPoints →
    TournamentManager → Result bool :=
  updateResult_body storeSpeakerPoints.

Definition reportResult (matchId : Z) (outcome : string)
    (speakerPoints : option SpeakerPoints) (s : TournamentManager) : Result bool :=
  match find_match (matches s) matchId with
  | None => Throw (MatchNotFound matchId) s
  | Some (i, m) =>
      if bool_decide (result m ≠ None) then Throw (AlreadyHasResult matchId) s
      else if negb (valid_outcome outcome) then Throw (InvalidOutcome outcome) s
      else
        let s1 := set_matches (alter (set_result (Some outcome)) i (matches s)) s in
        let pointsToLog :=
          match speakerPoints with
          | Some sp => Some sp
          | None => speaker_points (matches s1 !!! i)
          end in
        let stored :=
          match speakerPoints with
          | Some sp => storeSpeakerPoints matchId sp s1
          | None => Ok tt s1
          end in
        match stored with
        | Throw e s2 => Throw e s2
        | Ok _ s2 =>
            let s3 := set_result_file_content
                        (result_file_content s2
                         ++ [result_line (matches s2 !!! i) outcome pointsToLog]) s2 in
            match recalculateStats s3 with
            | Throw e s4 => Throw e s4
            | Ok _ s4 =>
                match saveToStorage s4 with
                | Throw e s5 => Throw e s5
                | Ok _ s5 => Ok true s5
                end
            end
        end
  end.

(** ** Preliminary standings and the bracket seeder *)

Record PrelimStat := mkPrelimStat {
  ps_team : Team;
  prelim_wins : Z;
  prelim_score : Z;
  prelim_buchholz : Z
}.

Definition won_by (teamId : Z) (m : Match) : bool :=
  let isAff := bool_decide (aff_id m = teamId) in
  (isAff && bool_decide (result m = Some "A"))
  || (negb isAff && bool_decide (result m = Some "N")).

Definition plays (teamId : Z) (m : Match) : bool :=
  bool_decide (aff_id m = teamId) || bool_decide (neg_id m = teamId).

Definition oppPrelimWins (s : TournamentManager) (oppId : Z) : Z :=
  let oppPrelimMatches :=
    filter (λ m, round_num m ≤ num_prelim_rounds (config s)
                 ∧ plays oppId m ∧ result m ≠ None) (matches s) in
  Z.of_nat (length (filter (λ m, (aff_id m = oppId ∧ result m = Some "A")
                                 ∨ (neg_id m = oppId ∧ result m = Some "N"))
                      oppPrelimMatches)).

Definition prelim_stat (s : TournamentManager) (team : Team) : PrelimStat :=
  let prelimMatches :=
    filter (λ m, round_num m ≤ num_prelim_rounds (config s) ∧ plays (id team) m)
      (matches s) in
  let reported := filter (λ m, result m ≠ None) prelimMatches in
  let wins := Z.of_nat (length (filter (λ m, won_by (id team) m) reported)) in
  let opponentIds :=
    fmap (λ m, if bool_decide (aff_id m = id team) then neg_id m else aff_id m) reported in
  let buchholz :=
    foldl (λ b oppId, match find_team (teams s) oppId with
                      | Some _ => b + oppPrelimWins s oppId
                      | None => b
                      end) 0 opponentIds in
  mkPrelimStat team wins wins buchholz.

Definition prelim_cmp (a b : PrelimStat) : Z :=
  if decide (prelim_score b ≠ prelim_score a) then prelim_score b - prelim_score a
  else if decide (prelim_buchholz b ≠ prelim_buchholz a)
       then prelim_buchholz b - prelim_buchholz a
       else prelim_wins b - prelim_wins a.

Definition getPreliminaryStandings (s : TournamentManager) : list PrelimStat :=
  js_sort prelim_cmp (fmap (prelim_stat s) (teams s)).

Definition num_cmp (a b : nat) : Z := Z.of_nat a - Z.of_nat b.

(** The [for (let i = 0; i < half; i++)] loop that deals the seeds into
    the two halves. *)
Definition split_halves (seeds : list nat) : list nat * list nat :=
  foldl (λ '(topHalf, bottomHalf) i,
           let highSeed := seeds !!! i in
           let lowSeed := seeds !!! (length seeds - 1 - i)%nat in
           if decide (i `mod` 4 = 0 ∨ i `mod` 4 = 3)%nat
           then (topHalf ++ [highSeed; lowSeed], bottomHalf)
           else (topHalf, bottomHalf ++ [highSeed; lowSeed]))
        ([], []) (seq 0 ((length seeds + 1) `div` 2)%nat).

(** The recursive closure [generateBracketPairings]. It does not return on
    every array (the empty one recurses for ever), hence the fuel: [None]
    only when the recursion is deeper than [fuel]. *)
Fixpoint generateBracketPairings (fuel : nat) (seeds : list nat)
    : option (list (nat * nat)) :=
  match fuel with
  | O => None
  | S fuel' =>
      if decide (length seeds = 2%nat) then Some [(seeds !!! 0%nat, seeds !!! 1%nat)]
      else
        let topHalf := js_sort num_cmp (split_halves seeds).1 in
        let bottomHalf := js_sort num_cmp (split_halves seeds).2 in
        match generateBracketPairings fuel' topHalf with
        | None => None
        | Some topPairings =>
            match generateBracketPairings fuel' bottomHalf with
            | None => None
            | Some bottomPairings => Some (topPairings ++ reverse bottomPairings)
            end
        end
  end.

(** The loop that fills [allPairingsSwapped]. [allPairings[p].reverse()]
    reverses the pair array in place, and that array is an element of
    [allPairings] as well: both arrays come out with the odd positions
    reversed. The result is ([allPairings], [allPairingsSwapped]). *)
Definition swap_pass (allPairings : list (nat * nat))
    : list (nat * nat) * list (nat * nat) :=
  let reversed_in_place :=
    imap (λ p pr, if decide (p `mod` 2 = 0)%nat then pr else (pr.2, pr.1)) allPairings in
  (reversed_in_place, reversed_in_place).

(** [activeTeams.forEach((team, index) => { team.break_seed = index + 1 })] *)
Fixpoint assign_seeds (ts : list Team) (activeTeams : list (option ref)) (index : Z)
    : list Team + list Team :=
  match activeTeams with
  | [] => inr ts
  | None :: _ => inl ts
  | Some r :: rest =>
      assign_seeds (alter (set_break_seed (Some (index + 1))) r ts) rest (index + 1)
  end.

Definition seed_cmp (ts : list Team) (a b : ref) : Z :=
  default 0 (break_seed (ts !!! a)) - default 0 (break_seed (ts !!! b)).

(** [t.break_seed !== null && t.break_seed <= breakSize] *)
Definition seeded_within (breakSize : Z) (t : Team) : bool :=
  match break_seed t with
  | Some b => bool_decide (b ≤ breakSize)
  | None => false
  end.

(** The winners of a round, in the order of its match records. *)
Definition winners (ts : list Team) (prevMatches : list Match) : list (option ref) :=
  fmap (λ m, if bool_decide (result m = Some "A")
            then find_team ts (aff_id m) else find_team ts (neg_id m)) prevMatches.

(** [pairs.push([activeTeams[i * 2], activeTeams[i * 2 + 1]])] for [i < numPairs] *)
Definition sequential_pairs {A} (activeTeams : list (option A)) : list (option A * option A) :=
  fmap (λ i, (mjoin (activeTeams !! (i * 2)%nat), mjoin (activeTeams !! (i * 2 + 1)%nat)))
    (seq 0 ((length activeTeams + 1) `div` 2)%nat).

Definition generateElimPairingsBeforeAffNegOrder (roundNum : Z) (s : TournamentManager)
    : Result (list (option ref * option ref)) :=
  let elimRoundIdx := roundNum - num_prelim_rounds (config s) in
  let breakSize := 2 ^ num_elim_rounds (config s) in
  if decide (Z.of_nat (length (teams s)) < breakSize) then Throw NotEnoughTeams s
  else if decide (elimRoundIdx = 1) then
    let teamsWithSeeds :=
      filter (λ r, seeded_within breakSize (teams s !!! r) = true)
        (seq 0 (length (teams s))) in
    let seeded :=
      if decide (Z.of_nat (length teamsWithSeeds) = breakSize)
      then inr (Some <$> js_sort (seed_cmp (teams s)) teamsWithSeeds, teams s)
      else
        let prelimStandings := getPreliminaryStandings s in
        let activeTeams :=
          fmap (λ t, find_team (teams s) (id (ps_team t)))
            (take (Z.to_nat breakSize) prelimStandings) in
        match assign_seeds (teams s) activeTeams 0 with
        | inl ts' => inl ts'
        | inr ts' => inr (activeTeams, ts')
        end in
    match seeded with
    | inl ts' => Throw TypeError (set_teams ts' s)
    | inr (activeTeams, ts') =>
        let n := length activeTeams in
        match generateBracketPairings (S n) (seq 0 n) with
        | None => Throw StackOverflow (set_teams ts' s)
        | Some allPairings =>
            let '(allPairings, allPairingsSwapped) := swap_pass allPairings in
            Ok (fmap (λ '(highIdx, lowIdx),
                       (mjoin (activeTeams !! highIdx), mjoin (activeTeams !! lowIdx)))
                  allPairings)
               (set_teams ts' s)
        end
    end
  else
    let prevRound := roundNum - 1 in
    let prevMatches := round_matches (matches s) prevRound in
    if existsb unreported prevMatches then Throw (RoundNotComplete prevRound) s
    else Ok (sequential_pairs (winners (teams s) prevMatches)) s.

(** The [pairs.forEach] of [generateElimPairings]: an [undefined] team is
    a [TypeError] in [calculateSidePreference]. *)
Fixpoint side_pairs (ts : list Team) (pairs : list (option ref * option ref))
    (g : Rng) : option (list (ref * ref) * Rng) :=
  match pairs with
  | [] => Some ([], g)
  | (Some t1, Some t2) :: rest =>
      match side_pairs ts rest (determineSides ts t1 t2 false g).2 with
      | Some (ps, g') => Some ((determineSides ts t1 t2 false g).1 :: ps, g')
      | None => None
      end
  | _ :: _ => None
  end.

Definition generateElimPairings (roundNum : Z) (g : Rng) (s : TournamentManager)
    : Result (list (ref * ref) * Rng) :=
  match generateElimPairingsBeforeAffNegOrder roundNum s with
  | Throw e s' => Throw e s'
  | Ok pairs s' =>
      match side_pairs (teams s') pairs g with
      | Some r => Ok r s'
      | None => Throw TypeError s'
      end
  end.

(** ** The tournament driver *)

Record TeamDetail := mkDetail {
  d_name : string;
  d_institution : string;
  d_members : list string
}.

Definition init_team (teamDetails : list TeamDetail) (i : nat) : Team :=
  let detail := default (mkDetail "" "" []) (teamDetails !! i) in
  let name := if decide (d_name detail = "")
              then "Team " +:+ pretty (Z.of_nat i + 1) else d_name detail in
  let institution := if decide (d_institution detail = "")
                     then "Unknown" else d_institution detail in
  let members :=
    if decide (length (d_members detail) = 2%nat)
    then imap (λ idx m, mkMember (if decide (m = "")
                                  then "Member " +:+ pretty (Z.of_nat idx + 1) else m)
                          (Z.of_nat idx + 1)) (d_members detail)
    else default_members in
  new_Team (Z.of_nat i) name institution members.

Definition init (numTeams numPrelimRounds numElimRounds : Z)
    (teamDetails : list TeamDetail) : Result bool :=
  let s := mkTM (mkConfig numTeams numPrelimRounds numElimRounds
                   (numPrelimRounds + numElimRounds))
             0 [] 1 1
             [PComment "Format: Round MatchID AffID NegID"]
             [RComment "Format: Round MatchID AffID NegID Outcome JudgeID [Aff1Pts Aff2Pts Neg1Pts Neg2Pts]";
              RComment "JudgeID: Use -1 if no judge assigned"]
             (fmap (init_team teamDetails) (seq 0 (Z.to_nat numTeams))) in
  match saveToStorage s with
  | Throw e s' => Throw e s'
  | Ok _ s' => Ok true s'
  end.

(** [for (const [aff, neg] of pairs)]: one match object per pair. *)
Definition new_matches (ts : list Team) (roundNum : Z) (first_id : Z)
    (pairs : list (ref * ref)) : list Match :=
  imap (λ k '(aff, neg),
          mkMatch (first_id + Z.of_nat k) roundNum (id (ts !!! aff)) (id (ts !!! neg))
            (name (ts !!! aff)) (name (ts !!! neg)) None None None) pairs.

Definition first_incomplete (ms : list Match) (roundNum : Z) : option Z :=
  snd <$> list_find (λ r, existsb unreported (round_matches ms r) = true)
            (fmap (λ k, Z.of_nat k) (seq 1 (Z.to_nat (roundNum - 1)))).

Section pairRound.
(** The two managers share the body of [pairRound]; they differ in the
    [generateElimPairings] it calls. *)
Variable generateElimPairings :
    Z → Rng → TournamentManager → Result (list (ref * ref) * Rng).

Definition pairRound_with (roundNum : Z) (g : Rng) (s : TournamentManager)
    : Result (list (ref * ref) * Rng) :=
  match (if decide (roundNum > 2) then first_incomplete (matches s) roundNum else None) with
  | Some r => Throw (RoundNotComplete r) s
  | None =>
      match round_matches (matches s) roundNum with
      | _ :: _ => Throw (RoundAlreadyPaired roundNum) s
      | [] =>
          let generated :=
            if decide (roundNum ≤ num_prelim_rounds (config s)) then
              let '(pairs, ts', g') := generateSwissPairings (teams s) roundNum g in
              Ok (pairs, g') (set_teams ts' s)
            else generateElimPairings roundNum g s in
          match generated with
          | Throw e s' => Throw e s'
          | Ok (pairs, g') s1 =>
              let newMatches :=
                new_matches (teams s1) roundNum (next_match_id s1) pairs in
              let s2 :=
                mkTM (config s1) (current_round s1) (matches s1 ++ newMatches)
                  (next_match_id s1 + Z.of_nat (length pairs)) (next_judge_id s1)
                  (pairing_file_content s1
                   ++ fmap (λ m, PEntry (round_num m) (match_id m) (aff_id m) (neg_id m))
                        newMatches)
                  (result_file_content s1) (teams s1) in
              match saveToStorage s2 with
              | Throw e s3 => Throw e s3
              | Ok _ s3 => Ok (pairs, g') s3
              end
          end
      end
  end.

End pairRound.

Definition pairRound : Z → Rng → TournamentManager → Result (list (ref * ref) * Rng) :=
  pairRound_with generateElimPairings.

(** ** Participant standings *)








Section standings.
(** [String.prototype.localeCompare] depends on the locale of the host. *)
Variable localeCompare : string → string → Z.


End standings.

(** ** The older manager of [docs/manager/tournament.js]

    Its team, match and manager objects carry a subset of the fields above
    (no judge, no speaker points); its pairing helpers are the same
    functions. Only its bracket seeder differs. *)
Module Legacy.

Definition standings_cmp (ts : list Team) (a b : ref) : Z :=
  if decide (score (ts !!! b) ≠ score (ts !!! a))
  then score (ts !!! b) - score (ts !!! a)
  else if decide (buchholz (ts !!! b) ≠ buchholz (ts !!! a))
       then buchholz (ts !!! b) - buchholz (ts !!! a)
       else wins (ts !!! b) - wins (ts !!! a).

Definition getStandings (ts : list Team) : list ref :=
  js_sort (standings_cmp ts) (seq 0 (length ts)).

(** [activeTeams.sort((a, b) => a.break_seed - b.break_seed)]: [sort]
    moves [undefined] elements to the end. *)
Definition sort_by_seed (ts : list Team) (activeTeams : list (option ref))
    : list (option ref) :=
  (Some <$> js_sort (seed_cmp ts) (omap (λ x, x) activeTeams))
  ++ filter (λ x, x = None) activeTeams.

Definition generateElimPairings (roundNum : Z) (g : Rng) (s : TournamentManager)
    : Result (list (ref * ref) * Rng) :=
  let elimRoundIdx := roundNum - num_prelim_rounds (config s) in
  let breakSize := 2 ^ num_elim_rounds (config s) in
  if decide (Z.of_nat (length (teams s)) < breakSize) then Throw NotEnoughTeams s
  else if decide (elimRoundIdx = 1) then
    let activeTeams := Some <$> take (Z.to_nat breakSize) (getStandings (teams s)) in
    match assign_seeds (teams s) activeTeams 0 with
    | inl ts' => Throw TypeError (set_teams ts' s)
    | inr ts' =>
        let n := length activeTeams in
        match generateBracketPairings (S n) (seq 0 n) with
        | None => Throw StackOverflow (set_teams ts' s)
        | Some allPairings =>
            let '(allPairings, allPairingsSwapped) := swap_pass allPairings in
            match side_pairs ts'
                    (fmap (λ '(highIdx, lowIdx),
                            (mjoin (activeTeams !! highIdx),
                             mjoin (activeTeams !! lowIdx)))
                       allPairingsSwapped) g with
            | Some r => Ok r (set_teams ts' s)
            | None => Throw TypeError (set_teams ts' s)
            end
        end
    end
  else
    let prevRound := roundNum - 1 in
    let prevMatches := round_matches (matches s) prevRound in
    if existsb unreported prevMatches then Throw (RoundNotComplete prevRound) s
    else
      let activeTeams := sort_by_seed (teams s) (winners (teams s) prevMatches) in
      match side_pairs (teams s) (sequential_pairs activeTeams) g with
      | Some r => Ok r s
      | None => Throw TypeError s
      end.

Definition pairRound : Z → Rng → TournamentManager → Result (list (ref * ref) * Rng) :=
  pairRound_with generateElimPairings.

End Legacy.

(** ** The head-to-head loop of the simulator *)
Module Simulator.

Record Team := mkTeam {
  id : Z;
  trueRank : Z;
  history : list string;
  opponentHistory : list Z
}.

Record Tally := mkTally {
  totalSims : Z;
  matchupCount : Z;
  teamAWins : Z;
  teamBWins : Z;
  teamARanks : list Z;
  teamBRanks : list Z
}.

Definition batchSize : nat := 100.

(** [t.history.length >= h.length && t.history.slice(0, h.length).join('') === h] *)
Definition has_prefix (h : string) (t : Team) : bool :=
  bool_decide (String.length h ≤ length (history t))%nat
  && bool_decide (String.concat "" (take (String.length h) (history t)) = h).

Section loop.
(** The state of the random source, the tournament runner (its win model
    is floating point) and the way a matchup is scored are parameters: the
    two simulators differ in them only. *)
Context {W : Type}.
Variable runTournament : W → list Team * W.
Variable aWins : nat → Team → Team → W → bool * W.

Definition record_matchup (targetRound : nat) (teamA teamB : Team)
    (acc : Tally * W) : Tally * W :=
  if decide (opponentHistory teamA !! targetRound = Some (id teamB)) then
    let '(won, w') := aWins targetRound teamA teamB acc.2 in
    (mkTally (totalSims acc.1) (matchupCount acc.1 + 1)
       (if won then teamAWins acc.1 + 1 else teamAWins acc.1)
       (if won then teamBWins acc.1 else teamBWins acc.1 + 1)
       (teamARanks acc.1 ++ [trueRank teamA])
       (teamBRanks acc.1 ++ [trueRank teamB]), w')
  else acc.

(** One pass of the body of [for (let i = 0; i < batchSize; i++)]. *)
Definition one_tournament (historyA historyB : string) (acc : Tally * W) : Tally * W :=
  let '(teams, w) := runTournament acc.2 in
  let teamsA := filter (λ t, has_prefix historyA t = true) teams in
  let teamsB := filter (λ t, has_prefix historyB t = true) teams in
  let targetRound := String.length historyA in
  foldl (λ acc teamA,
           if decide (length (opponentHistory teamA) ≤ targetRound)%nat then acc
           else foldl (λ acc teamB, record_matchup targetRound teamA teamB acc)
                  acc teamsB)
        (acc.1, w) teamsA.

(** One pass of the body of the [while]: a batch, then [totalSims += batchSize]. *)
Definition one_batch (historyA historyB : string) (acc : Tally * W) : Tally * W :=
  let r := Nat.iter batchSize (one_tournament historyA historyB) acc in
  (mkTally (totalSims acc.1 + Z.of_nat batchSize) (matchupCount r.1) (teamAWins r.1)
     (teamBWins r.1) (teamARanks r.1) (teamBRanks r.1), r.2).

(** [while (totalSims < maxSims && matchupCount < minMatchups)] *)
Equations? while_loop (historyA historyB : string) (maxSims minMatchups : Z)
    (acc : Tally * W) : Tally * W
    by wf (Z.to_nat (maxSims - totalSims acc.1)) lt :=
  while_loop historyA historyB maxSims minMatchups acc
    with decide (totalSims acc.1 < maxSims ∧ matchupCount acc.1 < minMatchups) := {
    | left _ => while_loop historyA historyB maxSims minMatchups
                  (one_batch historyA historyB acc);
    | right _ => acc }.
Proof. unfold batchSize. simpl. lia. Qed.

Definition run (historyA historyB : string) (maxSims minMatchups : Z) (w : W)
    : Tally * W :=
  while_loop historyA historyB maxSims minMatchups (mkTally 0 0 0 0 [] [], w).
End loop.

Record Params := mkParams {
  historyA : string;
  historyB : string;
  minMatchups : Z;
  maxSimulations : Z
}.

(** [docs/simulator/simulation.js]: the winner is read from the history of
    the tournament; [maxSimulations || 50000]. *)
Definition runHeadToHeadSimulation {W} (runTournament : W → list Team * W)
    (params : Params) (w : W) : Tally * W :=
  let maxSims := if decide (maxSimulations params = 0) then 50000
                 else maxSimulations params in
  run runTournament
    (λ targetRound teamA _ w, (bool_decide (history teamA !! targetRound = Some "W"), w))
    (historyA params) (historyB params) maxSims (minMatchups params) w.

(** [docs/simulation.js]: the winner is drawn afresh,
    [Math.random() < probabilityOfWin(teamA, teamB, winModel)]; the cap is
    the constant 50000. *)
Definition runHeadToHeadSimulation_docs {W} (runTournament : W → list Team * W)
    (drawWin : Team → Team → W → bool * W) (params : Params) (w : W) : Tally * W :=
  run runTournament (λ _ teamA teamB w, drawWin teamA teamB w)
    (historyA params) (historyB params) 50000 (minMatchups params) w.

End Simulator.

(** ** Vocabulary of the statements *)

(** The teams that sit in some pair, in the order the pairs were emitted. *)
Definition paired_teams (pairs : list (ref * ref)) : list ref :=
  pairs ≫= λ p, [p.1; p.2].

(** The bye sentinels among the opponents of a team. *)
Definition byes (t : Team) : nat := length (filter (λ o, o = -1) (opponents t)).

(** Every entry of [opponents] is a side taken or a bye. *)
Definition sides_account (t : Team) : Prop :=
  Z.of_nat (length (opponents t)) = aff_count t + neg_count t + Z.of_nat (byes t).

Definition team_ids (ts : list Team) : list Z := id <$> ts.

(** Team [i] is the reported winner of match [m]. *)
Definition wins_match (i : Z) (m : Match) : Prop :=
  (aff_id m = i ∧ result m = Some "A") ∨ (neg_id m = i ∧ result m = Some "N").

Global Instance wins_match_dec i m : Decision (wins_match i m).
Proof. unfold wins_match. apply _. Defined.


(** The highest round that has a match ([0] when nothing is paired). *)
Definition max_paired_round (s : TournamentManager) : Z :=
  foldr (λ m acc, Z.max (round_num m) acc) 0 (matches s).

(** The odd roster of the specification's scenarios: 5 teams, 3 preliminary
    rounds, round 1 paired with every random draw equal to 0. *)
Definition odd_roster : TournamentManager :=
  state_of (pairRound 1 [] (state_of (init 5 3 0 []))).

(** Two teams, four preliminary rounds; round 1 is paired and its only
    match reported, rounds 2 and 3 are not paired. *)
Definition round1_reported : TournamentManager :=
  state_of (reportResult 1 "A" None
              (state_of (pairRound 1 [] (state_of (init 2 4 0 []))))).

(** Two teams, one preliminary round, round 1 paired. *)
Definition two_teams_paired : TournamentManager :=
  state_of (pairRound 1 [] (state_of (init 2 1 0 []))).

(** Eight teams that all break (no preliminary round, three elimination
    rounds), handled by the older manager: the quarterfinals are paired and
    reported, seeds 1, 4, 3 and 2 winning. *)
Definition quarterfinals_done : TournamentManager :=
  state_of (reportResult 4 "N" None
    (state_of (reportResult 3 "A" None
      (state_of (reportResult 2 "N" None
        (state_of (reportResult 1 "A" None
          (state_of (Legacy.pairRound 1 [] (state_of (init 8 0 3 []))))))))))).

(** The break seeds of the two teams of a match. *)
Definition seeds_of (ts : list Team) (m : Match) : option Z * option Z :=
  (find_team ts (aff_id m) ≫= λ r, break_seed (ts !!! r),
   find_team ts (neg_id m) ≫= λ r, break_seed (ts !!! r)).





(** The positions that [split_halves] deals to the top half. *)
Definition top_idx (i : nat) : Prop := (i `mod` 4 = 0 ∨ i `mod` 4 = 3)%nat.

Global Instance top_idx_dec i : Decision (top_idx i).
Proof. unfold top_idx. apply _. Defined.

(** The two seeds dealt at position [i]. *)
Definition pair_at (seeds : list nat) (i : nat) : list nat :=
  [seeds !!! i; seeds !!! (length seeds - 1 - i)%nat].

(** The list read backwards is the list of the complements to [S]: the
    seed at position [i] and the seed at position [i] from the end add up
    to [S]. *)
Definition mirrored (S : nat) (l : list nat) : Prop :=
  reverse l = (λ x, S - x)%nat <$> l ∧ Forall (λ x, x ≤ S)%nat l.

(** The bracket that the recursive halving generates for a break of [B]
    teams, as pairs of 1-based seeds ([activeTeams[i]] has seed [i + 1]). *)
Definition bracket_seeds (B : nat) : option (list (nat * nat)) :=
  fmap (M:=list) (λ p : nat * nat, (S p.1, S p.2))
  <$> generateBracketPairings (S B) (seq 0 B).

(** The pairs that [generateElimPairingsBeforeAffNegOrder] pushes for that
    break, after the loop that fills [allPairingsSwapped] has run. *)
Definition emitted_seeds (B : nat) : option (list (nat * nat)) :=
  (λ ps, (swap_pass ps).1) <$> bracket_seeds B.

(** A pair of seeds as a matchup, the higher seed (lower number) first. *)
Definition matchup (p : nat * nat) : nat * nat := (p.1 `min` p.2, p.1 `max` p.2)%nat.

(** The states a manager goes through: [init], then any sequence of the
    modelled public methods, whether they return or throw. *)
Inductive reachable : TournamentManager → Prop :=
  | reach_init n p e ds : reachable (state_of (init n p e ds))
  | reach_pairRound s r g :
      reachable s → reachable (state_of (pairRound r g s))
  | reach_reportResult s mid o sp :
      reachable s → reachable (state_of (reportResult mid o sp s))
  | reach_updateResult s mid o sp :
      reachable s → reachable (state_of (updateResult mid o sp s))
  | reach_storeSpeakerPoints s mid sp :
      reachable s → reachable (state_of (storeSpeakerPoints mid sp s)).

(** What every reachable state keeps true of a team: a non-negative id, and
    opponents that are accounted for. *)
Definition team_ok (t : Team) : Prop := 0 ≤ id t ∧ sides_account t.

(** The invariant of the manager: every team is [team_ok], both sides of
    every match are ids of teams in the store, and no two teams share an id. *)
Definition Inv (s : TournamentManager) : Prop :=
  Forall team_ok (teams s)
  ∧ Forall (λ m, aff_id m ∈ team_ids (teams s) ∧ neg_id m ∈ team_ids (teams s)) (matches s)
  ∧ NoDup (team_ids (teams s)).

(** A possibly [undefined] reference that, when defined, points into a
    store of [n] teams. *)
Definition opt_valid (n : nat) (o : option ref) : Prop := ∀ r, o = Some r → (r < n)%nat.

(** ** Vocabulary of the pairing helpers *)

(** Candidate [c] has never met [t1]. *)
Definition never_met (ts : list Team) (t1 : Team) (c : ref) : Prop :=
  id (ts !!! c) ∉ opponents t1.

(** [t1] has not yet been on both sides against candidate [c]. *)
Definition side_left (ts : list Team) (t1 : Team) (c : ref) : Prop :=
  Aff ∉ t1History t1 (id (ts !!! c)) ∨ Neg ∉ t1History t1 (id (ts !!! c)).

(** ** Agreement of the two logs with the match records *)

(** What a pairing line records of a match. *)
Definition pairing_key (m : Match) : Z * Z * Z * Z :=
  (round_num m, match_id m, aff_id m, neg_id m).

(** What an active result line records of a match, and what a reported
    match should have on its line. *)
Definition entry_key (e : ResultEntry) : Z * Z * Z * Z * string :=
  (re_round e, re_match e, re_aff e, re_neg e, re_outcome e).

Definition result_key (m : Match) : option (Z * Z * Z * Z * string) :=
  (λ o, (round_num m, match_id m, aff_id m, neg_id m, o)) <$> result m.

(** No two matches share an id, and [next_match_id] is above all of them. *)
Definition ids_fresh (s : TournamentManager) : Prop :=
  NoDup (match_id <$> matches s)
  ∧ Forall (λ m, match_id m < next_match_id s) (matches s).

(** The pairing log lists the matches in the order of the records; the
    active lines of the result log are, in some order, one line for every
    reported match; neither text is empty. *)
Definition logs_agree (s : TournamentManager) : Prop :=
  pairing_entries (pairing_file_content s) = pairing_key <$> matches s
  ∧ entry_key <$> result_entries (result_file_content s) ≡ₚ omap result_key (matches s)
  ∧ pairing_file_content s ≠ []
  ∧ result_file_content s ≠ [].

(** Every match is unreported or has one of the two outcomes. *)
Definition results_valid (s : TournamentManager) : Prop :=
  Forall (λ m, result m = None ∨ result m = Some "A" ∨ result m = Some "N") (matches s).

(** A manager in working order. *)
Definition healthy (s : TournamentManager) : Prop :=
  Inv s ∧ ids_fresh s ∧ logs_agree s ∧ results_valid s.

(** The manager after the [for] loops of [pairRound] have pushed the new
    match objects and their pairing lines. *)
Definition with_new_matches (roundNum : Z) (pairs : list (ref * ref))
    (s1 : TournamentManager) : TournamentManager :=
  let newMatches := new_matches (teams s1) roundNum (next_match_id s1) pairs in
  mkTM (config s1) (current_round s1) (matches s1 ++ newMatches)
    (next_match_id s1 + Z.of_nat (length pairs)) (next_judge_id s1)
    (pairing_file_content s1
     ++ fmap (λ m, PEntry (round_num m) (match_id m) (aff_id m) (neg_id m)) newMatches)
    (result_file_content s1) (teams s1).


(** What a team object holds besides the statistics that
    [recalculateStats] rebuilds. *)
Definition kept_fields (t : Team)
    : Z * string * string * list Member * option Z * list SpEntry :=
  (id t, name t, institution t, members t, break_seed t, speaker_points_history t).

(** The states of a manager none of whose calls has thrown: [init], then
    calls of [pairRound], of [reportResult] and [updateResult] without
    speaker points, and of [storeSpeakerPoints], each of which returned. *)
Inductive normal_run : TournamentManager → Prop :=
  | run_init n p e ds : normal_run (state_of (init n p e ds))
  | run_pairRound s r g pairs g' s' :
      normal_run s → pairRound r g s = Ok (pairs, g') s' → normal_run s'
  | run_reportResult s mid o b s' :
      normal_run s → reportResult mid o None s = Ok b s' → normal_run s'
  | run_updateResult s mid o b s' :
      normal_run s → updateResult mid o None s = Ok b s' → normal_run s'
  | run_storeSpeakerPoints s mid sp s' :
      normal_run s → storeSpeakerPoints mid sp s = Ok tt s' → normal_run s'.

(** ** Vocabulary of the standings *)

(** [a] stands before [b] in the preliminary standings: more preliminary
    wins, or as many and a preliminary Buchholz that is not lower. *)
Definition prelim_order (a b : PrelimStat) : Prop :=
  prelim_score a > prelim_score b
  ∨ (prelim_score a = prelim_score b ∧ prelim_buchholz b ≤ prelim_buchholz a).

(** What the preliminary standings show of a team: its id and its three
    preliminary statistics. *)
Definition prelim_row (p : PrelimStat) : Z * Z * Z * Z :=
  (id (ps_team p), prelim_wins p, prelim_score p, prelim_buchholz p).

(** The matches of the preliminary rounds. *)
Definition prelim_matches (s : TournamentManager) : list Match :=
  filter (λ m, round_num m ≤ num_prelim_rounds (config s)) (matches s).

(** ** Further scenarios *)

(** The only match of [two_teams_paired]. *)
Definition the_match : Match := mkMatch 1 1 1 0 "Team 2" "Team 1" None None None.

(** Speaker points within the range. *)
Definition good_points : SpeakerPoints :=
  mkSpeakerPoints [Some 28; Some 27] [Some 26; Some 25].

(** Four teams that all break: no preliminary round, two elimination
    rounds. *)
Definition four_team_break : TournamentManager := state_of (init 4 0 2 []).

(** ** Judges

    [this.judges] is kept beside [this.data]; a judge object is referred to
    by its position in that array. *)

Record Judge := mkJudge {
  j_id : Z;
  j_name : string;
  j_institution : string;
  matches_judged : list Z
}.

(** [new Judge(id, name, institution)] *)
Definition new_Judge (i : Z) (nm inst : string) : Judge :=
  mkJudge i nm (if decide (inst = "") then "Tournament Hire" else inst) [].

Definition set_matches_judged (l : list Z) (j : Judge) : Judge :=
  mkJudge (j_id j) (j_name j) (j_institution j) l.

Definition set_judge_id (jid : option Z) (m : Match) : Match :=
  mkMatch (match_id m) (round_num m) (aff_id m) (neg_id m) (aff_name m)
    (neg_name m) (result m) jid (speaker_points m).

Definition set_next_judge_id (n : Z) (s : TournamentManager) : TournamentManager :=
  mkTM (config s) (current_round s) (matches s) (next_match_id s) n
    (pairing_file_content s) (result_file_content s) (teams s).

(** A manager together with its judges. *)
Record Panel := mkPanel {
  data : TournamentManager;
  judges : list Judge
}.

Inductive JudgeError :=
  | JudgeNameRequired
  | JudgeExists (nm : string)
  | JudgeNotFound (jid : Z)
  | JudgeIsAssigned (jid : Z) (n : nat)
  | JudgeMatchNotFound (mid : Z)
  | StorageError (e : Error).

Inductive JResult (A : Type) :=
  | JOk (a : A) (s : Panel)
  | JThrow (e : JudgeError) (s : Panel).

Arguments JOk {A} a s.
Arguments JThrow {A} e s.

Definition panel_of {A} (r : JResult A) : Panel :=
  match r with JOk _ s => s | JThrow _ s => s end.

(** [this.judges.find(j => j.id === judgeId)], with its position. *)
Definition find_judge (js : list Judge) (judgeId : Z) : option (nat * Judge) :=
  list_find (λ j, j_id j = judgeId) js.

(** [this.saveToStorage()] at the end of a judge method. *)
Definition save_panel {A} (a : A) (d : TournamentManager) (js : list Judge) : JResult A :=
  match saveToStorage d with
  | Ok _ d' => JOk a (mkPanel d' js)
  | Throw e d' => JThrow (StorageError e) (mkPanel d' js)
  end.

Section judges.
(** [String.prototype.trim] and [String.prototype.toLowerCase]. *)
Variable trim : string → string.
Variable toLowerCase : string → string.

Definition addJudge (name institution : string) (s : Panel) : JResult Judge :=
  if decide (name = "" ∨ trim name = "") then JThrow JudgeNameRequired s
  else if existsb (λ j, bool_decide (toLowerCase (j_name j) = toLowerCase name)) (judges s)
  then JThrow (JudgeExists name) s
  else
    let judge := new_Judge (next_judge_id (data s)) (trim name) (trim institution) in
    save_panel judge (set_next_judge_id (next_judge_id (data s) + 1) (data s))
      (judges s ++ [judge]).
End judges.

Definition removeJudge (judgeId : Z) (s : Panel) : JResult unit :=
  match find_judge (judges s) judgeId with
  | None => JThrow (JudgeNotFound judgeId) s
  | Some (_, judge) =>
      if decide (0 < length (matches_judged judge))%nat
      then JThrow (JudgeIsAssigned judgeId (length (matches_judged judge))) s
      else save_panel tt (data s) (filter (λ j, j_id j ≠ judgeId) (judges s))
  end.

Definition unassignJudgeFromMatch (matchId : Z) (s : Panel) : JResult unit :=
  match find_match (matches (data s)) matchId with
  | None => JThrow (JudgeMatchNotFound matchId) s
  | Some (i, m) =>
      match judge_id m with
      | None => JOk tt s
      | Some jid =>
          let js1 :=
            match find_judge (judges s) jid with
            | Some (k, _) =>
                alter (λ j, set_matches_judged
                              (filter (λ mid, mid ≠ matchId) (matches_judged j)) j)
                  k (judges s)
            | None => judges s
            end in
          save_panel tt
            (set_matches (alter (set_judge_id None) i (matches (data s))) (data s)) js1
      end
  end.

Definition assignJudgeToMatch (matchId judgeId : Z) (s : Panel) : JResult unit :=
  match find_match (matches (data s)) matchId with
  | None => JThrow (JudgeMatchNotFound matchId) s
  | Some (i, m) =>
      match find_judge (judges s) judgeId with
      | None => JThrow (JudgeNotFound judgeId) s
      | Some (k, _) =>
          let unassigned :=
            match judge_id m with
            | Some _ => unassignJudgeFromMatch matchId s
            | None => JOk tt s
            end in
          match unassigned with
          | JThrow e s1 => JThrow e s1
          | JOk _ s1 =>
              save_panel tt
                (set_matches (alter (set_judge_id (Some judgeId)) i (matches (data s1)))
                   (data s1))
                (alter (λ j, if bool_decide (matchId ∈ matches_judged j) then j
                             else set_matches_judged (matches_judged j ++ [matchId]) j)
                   k (judges s1))
          end
      end
  end.

(** The judge bookkeeping is sound: no two judges share an id and
    [next_judge_id] is above all of them; a match that names a judge is in
    the list of that judge; and a judge lists only matches that name him,
    each once. *)
Definition judges_ok (s : Panel) : Prop :=
  NoDup (j_id <$> judges s)
  ∧ Forall (λ j, j_id j < next_judge_id (data s)) (judges s)
  ∧ (∀ m jid, m ∈ matches (data s) → judge_id m = Some jid →
       ∃ j, j ∈ judges s ∧ j_id j = jid ∧ match_id m ∈ matches_judged j)
  ∧ (∀ j mid, j ∈ judges s → mid ∈ matches_judged j →
       ∃ m, m ∈ matches (data s) ∧ match_id m = mid ∧ judge_id m = Some (j_id j))
  ∧ Forall (λ j, NoDup (matches_judged j)) (judges s).

(** The judges are in order and no two matches share an id. *)
Definition panel_ok (s : Panel) : Prop :=
  judges_ok s ∧ NoDup (match_id <$> matches (data s)).

(** A judge, leaving match [matchId] out of the list of judged matches. *)
Definition judge_rest (matchId : Z) (j : Judge) : Z * string * string * list Z :=
  (j_id j, j_name j, j_institution j, filter (λ mid, mid ≠ matchId) (matches_judged j)).

(** [two_teams_paired] with one judge who is not assigned. *)
Definition one_judge_panel : Panel :=
  mkPanel (set_next_judge_id 2 two_teams_paired) [mkJudge 1 "Ann" "Tournament Hire" []].

(** ** Export and import

    [exportData] returns the fields of [this.data] with [teams] and
    [judges] replaced by plain copies of the team and judge objects;
    [importData] is modelled on such an object, in which no field is
    missing. *)

Record Exported := mkExported {
  ex_data : TournamentManager;
  ex_judges : list Judge
}.

(** [if (!this.data.pairing_file_content) ...; if (!this.data.result_file_content) ...] *)
Definition fill_logs (d : TournamentManager) : TournamentManager :=
  let d1 := match pairing_file_content d with
            | [] => set_pairing_file_content (generatePairingFileContent (matches d)) d
            | _ => d
            end in
  match result_file_content d1 with
  | [] => set_result_file_content (generateResultFileContent (matches d1)) d1
  | _ => d1
  end.

Definition exportData (s : Panel) : Exported * Panel :=
  let d := fill_logs (data s) in
  (mkExported d (judges s), mkPanel d (judges s)).

(** The body of [data.teams.map(t => ...)] in [importData]. *)
Definition import_team (t : Team) : Team :=
  let inst := if decide (institution t = "") then "Unknown" else institution t in
  let mems := if decide (length (members t) = 2%nat) then members t
              else default_members in
  let team := new_Team (id t) (name t) inst mems in
  mkTeam (id team) (name team) (institution team) (members team)
    (wins t) (score t) (buchholz t) (opponents t) (aff_count t) (neg_count t)
    (last_side t) (side_history t)
    (match break_seed t with Some 0 => None | seed => seed end)
    (speaker_points_history t).

(** The body of [(data.judges || []).map(j => ...)]. *)
Definition import_judge (j : Judge) : Judge :=
  set_matches_judged (matches_judged j) (new_Judge (j_id j) (j_name j) (j_institution j)).

(** [importData(data)] on a manager whose team and judge objects are those
    of [s]: when a redundancy check throws, [this.data] is already the
    imported object, [this.teams] and [this.judges] are still the old ones. *)
Definition importData (e : Exported) (s : Panel) : JResult unit :=
  let d1 := fill_logs (ex_data e) in
  let d2 := if decide (next_judge_id d1 = 0) then set_next_judge_id 1 d1 else d1 in
  if validatePairingRedundancy (matches d2) (pairing_file_content d2)
     && validateResultRedundancy (matches d2) (result_file_content d2)
  then save_panel tt (set_teams (import_team <$> teams (ex_data e)) d2)
         (import_judge <$> ex_judges e)
  else JThrow (StorageError RedundancyCheckFailed)
         (mkPanel (set_teams (teams (data s)) d2) (judges s)).

(** A team object as [new Team] builds it and the bracket seeds it: with
    an institution, two members and no break seed 0. *)
Definition as_built (t : Team) : Prop :=
  institution t ≠ "" ∧ length (members t) = 2%nat ∧ break_seed t ≠ Some 0.

(** ** The other simulations of the simulator

    As in the head-to-head loop, the tournament runner and the state of the
    random source are parameters; [numSims] is a whole number. *)
Module Simulations.

Section sims.
Context {W : Type}.
Variable runTournament : W → list Simulator.Team * W.

(** [rankCounts[team.trueRank] = (rankCounts[team.trueRank] || 0) + 1; totalTeams++]
    for a team with the history asked for. *)
Definition count_rank (history : string) (acc : gmap Z Z * Z) (team : Simulator.Team)
    : gmap Z Z * Z :=
  if Simulator.has_prefix history team
  then (<[Simulator.trueRank team :=
            default 0 (acc.1 !! Simulator.trueRank team) + 1]> acc.1,
        acc.2 + 1)
  else acc.

(** [{ rankCounts, totalTeams }] and the random source after [numSims]
    tournaments. *)
Definition runRankFromHistorySimulation (history : string) (numSims : Z) (w : W)
    : gmap Z Z * Z * W :=
  Nat.iter (Z.to_nat numSims)
    (λ acc, let '(teams, w') := runTournament acc.2 in
            (foldl (count_rank history) acc.1 teams, w'))
    ((∅, 0), w).

(** [teams.slice(0, topN)] *)
Definition slice_to {A} (topN : Z) (l : list A) : list A :=
  take (Z.to_nat (if decide (topN < 0) then Z.of_nat (length l) + topN else topN)) l.

(** The body of [for (const team of teams)] in
    [runTopNFromHistorySimulation]; [acc] is
    [(totalTeamsWithHistory, teamsInTopN)]. *)
Definition count_top (history : string) (topNTeamIds : list Z) (acc : Z * Z)
    (team : Simulator.Team) : Z * Z :=
  if Simulator.has_prefix history team
  then (acc.1 + 1,
        if bool_decide (Simulator.id team ∈ topNTeamIds) then acc.2 + 1 else acc.2)
  else acc.

Definition runTopNFromHistorySimulation (history : string) (topN numSims : Z) (w : W)
    : Z * Z * W :=
  Nat.iter (Z.to_nat numSims)
    (λ acc, let '(teams, w') := runTournament acc.2 in
            (foldl (count_top history (Simulator.id <$> slice_to topN teams)) acc.1 teams,
             w'))
    ((0, 0), w).
End sims.

End Simulations.

(** The sum of the counts of a table of counts. *)
Definition sum_counts (m : gmap Z Z) : Z := map_fold (λ _ v acc, acc + v) 0 m.

(** The tally of a head-to-head simulation adds up. *)
Definition tally_adds_up (t : Simulator.Tally) : Prop :=
  Simulator.matchupCount t = Simulator.teamAWins t + Simulator.teamBWins t
  ∧ 0 ≤ Simulator.teamAWins t ∧ 0 ≤ Simulator.teamBWins t
  ∧ Z.of_nat (length (Simulator.teamARanks t)) = Simulator.matchupCount t
  ∧ Z.of_nat (length (Simulator.teamBRanks t)) = Simulator.matchupCount t.

(** The order of the standings: by score, then Buchholz, then wins, the
    higher first; teams equal in all three in the order of the team list. *)
Definition standings_order (ts : list Team) (a b : ref) : Prop :=
  score (ts !!! b) < score (ts !!! a)
  ∨ (score (ts !!! b) = score (ts !!! a)
     ∧ (buchholz (ts !!! b) < buchholz (ts !!! a)
        ∨ (buchholz (ts !!! b) = buchholz (ts !!! a)
           ∧ (wins (ts !!! b) < wins (ts !!! a)
              ∨ (wins (ts !!! b) = wins (ts !!! a) ∧ (a < b)%nat))))).

(** [arePrelimRoundsComplete()] *)
Definition arePrelimRoundsComplete (s : TournamentManager) : bool :=
  forallb (round_complete (matches s))
    (fmap (λ k, Z.of_nat k) (seq 1 (Z.to_nat (num_prelim_rounds (config s))))).

(** ** The tournament runner of [docs/simulation.js] *)
Module DocsSimulator.

Record Team := mkTeam {
  id : Z;
  trueRank : Z;
  score : Z;
  opponents : gset Z;
  history : list string;
  opponentHistory : list Z;
  buchholz : Z;
  wins : Z
}.

(** [new Team(id, trueRank)] *)
Definition new_Team (i r : Z) : Team := mkTeam i r 0 ∅ [] [] 0 0.

Global Instance Team_inhabited : Inhabited Team := populate (new_Team 0 0).

(** The [while (group.length >= 2)] loop of one score group and the
    [remaining.push(...group)] after it. After the [shift] the group holds
    at least one team, so that the branch [remaining.push(t1)] is never
    taken. *)
Equations? pairGroup (ts : list Team) (group : list ref) (pairs : list (ref * ref))
    : list (ref * ref) * list ref by wf (length group) lt :=
  pairGroup ts (t1 :: next :: rest) pairs
    with list_find (λ c, id (ts !!! c) ∉ opponents (ts !!! t1)) (next :: rest) := {
    | Some (opponentIdx, t2) =>
        pairGroup ts (delete opponentIdx (next :: rest)) (pairs ++ [(t1, t2)]);
    | None => pairGroup ts rest (pairs ++ [(t1, next)]) };
  pairGroup ts group pairs := (pairs, group).
Proof.
  rewrite delete_take_drop, length_app, length_take, length_drop. simpl. lia.
Qed.

(** [scoreGroups[t.score].push(t)] for every team of the shuffled copy. *)
Definition group_by_score (ts : list Team) (teamsCopy : list ref) : gmap Z (list ref) :=
  foldl (λ scoreGroups t,
           let key := score (ts !!! t) in
           <[key := default [] (scoreGroups !! key) ++ [t]]> scoreGroups)
        ∅ teamsCopy.

(** One iteration of [for (const score of sortedScores)]. *)
Definition pairScore (ts : list Team) (scoreGroups : gmap Z (list ref))
    (acc : list (ref * ref) * list ref) (sc : Z) : list (ref * ref) * list ref :=
  pairGroup ts (default [] (scoreGroups !! sc) ++ acc.2) acc.1.

(** The bye of [remaining[0]]. *)
Definition award_bye (t : Team) : Team :=
  mkTeam (id t) (trueRank t) (score t + 1) ({[-1]} ∪ opponents t)
    (history t ++ ["W"]) (opponentHistory t ++ [-1]) (buchholz t) (wins t + 1).

(** [pairRound(teams, roundNum, useBuchholz)]: the pairs, the teams left
    in [remaining], the store after the bye and the random source. The
    shuffle is the loop of [shuffleArray]. *)
Definition pairRound (ts : list Team) (roundNum : Z) (g : Rng)
    : list (ref * ref) * list ref * list Team * Rng :=
  let '(teamsCopy, g1) := shuffleArray (seq 0 (length ts)) g in
  let scoreGroups :=
    if decide (roundNum > 1) then group_by_score ts teamsCopy else {[ 0 := teamsCopy ]} in
  let '(pairs, remaining) :=
    foldl (pairScore ts scoreGroups) ([], []) (sortedScores scoreGroups) in
  let ts' := match remaining with
             | byeTeam :: _ => alter award_bye byeTeam ts
             | [] => ts
             end in
  (pairs, remaining, ts', g1).

Section run.
(** [Math.random() < probabilityOfWin(teamA, teamB, winModel)]: the win
    model is floating point; whether a draw is below the probability is a
    parameter. *)
Variable below : Team → Team → draw → bool.

(** What the body of [for (const [t1, t2] of pairs)] does to [t1]. *)
Definition play_first (won : bool) (oppId : Z) (t : Team) : Team :=
  mkTeam (id t) (trueRank t) (if won then score t + 1 else score t + 0)
    ({[oppId]} ∪ opponents t) (history t ++ [if won then "W" else "L"])
    (opponentHistory t ++ [oppId]) (buchholz t) (if won then wins t + 1 else wins t).

(** ... and to [t2]. *)
Definition play_second (won : bool) (oppId : Z) (t : Team) : Team :=
  mkTeam (id t) (trueRank t) (if won then score t + 0 else score t + 1)
    ({[oppId]} ∪ opponents t) (history t ++ [if won then "L" else "W"])
    (opponentHistory t ++ [oppId]) (buchholz t) (if won then wins t else wins t + 1).

Definition play_pair (acc : list Team * Rng) (p : ref * ref) : list Team * Rng :=
  let '(ts, g) := acc in
  let '(d, g') := next_draw g in
  let won := below (ts !!! p.1) (ts !!! p.2) d in
  let id1 := id (ts !!! p.1) in
  let id2 := id (ts !!! p.2) in
  (alter (play_second won id1) p.2 (alter (play_first won id2) p.1 ts), g').

(** One pass of [for (let round = 0; round < numRounds; round++)]. *)
Definition play_round (acc : list Team * Rng) (round : nat) : list Team * Rng :=
  let '(pairs, _, ts', g') := pairRound acc.1 (Z.of_nat round) acc.2 in
  foldl play_pair (ts', g') pairs.

Definition final_cmp (a b : Team) : Z :=
  if decide (score b ≠ score a) then score b - score a else buchholz b - buchholz a.

Definition runTournament (numTeams numRounds : Z) (g : Rng) : list Team * Rng :=
  let teams := fmap (λ i, new_Team (Z.of_nat i) (Z.of_nat i + 1))
                 (seq 0 (Z.to_nat numTeams)) in
  let '(ts, g') := foldl play_round (teams, g) (seq 0 (Z.to_nat numRounds)) in
  (js_sort final_cmp ts, g').
End run.

End DocsSimulator.






(** * Properties *)

(** ** Sorting, shuffling *)

Lemma sort_insert_Permutation {A} (cmp : A → A → Z) x l :
  sort_insert cmp x l ≡ₚ x :: l.
Proof.
  induction l as [|y l IH]; simpl; [done|].
  case_decide; [done|]. rewrite IH. apply Permutation_swap.
Qed.

Lemma js_sort_Permutation {A} (cmp : A → A → Z) l : js_sort cmp l ≡ₚ l.
Proof.
  induction l as [|x l IH]; simpl; [done|].
  rewrite sort_insert_Permutation. by f_equiv.
Qed.

Lemma js_sort_length {A} (cmp : A → A → Z) l : length (js_sort cmp l) = length l.
Proof. by rewrite js_sort_Permutation. Qed.

Lemma swap_Permutation (a : list ref) i j :
  (i < length a)%nat → (j < length a)%nat → swap a i j ≡ₚ a.
Proof.
  intros Hi Hj. unfold swap.
  apply Permutation_insert_swap; by apply list_lookup_lookup_total_lt.
Qed.

Lemma swap_length (a : list ref) i j : length (swap a i j) = length a.
Proof. unfold swap. by rewrite !length_insert. Qed.

Lemma floor_mul_lt d n : (0 < n)%nat → (floor_mul d n < n)%nat.
Proof.
  intros Hn. unfold floor_mul.
  apply Nat.Div0.div_lt_upper_bound.
  pose proof (Nat.mod_upper_bound (num d) (S (den d))). nia.
Qed.

Lemma shuffle_loop_Permutation i a g :
  (i < length a)%nat → (shuffle_loop i a g).1 ≡ₚ a.
Proof.
  revert a g. induction i as [|i IH]; intros a g Hi; simpl; [done|].
  destruct (next_draw g) as [d g'].
  rewrite IH by (rewrite swap_length; lia).
  apply swap_Permutation; [done|].
  pose proof (floor_mul_lt d (S i)). lia.
Qed.

Lemma shuffleArray_Permutation a g : (shuffleArray a g).1 ≡ₚ a.
Proof.
  unfold shuffleArray. destruct a as [|x a]; [done|].
  apply shuffle_loop_Permutation. simpl. lia.
Qed.

(** ** The Swiss pairing is a full assignment *)

Lemma determineSides_teams ts t1 t2 sw g :
  (determineSides ts t1 t2 sw g).1 = (t1, t2)
  ∨ (determineSides ts t1 t2 sw g).1 = (t2, t1).
Proof.
  unfold determineSides.
  repeat (case_match; simpl; auto).
Qed.

Lemma paired_teams_snoc pairs p :
  paired_teams (pairs ++ [p]) = paired_teams pairs ++ [p.1; p.2].
Proof. unfold paired_teams. by rewrite bind_app. Qed.

Lemma paired_teams_determineSides ts pairs t1 t2 sw g :
  paired_teams (pairs ++ [(determineSides ts t1 t2 sw g).1])
  ≡ₚ paired_teams pairs ++ [t1; t2].
Proof.
  rewrite paired_teams_snoc.
  destruct (determineSides_teams ts t1 t2 sw g) as [-> | ->]; simpl; [done|].
  f_equiv. apply Permutation_swap.
Qed.

Lemma findBestOpponent_loop_index ts t1 group i bs opp idx sw :
  findBestOpponent_loop ts t1 group i bs = mkBest (Some opp) idx sw →
  (∃ j, bs = Some (opp, j) ∧ idx = Z.of_nat j ∧ sw = true)
  ∨ (∃ k, idx = Z.of_nat (i + k) ∧ group !! k = Some opp).
Proof.
  revert i bs. induction group as [|c rest IH]; intros i bs; simpl.
  - destruct bs as [[c j]|]; [|done]. intros [= <- <- <-]. left. by exists j.
  - case_bool_decide as Hfresh.
    + intros [= <- <- <-]. right. exists 0%nat. split; [f_equal; lia|done].
    + intros Hres. apply IH in Hres.
      destruct Hres as [(j & Hc & -> & ->) | (k & -> & Hk)].
      * destruct bs as [[c0 j0]|].
        -- injection Hc as -> ->. left. by exists j.
        -- destruct (_ || _); [|done]. injection Hc as -> ->.
           right. exists 0%nat. split; [f_equal; lia|done].
      * right. exists (S k). split; [f_equal; lia|done].
Qed.

Lemma findBestOpponent_index ts t1 group opp idx sw :
  findBestOpponent ts t1 group = mkBest (Some opp) idx sw →
  group !! Z.to_nat idx = Some opp.
Proof.
  unfold findBestOpponent. intros H.
  apply findBestOpponent_loop_index in H.
  destruct H as [(? & ? & _) | (k & -> & Hk)]; [done|].
  by rewrite Nat2Z.id.
Qed.

Lemma pairGroup_Permutation ts group pairs floaters g :
  paired_teams (pairGroup ts group pairs floaters g).1.1
    ++ (pairGroup ts group pairs floaters g).1.2
  ≡ₚ paired_teams pairs ++ floaters ++ group.
Proof.
  funelim (pairGroup ts group pairs floaters g).
  - simpl. by rewrite app_nil_r.
  - rewrite H. rewrite paired_teams_determineSides.
    apply findBestOpponent_index, delete_Permutation in Heq.
    remember (delete (Z.to_nat idx) rest) as others. rewrite Heq.
    rewrite <-!(assoc (++)). f_equiv. simpl.
    by rewrite <-!Permutation_middle.
  - rewrite H. f_equiv. rewrite <-(assoc (++)). by f_equiv.
Qed.

Lemma pairBracket_Permutation ts roundNum sg acc sc :
  paired_teams (pairBracket ts roundNum sg acc sc).1.1
    ++ (pairBracket ts roundNum sg acc sc).1.2
  ≡ₚ paired_teams acc.1.1 ++ acc.1.2 ++ default [] (sg !! sc).
Proof.
  destruct acc as [[pairs floaters] g]. unfold pairBracket.
  rewrite pairGroup_Permutation. simpl. f_equiv.
  case_decide; [rewrite js_sort_Permutation|]; apply Permutation_app_comm.
Qed.

Lemma brackets_Permutation ts roundNum sg keys acc :
  paired_teams (foldl (pairBracket ts roundNum sg) acc keys).1.1
    ++ (foldl (pairBracket ts roundNum sg) acc keys).1.2
  ≡ₚ paired_teams acc.1.1 ++ acc.1.2 ++ (keys ≫= λ k, default [] (sg !! k)).
Proof.
  revert acc. induction keys as [|k keys IH]; intros acc; simpl.
  - by rewrite app_nil_r.
  - rewrite IH, (assoc (++)), pairBracket_Permutation. by rewrite <-!(assoc (++)).
Qed.

Lemma groups_of_keys (sg : gmap Z (list ref)) :
  (sortedScores sg ≫= λ k, default [] (sg !! k)) ≡ₚ (map_to_list sg ≫= snd).
Proof.
  unfold sortedScores. rewrite js_sort_Permutation.
  assert (Hin : ∀ kv, kv ∈ map_to_list sg → sg !! kv.1 = Some kv.2).
  { intros [k v]. apply elem_of_map_to_list. }
  induction (map_to_list sg) as [|[k v] l IH]; [done|]. csimpl.
  pose proof (Hin (k, v) ltac:(left)) as Hk. simpl in Hk. rewrite Hk. simpl. f_equiv.
  apply IH. intros kv ?. apply Hin. by right.
Qed.

Lemma group_by_score_step (m : gmap Z (list ref)) k t :
  (map_to_list (<[k := default [] (m !! k) ++ [t]]> m) ≫= snd)
  ≡ₚ (map_to_list m ≫= snd) ++ [t].
Proof.
  destruct (m !! k) as [v|] eqn:Hk; simpl.
  - rewrite <-(insert_delete_eq m k).
    rewrite map_to_list_insert by apply lookup_delete_eq.
    rewrite <-(map_to_list_delete m k v Hk). csimpl.
    rewrite <-!(assoc (++)). f_equiv. apply Permutation_app_comm.
  - rewrite map_to_list_insert by done. csimpl.
    apply Permutation_cons_append.
Qed.

Lemma group_by_score_Permutation ts teams :
  (map_to_list (group_by_score ts teams) ≫= snd) ≡ₚ teams.
Proof.
  unfold group_by_score.
  enough (H : ∀ m : gmap Z (list ref),
             (map_to_list
                (foldl (λ scoreGroups team,
                          <[score (ts !!! team) :=
                              default [] (scoreGroups !! score (ts !!! team)) ++ [team]]>
                            scoreGroups) m teams) ≫= snd)
             ≡ₚ (map_to_list m ≫= snd) ++ teams).
  { rewrite H. by rewrite map_to_list_empty. }
  induction teams as [|t teams IH]; intros m; simpl.
  - by rewrite app_nil_r.
  - rewrite IH, group_by_score_step. by rewrite <-(assoc (++)).
Qed.

Lemma drainFloaters_spec ts n :
  ∀ floaters pairs g, (length floaters ≤ n)%nat →
    paired_teams (drainFloaters ts floaters pairs g).1.1
      ++ (drainFloaters ts floaters pairs g).1.2
    ≡ₚ paired_teams pairs ++ floaters
    ∧ length (drainFloaters ts floaters pairs g).1.2 = (length floaters `mod` 2)%nat.
Proof.
  induction n as [|n IH]; intros floaters pairs g Hn.
  - destruct floaters; [done|simpl in Hn; lia].
  - destruct floaters as [|t1 [|t2 rest]]; [done..|].
    simpl in Hn. simpl drainFloaters.
    destruct (IH rest (pairs ++ [(determineSides ts t1 t2 false g).1])
                (determineSides ts t1 t2 false g).2) as [Hp Hl]; [lia|].
    split.
    + rewrite Hp, paired_teams_determineSides. by rewrite <-(assoc (++)).
    + rewrite Hl. change (length (t1 :: t2 :: rest)) with (2 + length rest)%nat.
      by rewrite Nat.Div0.add_mod, Nat.Div0.mod_same, Nat.add_0_l, Nat.Div0.mod_mod.
Qed.

Lemma paired_teams_length pairs : length (paired_teams pairs) = (2 * length pairs)%nat.
Proof.
  induction pairs as [|p pairs IH]; [done|].
  unfold paired_teams in *. csimpl. rewrite IH. lia.
Qed.

Lemma swissAssignment_Permutation ts roundNum g :
  paired_teams (swissAssignment ts roundNum g).1.1.1
    ++ (swissAssignment ts roundNum g).1.1.2
  ≡ₚ seq 0 (length ts)
  ∧ length (swissAssignment ts roundNum g).1.1.2 = (length ts `mod` 2)%nat.
Proof.
  unfold swissAssignment.
  pose proof (shuffleArray_Permutation (seq 0 (length ts)) g) as Hsh.
  destruct (shuffleArray (seq 0 (length ts)) g) as [teams g1]. simpl in Hsh.
  set (ts1 := updateBuchholz ts).
  set (sg := if decide (roundNum > 2) then group_by_score ts1 teams else {[0 := teams]}).
  pose proof (brackets_Permutation ts1 roundNum sg (sortedScores sg) ([], [], g1)) as Hb.
  destruct (foldl (pairBracket ts1 roundNum sg) ([], [], g1) (sortedScores sg))
    as [[pairs floaters] g2]. simpl in Hb.
  destruct (drainFloaters_spec ts1 (length floaters) floaters pairs g2) as [Hd Hl]; [done|].
  destruct (drainFloaters ts1 floaters pairs g2) as [[pairs' floaters'] g3].
  cbn [fst snd] in *.
  assert (Hall : paired_teams pairs ++ floaters ≡ₚ seq 0 (length ts)).
  { rewrite Hb, groups_of_keys. subst sg. case_decide.
    - by rewrite group_by_score_Permutation.
    - rewrite map_to_list_singleton. csimpl. by rewrite app_nil_r. }
  split; [by rewrite Hd|].
  rewrite Hl. apply Permutation_length in Hall.
  rewrite length_app, paired_teams_length, length_seq in Hall.
  rewrite <-Hall. rewrite Nat.add_comm, Nat.mul_comm. symmetry. apply Nat.Div0.mod_add.
Qed.



Lemma generateSwissPairings_assignment ts roundNum g :
  ∃ pairs bye g',
    generateSwissPairings ts roundNum g = (pairs, giveBye (updateBuchholz ts) bye, g')
    ∧ paired_teams pairs ++ bye ≡ₚ seq 0 (length ts)
    ∧ length bye = (length ts `mod` 2)%nat.
Proof.
  destruct (swissAssignment_Permutation ts roundNum g) as [Hp Hl].
  unfold generateSwissPairings.
  assert (Hts : (swissAssignment ts roundNum g).1.2 = updateBuchholz ts).
  { unfold swissAssignment.
    destruct (shuffleArray _ _) as [teams g1].
    destruct (foldl _ _ _) as [[pairs floaters] g2].
    by destruct (drainFloaters _ _ _ _) as [[pairs' floaters'] g3]. }
  destruct (swissAssignment ts roundNum g) as [[[pairs bye] ts1] g'].
  cbn [fst snd] in *. subst ts1. by exists pairs, bye, g'.
Qed.


(** ** The store of teams *)

Lemma team_ids_alter (f : Team → Team) r ts :
  (∀ t, id (f t) = id t) → team_ids (alter f r ts) = team_ids ts.
Proof.
  intros Hf. unfold team_ids. apply list_eq. intros j.
  rewrite !list_lookup_fmap.
  destruct (decide (r = j)) as [->|Hne].
  - rewrite list_lookup_alter_eq. destruct (ts !! j); simpl; [|done]. by rewrite Hf.
  - by rewrite list_lookup_alter_ne.
Qed.

Lemma team_ids_length ts : length (team_ids ts) = length ts.
Proof. unfold team_ids. by rewrite length_fmap. Qed.

Lemma find_team_Some ts i r :
  find_team ts i = Some r → ∃ t, ts !! r = Some t ∧ id t = i.
Proof.
  unfold find_team. intros H. apply fmap_Some in H as ([r' t] & Hf & ->).
  apply list_find_Some in Hf as (? & ? & _). eauto.
Qed.

Lemma find_team_lt ts i r : find_team ts i = Some r → (r < length ts)%nat.
Proof. intros (t & Ht & _)%find_team_Some. by eapply lookup_lt_Some. Qed.

Lemma find_team_is_Some ts i : i ∈ team_ids ts ↔ is_Some (find_team ts i).
Proof.
  unfold find_team, team_ids. rewrite fmap_is_Some. split.
  - intros (t & -> & Ht)%list_elem_of_fmap.
    by apply (list_find_elem_of (λ t', id t' = id t) ts t).
  - intros [[r t] Hf]. apply list_find_Some in Hf as (Hr & <- & _).
    apply list_elem_of_fmap. exists t. split; [done|].
    by eapply list_elem_of_lookup_2.
Qed.

Lemma find_team_ids ts ts' i :
  team_ids ts = team_ids ts' → find_team ts i = find_team ts' i.
Proof.
  unfold find_team, team_ids. revert ts'.
  induction ts as [|t ts IH]; intros [|t' ts'] Heq; try done.
  injection Heq as Hid Heq. simpl. rewrite Hid.
  case_decide; [done|]. specialize (IH ts' Heq).
  destruct (list_find _ ts) as [[??]|], (list_find _ ts') as [[??]|];
    simpl in *; congruence.
Qed.

Lemma team_ids_updateBuchholz ts : team_ids (updateBuchholz ts) = team_ids ts.
Proof.
  unfold team_ids, updateBuchholz. rewrite <-list_fmap_compose.
  by apply list_fmap_ext.
Qed.

Lemma team_ok_updateBuchholz ts : Forall team_ok ts → Forall team_ok (updateBuchholz ts).
Proof.
  intros H. unfold updateBuchholz. rewrite Forall_fmap.
  eapply Forall_impl; [done|]. by intros t [??].
Qed.

Lemma byes_snoc_bye l :
  length (filter (λ o, o = -1) (l ++ [-1])) = S (length (filter (λ o, o = -1) l)).
Proof. rewrite filter_app, length_app. simpl. lia. Qed.

Lemma byes_snoc_other l o :
  o ≠ -1 → length (filter (λ o, o = -1) (l ++ [o])) = length (filter (λ o, o = -1) l).
Proof.
  intros Ho. rewrite filter_app, length_app.
  rewrite (filter_cons_False _ o) by done. simpl. lia.
Qed.

Lemma team_ok_award_bye t : team_ok t → team_ok (award_bye t).
Proof.
  intros [Hid Hs]. split; [done|]. unfold sides_account, byes in *. simpl.
  rewrite byes_snoc_bye, length_app. simpl. lia.
Qed.

Lemma team_ids_giveBye ts bye : team_ids (giveBye ts bye) = team_ids ts.
Proof. destruct bye as [|b [|??]]; simpl; try done. by apply team_ids_alter. Qed.

Lemma team_ok_giveBye ts bye : Forall team_ok ts → Forall team_ok (giveBye ts bye).
Proof.
  intros H. destruct bye as [|b [|??]]; simpl; try done.
  apply Forall_alter; [done|]. intros; by apply team_ok_award_bye.
Qed.

Lemma assign_seeds_ids ts active k :
  team_ids (match assign_seeds ts active k with inl x | inr x => x end) = team_ids ts.
Proof.
  revert ts k. induction active as [|[r|] rest IH]; intros ts k; simpl; try done.
  rewrite IH. by apply team_ids_alter.
Qed.

Lemma assign_seeds_ok ts active k :
  Forall team_ok ts →
  Forall team_ok (match assign_seeds ts active k with inl x | inr x => x end).
Proof.
  revert ts k. induction active as [|[r|] rest IH]; intros ts k H; simpl; try done.
  apply IH. apply Forall_alter; [done|]. by intros t _ [??].
Qed.

Lemma team_ok_reset ts :
  Forall (λ t, 0 ≤ id t) ts → Forall team_ok (reset_stats <$> ts).
Proof.
  intros H. rewrite Forall_fmap. eapply Forall_impl; [done|].
  intros t Ht. split; [done|]. unfold sides_account, byes. simpl. done.
Qed.

Lemma team_ids_reset ts : team_ids (reset_stats <$> ts) = team_ids ts.
Proof.
  unfold team_ids. rewrite <-list_fmap_compose. by apply list_fmap_ext.
Qed.

Lemma team_ok_play_aff o w t : o ≠ -1 → team_ok t → team_ok (play_aff o w t).
Proof.
  intros Ho [Hid Hs]. split; [done|]. unfold sides_account, byes in *. simpl.
  rewrite byes_snoc_other, length_app by done. simpl. lia.
Qed.

Lemma team_ok_play_neg o w t : o ≠ -1 → team_ok t → team_ok (play_neg o w t).
Proof.
  intros Ho [Hid Hs]. split; [done|]. unfold sides_account, byes in *. simpl.
  rewrite byes_snoc_other, length_app by done. simpl. lia.
Qed.

Lemma replay_match_ids ts m :
  team_ids (match replay_match ts m with inl x | inr x => x end) = team_ids ts.
Proof.
  unfold replay_match.
  destruct (find_team ts (aff_id m)) as [a|], (find_team ts (neg_id m)) as [n|];
    try done; rewrite ?team_ids_alter; done.
Qed.

Lemma replay_matches_ids ts ms :
  team_ids (match replay_matches ts ms with inl x | inr x => x end) = team_ids ts.
Proof.
  revert ts. induction ms as [|m ms IH]; intros ts; simpl; [done|].
  pose proof (replay_match_ids ts m) as Hm.
  destruct (replay_match ts m) as [ts'|ts']; [done|]. by rewrite IH.
Qed.

Lemma replay_matches_ok ts ms :
  Forall team_ok ts →
  Forall (λ m, aff_id m ∈ team_ids ts ∧ neg_id m ∈ team_ids ts) ms →
  ∃ ts', replay_matches ts ms = inr ts' ∧ Forall team_ok ts'.
Proof.
  revert ts. induction ms as [|m ms IH]; intros ts Hok Hms; simpl; [eauto|].
  apply Forall_cons in Hms as [[Ha Hn] Hms].
  assert (Hpos : ∀ i, i ∈ team_ids ts → i ≠ -1).
  { intros i (t & -> & Ht)%list_elem_of_fmap.
    rewrite Forall_forall in Hok. destruct (Hok t Ht). lia. }
  pose proof (replay_match_ids ts m) as Hids.
  unfold replay_match in *.
  apply find_team_is_Some in Ha as Ha'. destruct Ha' as [a Hfa].
  apply find_team_is_Some in Hn as Hn'. destruct Hn' as [n Hfn].
  rewrite Hfa, Hfn in *. apply IH.
  - apply Forall_alter; [|intros; apply team_ok_play_neg; auto].
    apply Forall_alter; [done|intros; apply team_ok_play_aff; auto].
  - by rewrite Hids.
Qed.

(** ** The invariant of the manager *)

Lemma Inv_ext s s' : teams s' = teams s → matches s' = matches s → Inv s → Inv s'.
Proof. unfold Inv. by intros -> ->. Qed.

Lemma Inv_teams s ts' :
  team_ids ts' = team_ids (teams s) → Forall team_ok ts' → Inv s → Inv (set_teams ts' s).
Proof. unfold Inv. simpl. intros -> ? (_ & ? & ?). done. Qed.

Lemma Inv_alter_match s f i :
  (∀ m, aff_id (f m) = aff_id m ∧ neg_id (f m) = neg_id m) →
  Inv s → Inv (set_matches (alter f i (matches s)) s).
Proof.
  intros Hf (Ht & Hm & Hnd). split_and!; [done| |done]. simpl.
  apply Forall_alter; [done|]. intros m _. by destruct (Hf m) as [-> ->].
Qed.

Lemma checkConsistency_state s :
  teams (state_of (checkConsistency s)) = teams s
  ∧ matches (state_of (checkConsistency s)) = matches s
  ∧ current_round (state_of (checkConsistency s)) = current_round s
  ∧ config (state_of (checkConsistency s)) = config s.
Proof.
  unfold checkConsistency.
  destruct (pairing_file_content s), (result_file_content _); simpl;
    case_match; done.
Qed.

Lemma Inv_saveToStorage s : Inv s → Inv (state_of (saveToStorage s)).
Proof.
  destruct (checkConsistency_state s) as (Ht & Hm & _).
  by apply Inv_ext.
Qed.

Lemma recalculateStats_Inv s :
  Inv s → ∃ s', recalculateStats s = Ok tt s' ∧ Inv s' ∧ matches s' = matches s
               ∧ team_ids (teams s') = team_ids (teams s).
Proof.
  intros (Ht & Hm & Hnd). unfold recalculateStats.
  set (ms := js_sort _ (matches s)).
  destruct (replay_matches_ok (reset_stats <$> teams s) ms) as (ts' & Hr & Hok).
  - apply team_ok_reset. eapply Forall_impl; [done|]. by intros t [??].
  - subst ms. rewrite js_sort_Permutation, team_ids_reset. done.
  - pose proof (replay_matches_ids (reset_stats <$> teams s) ms) as Hids.
    rewrite Hr in *. rewrite team_ids_reset in Hids.
    eexists. split; [done|]. split_and!; simpl.
    + split_and!; simpl.
      * by apply team_ok_updateBuchholz.
      * by rewrite team_ids_updateBuchholz, Hids.
      * by rewrite team_ids_updateBuchholz, Hids.
    + done.
    + by rewrite team_ids_updateBuchholz.
Qed.

Lemma Inv_result_file s c : Inv s → Inv (set_result_file_content c s).
Proof. by apply Inv_ext. Qed.





Lemma opt_valid_find_team ts i : opt_valid (length ts) (find_team ts i).
Proof. intros r. apply find_team_lt. Qed.

Lemma opt_valid_lookup n (l : list (option ref)) i :
  Forall (opt_valid n) l → opt_valid n (mjoin (l !! i)).
Proof.
  intros Hl r Hr. destruct (l !! i) as [o|] eqn:Hi; [|done]. simpl in Hr.
  rewrite Forall_lookup in Hl. by apply (Hl i o).
Qed.

Lemma side_pairs_valid ts n pairs g ps g' :
  Forall (λ p, opt_valid n p.1 ∧ opt_valid n p.2) pairs →
  side_pairs ts pairs g = Some (ps, g') →
  Forall (λ r, (r < n)%nat) (paired_teams ps).
Proof.
  revert g ps g'. induction pairs as [|[[t1|] [t2|]] pairs IH]; intros g ps g' Hv; simpl;
    try done.
  - intros [= <- <-]. constructor.
  - apply Forall_cons in Hv as [[H1 H2] Hv]. simpl in *.
    destruct (side_pairs ts pairs _) as [[ps0 g0]|] eqn:Hs; [|done].
    intros [= <- <-]. unfold paired_teams. csimpl.
    specialize (IH _ _ _ Hv Hs).
    destruct (determineSides_teams ts t1 t2 false g) as [-> | ->]; simpl;
      repeat constructor; auto.
Qed.

Lemma sequential_pairs_valid n (l : list (option ref)) :
  Forall (opt_valid n) l →
  Forall (λ p, opt_valid n p.1 ∧ opt_valid n p.2) (sequential_pairs l).
Proof.
  intros Hl. unfold sequential_pairs. rewrite Forall_fmap.
  apply Forall_forall. intros i _. simpl. split; by apply opt_valid_lookup.
Qed.

Lemma winners_valid ts ms : Forall (opt_valid (length ts)) (winners ts ms).
Proof.
  unfold winners. rewrite Forall_fmap. apply Forall_forall. intros m _. simpl.
  case_bool_decide; apply opt_valid_find_team.
Qed.

Lemma elimBefore_Inv roundNum s :
  Inv s →
  Inv (state_of (generateElimPairingsBeforeAffNegOrder roundNum s))
  ∧ matches (state_of (generateElimPairingsBeforeAffNegOrder roundNum s)) = matches s
  ∧ ∀ pairs s', generateElimPairingsBeforeAffNegOrder roundNum s = Ok pairs s' →
      Forall (λ p, opt_valid (length (teams s')) p.1 ∧ opt_valid (length (teams s')) p.2)
        pairs.
Proof.
  intros HI. unfold generateElimPairingsBeforeAffNegOrder.
  case_decide; [done|]. case_decide.
  - set (seeded := if decide (_ = _) then _ else _).
    assert (Hseeded :
      match seeded with
      | inl ts' => team_ids ts' = team_ids (teams s) ∧ Forall team_ok ts'
      | inr (active, ts') =>
          team_ids ts' = team_ids (teams s) ∧ Forall team_ok ts'
          ∧ Forall (opt_valid (length (teams s))) active
      end).
    { subst seeded. case_decide.
      - split_and!; [done|apply HI|].
        rewrite Forall_fmap. apply Forall_forall. intros r Hr r' [= <-].
        rewrite js_sort_Permutation in Hr. apply list_elem_of_filter in Hr as [_ Hr].
        apply elem_of_seq in Hr. lia.
      - set (active := fmap _ (take _ _)).
        pose proof (assign_seeds_ids (teams s) active 0) as Hids.
        pose proof (assign_seeds_ok (teams s) active 0 (proj1 HI)) as Hok.
        destruct (assign_seeds (teams s) active 0); [done|].
        split_and!; [done..|].
        subst active. rewrite Forall_fmap. apply Forall_forall. intros t _.
        apply opt_valid_find_team. }
    destruct seeded as [ts'|[active ts']].
    + destruct Hseeded as [Hids Hok]. split_and!; [|done..]. by apply Inv_teams.
    + destruct Hseeded as (Hids & Hok & Hact).
      assert (Hlen : length ts' = length (teams s)).
      { by rewrite <-!team_ids_length, Hids. }
      destruct (generateBracketPairings _ _) as [allPairings|]; simpl.
      * split_and!; [by apply Inv_teams|done|].
        intros pairs s' [= <- <-]. simpl. rewrite Hlen.
        rewrite Forall_fmap. apply Forall_forall. intros [hi lo] _. simpl.
        split; by apply opt_valid_lookup.
      * split_and!; [by apply Inv_teams|done..].
  - case_match; [done|]. split_and!; [done..|].
    intros pairs s' [= <- <-]. apply sequential_pairs_valid, winners_valid.
Qed.

Lemma generateElimPairings_Inv roundNum g s :
  Inv s →
  Inv (state_of (generateElimPairings roundNum g s))
  ∧ matches (state_of (generateElimPairings roundNum g s)) = matches s
  ∧ ∀ pairs g' s', generateElimPairings roundNum g s = Ok (pairs, g') s' →
      Forall (λ r, (r < length (teams s'))%nat) (paired_teams pairs).
Proof.
  intros HI. destruct (elimBefore_Inv roundNum s HI) as (HI' & Hm & Hv).
  unfold generateElimPairings.
  destruct (generateElimPairingsBeforeAffNegOrder roundNum s) as [pairs s1|e s1]; [|done].
  simpl in *. specialize (Hv pairs s1 eq_refl).
  destruct (side_pairs (teams s1) pairs g) as [[ps g1]|] eqn:Hs; [|done].
  split_and!; [done..|]. intros ? ? ? [= <- <- <-].
  by eapply side_pairs_valid.
Qed.

Lemma new_matches_ids ts roundNum first pairs :
  Forall (λ r, (r < length ts)%nat) (paired_teams pairs) →
  Forall (λ m, aff_id m ∈ team_ids ts ∧ neg_id m ∈ team_ids ts)
    (new_matches ts roundNum first pairs).
Proof.
  intros Hv. unfold new_matches. apply Forall_lookup. intros k m.
  rewrite list_lookup_imap. destruct (pairs !! k) as [[aff neg]|] eqn:Hk; [|done].
  intros [= <-]. simpl.
  assert (Hin : ∀ r, r ∈ [aff; neg] → id (ts !!! r) ∈ team_ids ts).
  { intros r Hr. rewrite Forall_forall in Hv.
    assert (r < length ts)%nat as Hlt.
    { apply Hv. unfold paired_teams. apply list_elem_of_bind. exists (aff, neg).
      split; [done|]. by eapply list_elem_of_lookup_2. }
    unfold team_ids. apply list_elem_of_fmap. exists (ts !!! r). split; [done|].
    eapply list_elem_of_lookup_2. by apply list_lookup_lookup_total_lt. }
  split; apply Hin; set_solver.
Qed.


Lemma init_Inv n p e ds : Inv (state_of (init n p e ds)).
Proof.
  unfold init.
  match goal with
  | |- context [saveToStorage ?x] =>
      assert (HI : Inv x); [|pose proof (Inv_saveToStorage x HI);
                              by destruct (saveToStorage x)]
  end.
  split_and!; simpl; [|done|].
  - rewrite Forall_fmap. apply Forall_forall. intros i _. split; simpl; [lia|done].
  - unfold team_ids. rewrite <-list_fmap_compose.
    apply (NoDup_fmap_2 (λ i : nat, Z.of_nat i)), NoDup_seq.
Qed.






Lemma NoDup_ids_eq ts r r' t t' :
  NoDup (team_ids ts) → ts !! r = Some t → ts !! r' = Some t' → id t = id t' → r = r'.
Proof.
  intros Hnd Hr Hr' Hid.
  eapply NoDup_lookup; [done| |]; unfold team_ids; rewrite list_lookup_fmap.
  - by rewrite Hr.
  - rewrite Hr'. simpl. by rewrite Hid.
Qed.











Lemma first_incomplete_is_Some ms roundNum m :
  m ∈ ms → 1 ≤ round_num m < roundNum → result m = None →
  is_Some (first_incomplete ms roundNum).
Proof.
  intros Hin Hr Hres. unfold first_incomplete. apply fmap_is_Some.
  apply (list_find_elem_of _ _ (round_num m)).
  - apply list_elem_of_fmap. exists (Z.to_nat (round_num m)). split; [lia|].
    apply elem_of_seq. lia.
  - apply existsb_exists. exists m. split.
    + apply list_elem_of_In. unfold round_matches. by apply list_elem_of_filter.
    + unfold unreported. by apply bool_decide_eq_true.
Qed.

(** C5 (as amended): [pairRound(R)] fails with a validation error, and
    leaves the manager as it was, whenever round [R] already has matches or,
    for [R > 2], some round from 1 to [R - 1] has a match without a result.
    It does not check that [R] is the next round in sequence: with round 1
    complete and rounds 2 and 3 never paired, [pairRound(4)] on a 2-team,
    4-round tournament returns and creates the matches of round 4. *)
Theorem pairRound_rejects_incomplete_or_paired :
  (∀ s roundNum g,
     (roundNum > 2 ∧ ∃ m, m ∈ matches s ∧ 1 ≤ round_num m < roundNum ∧ result m = None)
     ∨ (∃ m, m ∈ matches s ∧ round_num m = roundNum) →
     ∃ e, pairRound roundNum g s = Throw e s
          ∧ (e = RoundAlreadyPaired roundNum ∨ ∃ r, e = RoundNotComplete r))
  ∧ (max_paired_round round1_reported = 1
     ∧ ∃ pairs g' s',
         pairRound 4 [] round1_reported = Ok (pairs, g') s'
         ∧ fmap round_num (matches s') = [1; 4]).
Proof.
  split.
  - intros s roundNum g H. unfold pairRound, pairRound_with.
    destruct (decide (roundNum > 2)) as [Hgt|Hle].
    + destruct (first_incomplete (matches s) roundNum) as [r|] eqn:Hf; [by eauto|].
      destruct H as [(_ & m & Hin & Hr & Hres)|(m & Hin & Hr)].
      * pose proof (first_incomplete_is_Some _ _ _ Hin Hr Hres) as [? Hs]. congruence.
      * destruct (round_matches (matches s) roundNum) eqn:Hrm; [|by eauto].
        assert (m ∈ round_matches (matches s) roundNum) as Hc
          by (by apply list_elem_of_filter).
        rewrite Hrm in Hc. by inversion Hc.
    + destruct H as [(? & _)|(m & Hin & Hr)]; [done|].
      destruct (round_matches (matches s) roundNum) eqn:Hrm; [|by eauto].
      assert (m ∈ round_matches (matches s) roundNum) as Hc
        by (by apply list_elem_of_filter).
      rewrite Hrm in Hc. by inversion Hc.
  - split; [reflexivity|]. eexists _, _, _. split; [vm_compute; reflexivity|reflexivity].
Qed.

Lemma pairRound_rejects_witness :
  ∃ e, pairRound 3 [] odd_roster = Throw e odd_roster
       ∧ (e = RoundAlreadyPaired 3 ∨ ∃ r, e = RoundNotComplete r).
Proof.
  apply (proj1 pairRound_rejects_incomplete_or_paired odd_roster 3 []).
  left. split; [lia|].
  exists (mkMatch 1 1 1 2 "Team 2" "Team 3" None None None).
  split; [vm_compute; left|]. split; [simpl; lia|reflexivity].
Defined.

(** A reachable manager on which [pairRound(R)] returns although [R] is not
    the round after the last paired one. *)
Lemma pairRound_out_of_sequence_counterexample :
  ¬ (∀ s roundNum g,
       reachable s →
       roundNum ≠ max_paired_round s + 1 ∨ roundNum > num_rounds (config s) →
       ∃ e, pairRound roundNum g s = Throw e s).
Proof.
  intros H.
  destruct (H round1_reported 4 []) as [e He].
  - apply reach_reportResult, reach_pairRound, reach_init.
  - left. vm_compute. discriminate.
  - vm_compute in He. discriminate.
Qed.

(** ** Results that are cleared, results that are refused *)

Lemma current_round_loop_stale ms n cur :
  round_complete ms 1 = false → current_round_loop ms n 1 cur = cur.
Proof. intros H. destruct n; simpl; [done|]. by rewrite H. Qed.

(** C1 does not hold of the code. On a 2-team, 1-round
    tournament, [pairRound(1)], [reportResult(1, 'A')] and then
    [updateResult(1, null)] all return; after the last one the only match of
    round 1 is unreported again, so that no round at all is complete, and
    yet [current_round] is still 1: the loop at the end of
    [recalculateStats] assigns [current_round] for a complete round only and
    breaks at round 1 here, without resetting it. *)
Theorem current_round_is_stale_after_clear :
  ∃ p s1 s2 s3,
    pairRound 1 [] (state_of (init 2 1 0 [])) = Ok p s1
    ∧ reportResult 1 "A" None s1 = Ok true s2
    ∧ current_round s2 = 1
    ∧ updateResult 1 None None s2 = Ok true s3
    ∧ fmap round_num (matches s3) = [1]
    ∧ fmap result (matches s3) = [None]
    ∧ current_round s3 = 1.
Proof.
  eexists _, _, _, _.
  split; [vm_compute; reflexivity|].
  split; [vm_compute; reflexivity|].
  split; [reflexivity|].
  split; [vm_compute; reflexivity|].
  split_and!; reflexivity.
Qed.

Lemma reportResult_early_errors mid o sp s :
  (find_match (matches s) mid = None →
     reportResult mid o sp s = Throw (MatchNotFound mid) s)
  ∧ (∀ i m, find_match (matches s) mid = Some (i, m) → result m ≠ None →
       reportResult mid o sp s = Throw (AlreadyHasResult mid) s)
  ∧ (∀ i m, find_match (matches s) mid = Some (i, m) → result m = None →
       o ≠ "A" → o ≠ "N" →
       reportResult mid o sp s = Throw (InvalidOutcome o) s).
Proof.
  unfold reportResult. split_and!.
  - by intros ->.
  - intros i m -> Hr. by rewrite bool_decide_eq_true_2.
  - intros i m -> Hr HA HN. rewrite bool_decide_eq_false_2 by (by rewrite Hr; intros []).
    unfold valid_outcome. by rewrite !bool_decide_eq_false_2.
Qed.

(** C3 does not hold of the code for the speaker-point error. On a fresh
    2-team tournament with round 1 paired,
    [reportResult(1, 'A', {affPoints: [31, 25], negPoints: [25, 25]})]
    throws the range error of [storeSpeakerPoints], but only after
    [match.result = outcome] has run: the match that was unreported before
    the call has result ['A'] after it, while the result log and the teams
    are as before. *)
Theorem reportResult_bad_points_mutates_result :
  ∃ s',
    reportResult 1 "A" (Some (mkSpeakerPoints [Some 31; Some 25] [Some 25; Some 25]))
      two_teams_paired
    = Throw (SpeakerPointsOutOfRange 31) s'
    ∧ fmap result (matches two_teams_paired) = [None]
    ∧ fmap result (matches s') = [Some "A"]
    ∧ result_file_content s' = result_file_content two_teams_paired
    ∧ teams s' = teams two_teams_paired.
Proof.
  eexists. split; [vm_compute; reflexivity|]. split_and!; reflexivity.
Qed.

(** ** Elimination rounds after the first *)

Lemma sequential_pairs_lookup {A} (l : list (option A)) i :
  (2 * i + 1 < length l)%nat →
  sequential_pairs l !! i = Some (mjoin (l !! (2 * i)%nat), mjoin (l !! (2 * i + 1)%nat)).
Proof.
  intros Hi. unfold sequential_pairs. rewrite list_lookup_fmap.
  rewrite lookup_seq_lt.
  - simpl. by rewrite (Nat.mul_comm i 2).
  - apply Nat.div_le_lower_bound; lia.
Qed.

Lemma sequential_pairs_length {A} (l : list (option A)) :
  length (sequential_pairs l) = ((length l + 1) `div` 2)%nat.
Proof. unfold sequential_pairs. by rewrite length_fmap, length_seq. Qed.

(** In the newer manager, past the first elimination round,
    [generateElimPairingsBeforeAffNegOrder] refuses to pair while the
    previous round has an unreported match, and otherwise pairs winner [2i] with winner [2i + 1], the winners standing in
    the order of the match records of the previous round. *)
Lemma later_elim_rounds_pair_winners_in_order s roundNum :
  ¬ Z.of_nat (length (teams s)) < 2 ^ num_elim_rounds (config s) →
  roundNum - num_prelim_rounds (config s) ≠ 1 →
  (existsb unreported (round_matches (matches s) (roundNum - 1)) = true →
     generateElimPairingsBeforeAffNegOrder roundNum s
     = Throw (RoundNotComplete (roundNum - 1)) s)
  ∧ (existsb unreported (round_matches (matches s) (roundNum - 1)) = false →
       ∃ pairs,
         generateElimPairingsBeforeAffNegOrder roundNum s = Ok pairs s
         ∧ ∀ i, (2 * i + 1 < length (round_matches (matches s) (roundNum - 1)))%nat →
             pairs !! i
             = Some (mjoin (winners (teams s) (round_matches (matches s) (roundNum - 1))
                              !! (2 * i)%nat),
                     mjoin (winners (teams s) (round_matches (matches s) (roundNum - 1))
                              !! (2 * i + 1)%nat))).
Proof.
  intros Hn Hk. unfold generateElimPairingsBeforeAffNegOrder.
  rewrite decide_False by done. rewrite decide_False by done.
  split; intros ->; [done|].
  eexists. split; [done|]. intros i Hi.
  apply sequential_pairs_lookup. unfold winners. by rewrite length_fmap.
Qed.

(** C7 does not hold of the older manager of [docs/manager/tournament.js].
    With the quarterfinals of an 8-team bracket won by seeds
    1, 4, 3 and 2, in the order of the match records, its [pairRound] for
    the semifinals sorts the winners by break seed first and pairs seed 2
    with seed 1 and seed 4 with seed 3; the newer manager, on the same state,
    pairs seed 4 with seed 1 and seed 2 with seed 3, winner [i] with winner
    [i + 1]. *)
Theorem legacy_semifinals_are_resorted_by_seed :
  fmap (seeds_of (teams quarterfinals_done)) (matches quarterfinals_done)
  = [(Some 1, Some 8); (Some 5, Some 4); (Some 3, Some 6); (Some 7, Some 2)]
  ∧ fmap result (matches quarterfinals_done) = [Some "A"; Some "N"; Some "A"; Some "N"]
  ∧ (∃ pairs g' s',
       Legacy.pairRound 2 [] quarterfinals_done = Ok (pairs, g') s'
       ∧ fmap (seeds_of (teams s')) (round_matches (matches s') 2)
         = [(Some 2, Some 1); (Some 4, Some 3)])
  ∧ (∃ pairs g' s',
       pairRound 2 [] quarterfinals_done = Ok (pairs, g') s'
       ∧ fmap (seeds_of (teams s')) (round_matches (matches s') 2)
         = [(Some 4, Some 1); (Some 2, Some 3)]).
Proof.
  split_and!; [vm_compute; reflexivity..| |].
  - eexists _, _, _. split; vm_compute; reflexivity.
  - eexists _, _, _. split; vm_compute; reflexivity.
Qed.

(** ** The head-to-head loop *)

Section head_to_head.
Context {W : Type}.
Variable runTournament : W → list Simulator.Team * W.
Variable aWins : nat → Simulator.Team → Simulator.Team → W → bool * W.

Lemma one_batch_totalSims historyA historyB acc :
  Simulator.totalSims (Simulator.one_batch runTournament aWins historyA historyB acc).1
  = Simulator.totalSims acc.1 + 100.
Proof. reflexivity. Qed.

Lemma while_loop_batches historyA historyB maxSims minMatchups acc :
  ∃ n : nat,
    Simulator.while_loop runTournament aWins historyA historyB maxSims minMatchups acc
    = Nat.iter n (Simulator.one_batch runTournament aWins historyA historyB) acc
    ∧ ∀ k, (k < n)%nat →
        Simulator.totalSims
          (Nat.iter k (Simulator.one_batch runTournament aWins historyA historyB) acc).1
        < maxSims
        ∧ Simulator.matchupCount
            (Nat.iter k (Simulator.one_batch runTournament aWins historyA historyB) acc).1
          < minMatchups.
Proof.
  funelim (Simulator.while_loop runTournament aWins historyA historyB maxSims
             minMatchups acc).
  - destruct H as (n & Hn & Hk). exists (S n). split.
    + by rewrite Nat.iter_succ_r.
    + intros [|k] Hlt; [done|]. rewrite Nat.iter_succ_r. apply Hk. lia.
  - exists 0%nat. split; [done|]. intros k Hk. lia.
Qed.

Lemma iter_batches_totalSims historyA historyB n acc :
  Simulator.totalSims
    (Nat.iter n (Simulator.one_batch runTournament aWins historyA historyB) acc).1
  = Simulator.totalSims acc.1 + 100 * Z.of_nat n.
Proof.
  induction n as [|n IH]; [simpl; lia|].
  rewrite Nat.iter_succ, one_batch_totalSims, IH. lia.
Qed.

Lemma while_loop_exit historyA historyB maxSims minMatchups acc :
  let r := Simulator.while_loop runTournament aWins historyA historyB maxSims
             minMatchups acc in
  minMatchups ≤ Simulator.matchupCount r.1 ∨ maxSims ≤ Simulator.totalSims r.1.
Proof.
  funelim (Simulator.while_loop runTournament aWins historyA historyB maxSims
             minMatchups acc); simpl in *; [done|lia].
Qed.

Lemma run_stops historyA historyB maxSims minMatchups w :
  ∃ n : nat,
    Simulator.run runTournament aWins historyA historyB maxSims minMatchups w
    = Nat.iter n (Simulator.one_batch runTournament aWins historyA historyB)
        (Simulator.mkTally 0 0 0 0 [] [], w)
    ∧ Simulator.totalSims
        (Simulator.run runTournament aWins historyA historyB maxSims minMatchups w).1
      = 100 * Z.of_nat n
    ∧ (minMatchups
       ≤ Simulator.matchupCount
           (Simulator.run runTournament aWins historyA historyB maxSims minMatchups w).1
       ∨ maxSims
         ≤ Simulator.totalSims
             (Simulator.run runTournament aWins historyA historyB maxSims minMatchups w).1).
Proof.
  unfold Simulator.run.
  destruct (while_loop_batches historyA historyB maxSims minMatchups
              (Simulator.mkTally 0 0 0 0 [] [], w)) as (n & Hn & _).
  exists n. split_and!; [done| |apply while_loop_exit].
  rewrite Hn, iter_batches_totalSims. simpl. lia.
Qed.

End head_to_head.

(** C9: the head-to-head simulation always returns (the loop is a total
    function: every pass adds 100 to [totalSims], which the cap bounds); what
    it returns is the tally after a whole number [n] of batches of 100
    tournaments, [totalSims] being [100 * n]; and at return either the
    observed matchup count has reached [minMatchups] or the number of
    simulated tournaments has reached the cap, in which case the tally is
    the partial one, with the count observed so far. This holds whatever
    scores a matchup and whatever the cap, hence for the simulator of
    [docs/simulator] (cap [maxSimulations || 50000]) and for that of [docs]
    (cap 50000). *)
Theorem head_to_head_runs_whole_batches_until_enough_or_cap
    {W : Type} (runTournament : W → list Simulator.Team * W)
    (drawWin : Simulator.Team → Simulator.Team → W → bool * W)
    (params : Simulator.Params) (w : W) :
  let cap := if decide (Simulator.maxSimulations params = 0) then 50000
             else Simulator.maxSimulations params in
  let r := Simulator.runHeadToHeadSimulation runTournament params w in
  let r' := Simulator.runHeadToHeadSimulation_docs runTournament drawWin params w in
  (∀ aWins maxSims,
     ∃ n : nat,
       Simulator.run runTournament aWins (Simulator.historyA params)
         (Simulator.historyB params) maxSims (Simulator.minMatchups params) w
       = Nat.iter n
           (Simulator.one_batch runTournament aWins (Simulator.historyA params)
              (Simulator.historyB params))
           (Simulator.mkTally 0 0 0 0 [] [], w))
  ∧ (∃ n : nat,
       Simulator.totalSims r.1 = 100 * Z.of_nat n
       ∧ (Simulator.minMatchups params ≤ Simulator.matchupCount r.1
          ∨ cap ≤ Simulator.totalSims r.1))
  ∧ (∃ n : nat,
       Simulator.totalSims r'.1 = 100 * Z.of_nat n
       ∧ (Simulator.minMatchups params ≤ Simulator.matchupCount r'.1
          ∨ 50000 ≤ Simulator.totalSims r'.1)).
Proof.
  intros cap r r'. split_and!.
  - intros aWins maxSims.
    destruct (run_stops runTournament aWins (Simulator.historyA params)
                (Simulator.historyB params) maxSims (Simulator.minMatchups params) w)
      as (n & Hn & _).
    by exists n.
  - subst r. unfold Simulator.runHeadToHeadSimulation.
    match goal with
    | |- context [Simulator.run ?rt ?aw ?hA ?hB ?mx ?mn ?w] =>
        destruct (run_stops rt aw hA hB mx mn w) as (n & _ & Ht & Hexit)
    end.
    exists n. done.
  - subst r'. unfold Simulator.runHeadToHeadSimulation_docs.
    match goal with
    | |- context [Simulator.run ?rt ?aw ?hA ?hB ?mx ?mn ?w] =>
        destruct (run_stops rt aw hA hB mx mn w) as (n & _ & Ht & Hexit)
    end.
    exists n. done.
Qed.

(** ** Participant standings *)

Section sorted.
Context {A : Type} (cmp : A → A → Z).
Hypothesis cmp_total : ∀ a b, cmp a b ≤ 0 ∨ cmp b a ≤ 0.

Lemma sort_insert_Sorted x l :
  Sorted (λ a b, cmp a b ≤ 0) l → Sorted (λ a b, cmp a b ≤ 0) (sort_insert cmp x l).
Proof.
  induction 1 as [|y l Hl IH Hhd]; simpl.
  - by repeat constructor.
  - case_decide as Hxy.
    + constructor; [by constructor|by constructor].
    + constructor; [done|].
      assert (cmp y x ≤ 0) by (destruct (cmp_total x y); [done|lia]).
      destruct Hhd as [|z l]; simpl; [by constructor|].
      case_decide; by constructor.
Qed.

Lemma js_sort_Sorted l : Sorted (λ a b, cmp a b ≤ 0) (js_sort cmp l).
Proof.
  induction l as [|x l IH]; simpl; [constructor|]. by apply sort_insert_Sorted.
Qed.

End sorted.















Lemma Sorted_weaken {A} (R R' : relation A) l :
  (∀ a b, R a b → R' a b) → Sorted R l → Sorted R' l.
Proof.
  intros HR. induction 1 as [|x l Hl IH Hhd]; constructor; [done|].
  destruct Hhd; constructor; auto.
Qed.

Section standings_order.
Variable localeCompare : string → string → Z.
Hypothesis localeCompare_total :
    ∀ a b, localeCompare a b ≤ 0 ∨ localeCompare b a ≤ 0.
Hypothesis localeCompare_trans :
    ∀ a b c, localeCompare a b ≤ 0 → localeCompare b c ≤ 0 → localeCompare a c ≤ 0.





End standings_order.


(** ** The first-round bracket *)

Lemma split_halves_fold seeds idxs top bot :
  foldl (λ '(topHalf, bottomHalf) i,
           let highSeed := seeds !!! i in
           let lowSeed := seeds !!! (length seeds - 1 - i)%nat in
           if decide (i `mod` 4 = 0 ∨ i `mod` 4 = 3)%nat
           then (topHalf ++ [highSeed; lowSeed], bottomHalf)
           else (topHalf, bottomHalf ++ [highSeed; lowSeed]))
        (top, bot) idxs
  = (top ++ (filter top_idx idxs ≫= pair_at seeds),
     bot ++ (filter (λ i, ¬ top_idx i) idxs ≫= pair_at seeds)).
Proof.
  revert top bot. induction idxs as [|i idxs IH]; intros top bot; simpl.
  - by rewrite !app_nil_r.
  - destruct (decide (top_idx i)) as [Ht|Hn].
    + rewrite (decide_True (P:=(i `mod` 4 = 0 ∨ i `mod` 4 = 3)%nat)) by done.
      rewrite IH, filter_cons_True, filter_cons_False by tauto. csimpl.
      by rewrite <-!(assoc (++)).
    + rewrite (decide_False (P:=(i `mod` 4 = 0 ∨ i `mod` 4 = 3)%nat)) by done.
      rewrite IH, filter_cons_False, filter_cons_True by done. csimpl.
      by rewrite <-!(assoc (++)).
Qed.

Lemma split_halves_char seeds :
  split_halves seeds
  = (filter top_idx (seq 0 ((length seeds + 1) `div` 2)%nat) ≫= pair_at seeds,
     filter (λ i, ¬ top_idx i) (seq 0 ((length seeds + 1) `div` 2)%nat) ≫= pair_at seeds).
Proof. unfold split_halves. by rewrite split_halves_fold. Qed.

Lemma mod4_of_even m :
  ((2 * m) `mod` 4 = 0 ∧ (2 * m + 1) `mod` 4 = 1)%nat
  ∨ ((2 * m) `mod` 4 = 2 ∧ (2 * m + 1) `mod` 4 = 3)%nat.
Proof.
  destruct (Nat.Even_or_Odd m) as [[q ->]|[q ->]]; [left|right].
  - replace (2 * (2 * q))%nat with (0 + q * 4)%nat by lia.
    replace (0 + q * 4 + 1)%nat with (1 + q * 4)%nat by lia.
    by rewrite !Nat.Div0.mod_add.
  - replace (2 * (2 * q + 1))%nat with (2 + q * 4)%nat by lia.
    replace (2 + q * 4 + 1)%nat with (3 + q * 4)%nat by lia.
    by rewrite !Nat.Div0.mod_add.
Qed.

Lemma top_idx_count m :
  length (filter top_idx (seq 0 (2 * m))) = m
  ∧ length (filter (λ i, ¬ top_idx i) (seq 0 (2 * m))) = m.
Proof.
  induction m as [|m [IH1 IH2]]; [done|].
  replace (2 * S m)%nat with (2 * m + 2)%nat by lia.
  rewrite seq_app, !filter_app, !length_app, IH1, IH2.
  change (seq (0 + 2 * m) 2) with [(2 * m)%nat; S (2 * m)].
  replace (S (2 * m)) with (2 * m + 1)%nat by lia.
  destruct (mod4_of_even m) as [[H0 H1]|[H0 H1]].
  - assert (top_idx (2 * m)) by (by left).
    assert (¬ top_idx (2 * m + 1)) by (unfold top_idx; lia).
    rewrite (filter_cons_True top_idx), (filter_cons_False top_idx) by done.
    rewrite (filter_cons_False (λ i, ¬ top_idx i)) by tauto.
    rewrite (filter_cons_True (λ i, ¬ top_idx i)) by done.
    simpl. lia.
  - assert (¬ top_idx (2 * m)) by (unfold top_idx; lia).
    assert (top_idx (2 * m + 1)) by (by right).
    rewrite (filter_cons_False top_idx), (filter_cons_True top_idx) by done.
    rewrite (filter_cons_True (λ i, ¬ top_idx i)) by done.
    rewrite (filter_cons_False (λ i, ¬ top_idx i)) by tauto.
    simpl. lia.
Qed.

Lemma pair_bind_length seeds idxs :
  length (idxs ≫= pair_at seeds) = (2 * length idxs)%nat.
Proof. induction idxs as [|i idxs IH]; csimpl; [done|]. rewrite IH. lia. Qed.

Lemma split_halves_lengths seeds m :
  length seeds = (4 * m)%nat →
  length (split_halves seeds).1 = (2 * m)%nat ∧ length (split_halves seeds).2 = (2 * m)%nat.
Proof.
  intros Hl. rewrite split_halves_char. cbn [fst snd]. rewrite !pair_bind_length.
  replace ((length seeds + 1) `div` 2)%nat with (2 * m)%nat.
  - destruct (top_idx_count m) as [-> ->]. lia.
  - rewrite Hl. apply Nat.div_unique with 1%nat; lia.
Qed.

Lemma js_sort_num_Sorted l : Sorted le (js_sort num_cmp l).
Proof.
  eapply Sorted_weaken; [|apply (js_sort_Sorted num_cmp)].
  - unfold num_cmp. intros a b. simpl. lia.
  - unfold num_cmp. intros a b. lia.
Qed.

Lemma Sorted_lookup_le (l : list nat) i j x y :
  Sorted le l → (i ≤ j)%nat → l !! i = Some x → l !! j = Some y → (x ≤ y)%nat.
Proof.
  intros Hs. apply (Sorted_StronglySorted _) in Hs.
  revert i j. induction Hs as [|z l Hs IH Hz]; intros i j Hij Hi Hj; [done|].
  destruct i as [|i], j as [|j]; simpl in *; try lia.
  - injection Hi as ->. injection Hj as ->. lia.
  - injection Hi as ->. rewrite Forall_forall in Hz. apply Hz.
    by eapply list_elem_of_lookup_2.
  - apply (IH i j); [lia|done..].
Qed.

Lemma Sorted_lookup_total_le (l : list nat) i j :
  Sorted le l → (i ≤ j)%nat → (j < length l)%nat → (l !!! i ≤ l !!! j)%nat.
Proof.
  intros Hs Hij Hj.
  apply (Sorted_lookup_le l i j); [done..| |]; apply list_lookup_lookup_total_lt; lia.
Qed.

Lemma sorted_head_min (t : list nat) m :
  Sorted le t → m ∈ t → Forall (λ x, m ≤ x)%nat t → t !!! 0%nat = m.
Proof.
  intros Hs Hin Hall. apply list_elem_of_lookup in Hin as [j Hj].
  assert (0 < length t)%nat as Hlen by (apply lookup_lt_Some in Hj; lia).
  pose proof (list_lookup_lookup_total_lt t 0 Hlen) as H0.
  pose proof (Sorted_lookup_le t 0 j _ _ Hs ltac:(lia) H0 Hj).
  rewrite Forall_forall in Hall.
  pose proof (Hall _ (list_elem_of_lookup_2 _ _ _ H0)). lia.
Qed.

Lemma mirrored_lookup T l i x :
  mirrored T l → l !! i = Some x →
  ∃ y, l !! (length l - 1 - i)%nat = Some y ∧ (x + y = T)%nat.
Proof.
  intros [Hrev Hle] Hi.
  assert (i < length l)%nat as Hlt by (by eapply lookup_lt_Some).
  assert (reverse l !! (length l - 1 - i)%nat = Some x) as Hr.
  { rewrite reverse_lookup by lia. rewrite <-Hi. f_equal. lia. }
  rewrite Hrev, list_lookup_fmap in Hr.
  destruct (l !! (length l - 1 - i)%nat) as [y|] eqn:Hy; [|done].
  injection Hr as <-. exists y. split; [done|].
  rewrite Forall_forall in Hle.
  pose proof (Hle y (list_elem_of_lookup_2 _ _ _ Hy)). lia.
Qed.

Lemma mirrored_total T l i :
  mirrored T l → (i < length l)%nat →
  (l !!! i + l !!! (length l - 1 - i)%nat = T)%nat.
Proof.
  intros Hm Hi.
  destruct (mirrored_lookup T l i (l !!! i) Hm) as (y & Hy & Hsum).
  { by apply list_lookup_lookup_total_lt. }
  by rewrite (list_lookup_total_correct _ _ _ Hy).
Qed.

Lemma mirrored_of_sorted T (t : list nat) :
  Sorted le t → (λ x, T - x)%nat <$> t ≡ₚ t → Forall (λ x, x ≤ T)%nat t → mirrored T t.
Proof.
  intros Hs Hperm Hle. split; [|done].
  assert (Transitive (flip le)) by (intros a b c; unfold flip; lia).
  assert (AntiSymm (=) (flip le)) by (intros a b; unfold flip; lia).
  apply (Sorted_unique (flip le)).
  - by apply Sorted_reverse.
  - eapply Sorted_fmap; [|done]. intros x y. unfold flip. lia.
  - by rewrite reverse_Permutation, Hperm.
Qed.

Lemma pair_at_valid seeds idxs :
  Forall (λ i, i < length seeds)%nat idxs →
  Forall (λ x, x ∈ seeds) (idxs ≫= pair_at seeds).
Proof.
  intros Hv. apply Forall_forall. intros x Hx.
  apply list_elem_of_bind in Hx as (i & Hx & Hi).
  rewrite Forall_forall in Hv. specialize (Hv i Hi).
  unfold pair_at in Hx.
  apply elem_of_cons in Hx as [->|Hx]; [|apply list_elem_of_singleton in Hx as ->];
    apply list_elem_of_lookup_total_2; lia.
Qed.

Lemma pair_at_mirrored T seeds idxs :
  mirrored T seeds →
  Forall (λ i, i < length seeds)%nat idxs →
  (λ x, T - x)%nat <$> (idxs ≫= pair_at seeds) ≡ₚ idxs ≫= pair_at seeds.
Proof.
  intros Hm Hv. induction Hv as [|i idxs Hi Hv IH]; [done|].
  csimpl. rewrite IH. pose proof (mirrored_total T seeds i Hm Hi) as Hsum.
  replace (T - seeds !!! i)%nat with (seeds !!! (length seeds - 1 - i)%nat) by lia.
  replace (T - seeds !!! (length seeds - 1 - i)%nat)%nat with (seeds !!! i) by lia.
  apply Permutation_swap.
Qed.

Lemma halves_spec T seeds m :
  (1 ≤ m)%nat → length seeds = (4 * m)%nat → Sorted le seeds → mirrored T seeds →
  let top := js_sort num_cmp (split_halves seeds).1 in
  let bot := js_sort num_cmp (split_halves seeds).2 in
  length top = (2 * m)%nat ∧ length bot = (2 * m)%nat
  ∧ Sorted le top ∧ Sorted le bot ∧ mirrored T top ∧ mirrored T bot
  ∧ top !!! 0%nat = seeds !!! 0%nat ∧ bot !!! 0%nat = seeds !!! 1%nat.
Proof.
  intros Hm Hl Hs Hmir top bot.
  destruct (split_halves_lengths seeds m Hl) as [Hlt Hlb].
  assert (Hh : ((length seeds + 1) `div` 2 = 2 * m)%nat).
  { rewrite Hl. symmetry. apply Nat.div_unique with 1%nat; lia. }
  assert (Hvalid : ∀ P `{!∀ i, Decision (P i)},
            Forall (λ i, i < length seeds)%nat
              (filter P (seq 0 ((length seeds + 1) `div` 2)%nat))).
  { intros P ?. apply Forall_forall. intros i Hi.
    apply list_elem_of_filter in Hi as [_ Hi]. apply elem_of_seq in Hi. lia. }
  assert (Hmirrored : ∀ half,
            half = (split_halves seeds).1 ∨ half = (split_halves seeds).2 →
            mirrored T (js_sort num_cmp half)).
  { intros half Hhalf. apply mirrored_of_sorted.
    - apply js_sort_num_Sorted.
    - rewrite js_sort_Permutation.
      destruct Hhalf as [-> | ->]; rewrite split_halves_char; cbn [fst snd];
        by apply pair_at_mirrored.
    - rewrite js_sort_Permutation.
      assert (Forall (λ x, x ∈ seeds) half) as Hin.
      { destruct Hhalf as [-> | ->]; rewrite split_halves_char; cbn [fst snd];
          by apply pair_at_valid. }
      eapply Forall_impl; [done|]. intros x Hx. simpl in Hx.
      destruct Hmir as [_ Hle]. rewrite Forall_forall in Hle. by apply Hle. }
  subst top bot. rewrite !js_sort_length.
  split_and!; [done|done|apply js_sort_num_Sorted|apply js_sort_num_Sorted
               |apply Hmirrored; by left|apply Hmirrored; by right| |].
  - apply sorted_head_min; [apply js_sort_num_Sorted| |].
    + rewrite js_sort_Permutation, split_halves_char. cbn [fst snd].
      apply list_elem_of_bind. exists 0%nat. split; [by left|].
      apply list_elem_of_filter. split; [by left|]. apply elem_of_seq. lia.
    + rewrite js_sort_Permutation, split_halves_char. cbn [fst snd].
      eapply Forall_impl; [apply pair_at_valid, Hvalid|]. intros x Hx. simpl in Hx.
      apply list_elem_of_lookup in Hx as [j Hj].
      eapply (Sorted_lookup_le seeds 0 j); [done|lia| |done].
      apply list_lookup_lookup_total_lt. lia.
  - apply sorted_head_min; [apply js_sort_num_Sorted| |].
    + rewrite js_sort_Permutation, split_halves_char. cbn [fst snd].
      apply list_elem_of_bind. exists 1%nat. split; [by left|].
      apply list_elem_of_filter. split; [unfold top_idx; simpl; lia|].
      apply elem_of_seq. lia.
    + rewrite js_sort_Permutation, split_halves_char. cbn [fst snd].
      apply Forall_forall. intros x Hx.
      apply list_elem_of_bind in Hx as (i & Hx & Hi).
      apply list_elem_of_filter in Hi as [Hnot Hi]. apply elem_of_seq in Hi.
      assert (i ≠ 0)%nat as Hi0 by (intros ->; apply Hnot; by left).
      unfold pair_at in Hx.
      apply elem_of_cons in Hx as [->|Hx]; [|apply list_elem_of_singleton in Hx as ->];
        apply Sorted_lookup_total_le; try done; lia.
Qed.

Lemma bracket_spec k :
  ∀ fuel seeds T,
    (k < fuel)%nat → length seeds = (2 ^ S k)%nat → Sorted le seeds → mirrored T seeds →
    ∃ ps,
      generateBracketPairings fuel seeds = Some ps
      ∧ length ps = (2 ^ k)%nat
      ∧ Forall (λ p, p.1 + p.2 = T)%nat ps
      ∧ fst <$> head ps = Some (seeds !!! 0%nat)
      ∧ ∃ q, last ps = Some q ∧ (q.1 = seeds !!! 1%nat ∨ q.2 = seeds !!! 1%nat).
Proof.
  induction k as [|k IH]; intros fuel seeds T Hf Hl Hs Hmir.
  - destruct fuel as [|fuel]; [lia|]. simpl in *.
    rewrite decide_True by done.
    eexists. split; [done|]. split_and!; [done| |done|].
    + repeat constructor. simpl.
      pose proof (mirrored_total T seeds 0 Hmir ltac:(lia)) as Hsum.
      by rewrite Hl in Hsum.
    + eexists. split; [done|]. by right.
  - destruct fuel as [|fuel]; [lia|].
    assert (Hlen : length seeds = (4 * 2 ^ k)%nat).
    { rewrite Hl. rewrite !Nat.pow_succ_r'. lia. }
    assert (1 ≤ 2 ^ k)%nat as Hpos.
    { pose proof (Nat.pow_nonzero 2 k). lia. }
    destruct (halves_spec T seeds (2 ^ k) Hpos Hlen Hs Hmir)
      as (Hlt & Hlb & Hst & Hsb & Hmt & Hmb & Ht0 & Hb0).
    cbn [generateBracketPairings]. rewrite decide_False by lia.
    destruct (IH fuel (js_sort num_cmp (split_halves seeds).1) T)
      as (tp & -> & Hltp & Hsum_t & Hhead_t & _);
      [lia|by rewrite Hlt, Nat.pow_succ_r'|done..|].
    destruct (IH fuel (js_sort num_cmp (split_halves seeds).2) T)
      as (bp & -> & Hlbp & Hsum_b & Hhead_b & _);
      [lia|by rewrite Hlb, Nat.pow_succ_r'|done..|].
    eexists. split; [done|]. split_and!.
    + rewrite length_app, length_reverse, Hltp, Hlbp, Nat.pow_succ_r'. lia.
    + apply Forall_app. split; [done|]. by apply Forall_reverse.
    + rewrite head_app. destruct (head tp); [|done]. by rewrite <-Ht0.
    + rewrite last_app, last_reverse.
      destruct (head bp) as [q|]; [|done].
      exists q. split; [done|]. left. simpl in Hhead_b. rewrite <-Hb0. congruence.
Qed.

Lemma Sorted_seq j n : Sorted le (seq j n).
Proof.
  revert j. induction n as [|n IH]; intros j; simpl; [constructor|].
  constructor; [apply IH|]. destruct n; simpl; constructor. lia.
Qed.

Lemma mirrored_seq B : mirrored (B - 1) (seq 0 B).
Proof.
  split.
  - apply list_eq. intros i. rewrite list_lookup_fmap.
    destruct (decide (i < B)%nat) as [Hi|Hi].
    + rewrite reverse_lookup by (by rewrite length_seq).
      rewrite length_seq, !lookup_seq_lt by lia. simpl. f_equal. lia.
    + rewrite !lookup_ge_None_2; [done|rewrite length_seq; lia|].
      rewrite length_reverse, length_seq. lia.
  - apply Forall_forall. intros x Hx. apply elem_of_seq in Hx. lia.
Qed.

Lemma swap_pass_related ps :
  Forall2 (λ p q, q = p ∨ q = (p.2, p.1)) ps (swap_pass ps).1.
Proof.
  unfold swap_pass. cbn [fst]. apply Forall2_same_length_lookup. split.
  - by rewrite length_imap.
  - intros i p q Hp Hq. rewrite list_lookup_imap, Hp in Hq. simpl in Hq.
    case_decide; injection Hq as <-; auto.
Qed.

Lemma swap_pass_head ps : head (swap_pass ps).1 = head ps.
Proof. by destruct ps. Qed.

Lemma related_last (ps es : list (nat * nat)) q :
  Forall2 (λ p q, q = p ∨ q = (p.2, p.1)) ps es → last ps = Some q →
  ∃ q', last es = Some q' ∧ (q' = q ∨ q' = (q.2, q.1)).
Proof.
  intros H. rewrite !last_lookup. rewrite <-(Forall2_length _ _ _ H).
  intros Hq. destruct (Forall2_lookup_l _ _ _ _ _ H Hq) as (q' & Hq' & Hrel). eauto.
Qed.

Lemma related_matchup (ps es : list (nat * nat)) :
  Forall2 (λ p q, q = p ∨ q = (p.2, p.1)) ps es → matchup <$> es = matchup <$> ps.
Proof.
  induction 1 as [|p q ps es Hpq _ IH]; [done|]. csimpl. rewrite IH. f_equal.
  destruct Hpq as [-> | ->]; [done|]. unfold matchup. simpl. f_equal; lia.
Qed.

Lemma related_sums (T : nat) (ps es : list (nat * nat)) :
  Forall2 (λ p q, q = p ∨ q = (p.2, p.1)) ps es →
  Forall (λ p, p.1 + p.2 = T)%nat ps → Forall (λ p, p.1 + p.2 = T)%nat es.
Proof.
  induction 1 as [|p q ps es Hpq _ IH]; [done|].
  intros [Hp Hps]%Forall_cons. constructor; [|by apply IH].
  destruct Hpq as [-> | ->]; simpl; lia.
Qed.

(** C6: for every break size [B = 2 ^ k], [k ≥ 1], the recursive halving
    returns a bracket of [B / 2] pairs in which seed 1 stands in the first
    pair, seed 2 in the last pair, and the two seeds of every pair add up to
    [B + 1]; the pairs pushed by [generateElimPairingsBeforeAffNegOrder] are
    the same matchups in the same order and have the same three properties
    (the loop that fills [allPairingsSwapped] has reversed the pairs at odd
    positions in place, which changes the order of the two seeds in those
    pairs and nothing else). For [B = 8] the recursive halving returns
    (1,8), (4,5), (3,6), (2,7), in this order, and the pairs pushed are these
    four matchups, written (1,8), (5,4), (3,6), (7,2). *)
Theorem bracket_of_power_of_two (k : nat) :
  (1 ≤ k)%nat →
  (∃ ps es,
     bracket_seeds (2 ^ k) = Some ps
     ∧ emitted_seeds (2 ^ k) = Some es
     ∧ length ps = (2 ^ (k - 1))%nat
     ∧ matchup <$> es = matchup <$> ps
     ∧ (∃ p, head ps = Some p ∧ p.1 = 1%nat)
     ∧ (∃ q, last ps = Some q ∧ (q.1 = 2 ∨ q.2 = 2)%nat)
     ∧ Forall (λ p, p.1 + p.2 = 2 ^ k + 1)%nat ps
     ∧ (∃ p, head es = Some p ∧ p.1 = 1%nat)
     ∧ (∃ q, last es = Some q ∧ (q.1 = 2 ∨ q.2 = 2)%nat)
     ∧ Forall (λ p, p.1 + p.2 = 2 ^ k + 1)%nat es)
  ∧ bracket_seeds 8 = Some [(1, 8); (4, 5); (3, 6); (2, 7)]%nat
  ∧ emitted_seeds 8 = Some [(1, 8); (5, 4); (3, 6); (7, 2)]%nat
  ∧ fmap (M:=list) matchup <$> emitted_seeds 8
    = Some [(1, 8); (4, 5); (3, 6); (2, 7)]%nat.
Proof.
  intros Hk. split; [|by vm_compute].
  destruct k as [|k]; [lia|]. clear Hk.
  assert (2 ≤ 2 ^ S k)%nat as HB.
  { rewrite Nat.pow_succ_r'. pose proof (Nat.pow_nonzero 2 k). lia. }
  destruct (bracket_spec k (S (2 ^ S k)) (seq 0 (2 ^ S k)) (2 ^ S k - 1))
    as (ps & Hps & Hlen & Hsum & Hhead & q & Hlast & Hq).
  { pose proof (Nat.pow_gt_lin_r 2 (S k)). lia. }
  { by rewrite length_seq. }
  { apply Sorted_seq. }
  { apply mirrored_seq. }
  rewrite !lookup_total_seq_lt in Hhead, Hq by lia. simpl in Hhead, Hq.
  set (seeded := fmap (M:=list) (λ p : nat * nat, (S p.1, S p.2)) ps).
  assert (Hb : bracket_seeds (2 ^ S k) = Some seeded).
  { unfold bracket_seeds. by rewrite Hps. }
  assert (Hsums : Forall (λ p, p.1 + p.2 = 2 ^ S k + 1)%nat seeded).
  { subst seeded. rewrite Forall_fmap. eapply Forall_impl; [done|].
    intros p Hp. simpl in *. lia. }
  assert (Hh : ∃ p, head seeded = Some p ∧ p.1 = 1%nat).
  { subst seeded. destruct ps as [|p ps]; [done|]. simpl in *.
    eexists. split; [done|]. simpl. congruence. }
  assert (Hl : ∃ q, last seeded = Some q ∧ (q.1 = 2 ∨ q.2 = 2)%nat).
  { subst seeded. rewrite fmap_last, Hlast. simpl. eexists. split; [done|].
    simpl. lia. }
  pose proof (swap_pass_related seeded) as Hrel.
  exists seeded, (swap_pass seeded).1.
  split_and!; try done.
  - unfold emitted_seeds. by rewrite Hb.
  - subst seeded. rewrite length_fmap, Hlen. f_equal. lia.
  - by apply related_matchup.
  - by rewrite swap_pass_head.
  - destruct Hl as (q0 & Hq0 & Hq2).
    destruct (related_last _ _ _ Hrel Hq0) as (q' & Hq' & [-> | ->]).
    + eauto.
    + eexists. split; [done|]. simpl. lia.
  - by eapply related_sums.
Qed.

Lemma bracket_of_power_of_two_witness :
  ∃ ps es,
    bracket_seeds (2 ^ 3) = Some ps
    ∧ emitted_seeds (2 ^ 3) = Some es
    ∧ length ps = (2 ^ (3 - 1))%nat
    ∧ matchup <$> es = matchup <$> ps
    ∧ (∃ p, head ps = Some p ∧ p.1 = 1%nat)
    ∧ (∃ q, last ps = Some q ∧ (q.1 = 2 ∨ q.2 = 2)%nat)
    ∧ Forall (λ p, p.1 + p.2 = 2 ^ 3 + 1)%nat ps
    ∧ (∃ p, head es = Some p ∧ p.1 = 1%nat)
    ∧ (∃ q, last es = Some q ∧ (q.1 = 2 ∨ q.2 = 2)%nat)
    ∧ Forall (λ p, p.1 + p.2 = 2 ^ 3 + 1)%nat es.
Proof.
  apply (bracket_of_power_of_two 3). lia.
Defined.

(** The model of the first-round block on a state: 8 fresh teams that all
    break are seeded 1 to 8 in store order and pushed as the pairs of
    references (0,7), (4,3), (2,5), (6,1). *)
Lemma first_round_pairs_of_eight :
  ∃ s', generateElimPairingsBeforeAffNegOrder 1 (state_of (init 8 0 3 []))
        = Ok [(Some 0, Some 7); (Some 4, Some 3); (Some 2, Some 5); (Some 6, Some 1)]%nat s'
        ∧ fmap break_seed (teams s')
          = [Some 1; Some 2; Some 3; Some 4; Some 5; Some 6; Some 7; Some 8].
Proof. eexists. split; [vm_compute; reflexivity|reflexivity]. Qed.

(** ** The redundancy check on a manager in working order *)

Lemma find_match_Some ms mid i m :
  find_match ms mid = Some (i, m) → ms !! i = Some m ∧ match_id m = mid.
Proof. intros H. apply list_find_Some in H as (? & ? & _). done. Qed.

Lemma find_match_NoDup ms m :
  NoDup (match_id <$> ms) → m ∈ ms → ∃ i, find_match ms (match_id m) = Some (i, m).
Proof.
  intros Hnd Hin. apply list_elem_of_lookup in Hin as [j Hj].
  destruct (find_match ms (match_id m)) as [[i m']|] eqn:Hf.
  - apply find_match_Some in Hf as [Hi Hid].
    assert (i = j) as ->.
    { eapply NoDup_lookup; [done| |]; rewrite list_lookup_fmap.
      - by rewrite Hi; simpl; rewrite Hid.
      - by rewrite Hj. }
    exists j. congruence.
  - apply list_find_None in Hf. rewrite Forall_forall in Hf.
    destruct (Hf m); [|done]. by apply list_elem_of_lookup_2 in Hj.
Qed.

Lemma length_omap_result_key ms :
  length (omap result_key ms) = length (filter (λ m, result m ≠ None) ms).
Proof.
  induction ms as [|m ms IH]; [done|].
  destruct (result m) eqn:Hr.
  - rewrite filter_cons_True by (by rewrite Hr). simpl.
    unfold result_key at 1. rewrite Hr. simpl. f_equal. apply IH.
  - rewrite filter_cons_False by (by rewrite Hr; intros []). simpl.
    unfold result_key at 1. rewrite Hr. simpl. apply IH.
Qed.

Lemma validatePairingRedundancy_agree ms c :
  NoDup (match_id <$> ms) → pairing_entries c = pairing_key <$> ms →
  validatePairingRedundancy ms c = true.
Proof.
  intros Hnd Hc. unfold validatePairingRedundancy. rewrite Hc.
  apply andb_true_intro. split.
  - apply bool_decide_eq_true. by rewrite length_fmap.
  - apply forallb_forall. intros [[[r mid] a] n] Hin.
    apply list_elem_of_In, list_elem_of_fmap in Hin as (m & Hk & Hin).
    injection Hk as -> -> -> ->.
    destruct (find_match_NoDup ms m Hnd Hin) as [i ->].
    by rewrite !bool_decide_eq_true_2.
Qed.

Lemma validateResultRedundancy_agree ms c :
  NoDup (match_id <$> ms) →
  entry_key <$> result_entries c ≡ₚ omap result_key ms →
  validateResultRedundancy ms c = true.
Proof.
  intros Hnd Hc. unfold validateResultRedundancy.
  apply andb_true_intro. split.
  - apply bool_decide_eq_true.
    rewrite <-length_omap_result_key, <-Hc. by rewrite length_fmap.
  - apply forallb_forall. intros e Hin.
    apply list_elem_of_In in Hin.
    assert (entry_key e ∈ omap result_key ms) as Hk.
    { rewrite <-Hc. apply list_elem_of_fmap. by exists e. }
    apply list_elem_of_omap in Hk as (m & Hm & Hk).
    unfold result_key in Hk. destruct (result m) as [o|] eqn:Hr; [|done].
    unfold entry_key in Hk. simpl in Hk. injection Hk as <- <- <- <- <-.
    destruct (find_match_NoDup ms m Hnd Hm) as [i ->].
    rewrite Hr. by rewrite !bool_decide_eq_true_2.
Qed.

Lemma healthy_checkConsistency s :
  ids_fresh s → logs_agree s → checkConsistency s = Ok tt s.
Proof.
  intros [Hnd _] (Hp & Hr & Hpe & Hre). unfold checkConsistency.
  destruct (pairing_file_content s) eqn:Hpc; [done|].
  destruct (result_file_content s) eqn:Hrc; [done|].
  rewrite Hrc, Hpc.
  by rewrite validatePairingRedundancy_agree, validateResultRedundancy_agree.
Qed.
Lemma healthy_save s : healthy s → saveToStorage s = Ok tt s.
Proof. intros (_ & Hf & Hl & _). by apply healthy_checkConsistency. Qed.

Lemma alter_middle {A} (f : A → A) (l : list A) i x :
  l !! i = Some x → alter f i l = take i l ++ f x :: drop (S i) l.
Proof.
  revert i. induction l as [|y l IH]; intros [|i] H; try done.
  - by injection H as ->.
  - simpl. f_equal. by apply IH.
Qed.

Lemma fmap_alter_same {A B} (f : A → B) (g : A → A) i (l : list A) :
  (∀ x, f (g x) = f x) → f <$> alter g i l = f <$> l.
Proof.
  intros H. revert i. induction l as [|y l IH]; intros [|i]; csimpl; try done.
  - by rewrite H.
  - by rewrite IH.
Qed.

Lemma recalculateStats_frame s s' :
  recalculateStats s = Ok tt s' →
  matches s' = matches s ∧ config s' = config s
  ∧ next_match_id s' = next_match_id s ∧ next_judge_id s' = next_judge_id s
  ∧ pairing_file_content s' = pairing_file_content s
  ∧ result_file_content s' = result_file_content s.
Proof.
  unfold recalculateStats. destruct (replay_matches _ _); [done|].
  by intros [= <-].
Qed.

Lemma result_entries_app c c' :
  result_entries (c ++ c') = result_entries c ++ result_entries c'.
Proof. unfold result_entries. apply omap_app. Qed.

Lemma result_entries_retire mid c :
  result_entries (retire_lines mid c)
  = filter (λ e, re_match e ≠ mid) (result_entries c).
Proof.
  unfold result_entries, retire_lines.
  induction c as [|[t|e|e] c IH]; simpl; try done.
  destruct (decide (re_match e = mid)) as [He|He]; simpl.
  - by rewrite filter_cons_False by (by intros ?).
  - rewrite filter_cons_True by done. by f_equal.
Qed.

Lemma result_key_id m k : result_key m = Some k → k.1.1.1.2 = match_id m.
Proof. unfold result_key. destruct (result m); [|done]. by intros [= <-]. Qed.

Lemma omap_result_key_other ms mid :
  Forall (λ m, match_id m ≠ mid) ms →
  filter (λ k : Z * Z * Z * Z * string, k.1.1.1.2 ≠ mid) (omap result_key ms)
  = omap result_key ms.
Proof.
  induction 1 as [|m ms Hm _ IH]; [done|]. csimpl.
  destruct (result_key m) as [k|] eqn:Hk; [|done].
  rewrite filter_cons_True by (by rewrite (result_key_id m k Hk)). by f_equal.
Qed.

Lemma NoDup_ids_others ms i m :
  NoDup (match_id <$> ms) → ms !! i = Some m →
  Forall (λ m', match_id m' ≠ match_id m) (take i ms)
  ∧ Forall (λ m', match_id m' ≠ match_id m) (drop (S i) ms).
Proof.
  intros Hnd Hi. rewrite <-(take_drop_middle ms i m Hi) in Hnd.
  rewrite fmap_app, fmap_cons in Hnd.
  apply NoDup_app in Hnd as (_ & Hd & Hnd). apply NoDup_cons in Hnd as [Hn _].
  split; apply Forall_forall; intros m' Hin Heq.
  - apply (Hd (match_id m')); [by apply list_elem_of_fmap_2|]. rewrite Heq. by left.
  - apply Hn. rewrite <-Heq. by apply list_elem_of_fmap_2.
Qed.

Lemma filter_fmap_comm {A B} (f : A → B) (P : B → Prop) (Q : A → Prop)
    `{!∀ y, Decision (P y)} `{!∀ x, Decision (Q x)} (l : list A) :
  (∀ x, Q x ↔ P (f x)) → filter P (f <$> l) = f <$> filter Q l.
Proof.
  intros HPQ. induction l as [|x l IH]; [done|]. csimpl.
  destruct (decide (Q x)) as [HQ|HQ].
  - rewrite (filter_cons_True Q) by done.
    rewrite filter_cons_True by (by apply HPQ). csimpl. by f_equal.
  - rewrite (filter_cons_False Q) by done.
    by rewrite filter_cons_False by (by rewrite <-HPQ).
Qed.

(** The active result lines once the lines of match [m] are retired and, if
    there is a new outcome, a line for it is appended. *)
Lemma result_log_after_update ms i m (c : list ResultLine) r (new : list ResultEntry) :
  NoDup (match_id <$> ms) → ms !! i = Some m →
  entry_key <$> result_entries c ≡ₚ omap result_key ms →
  entry_key <$> new = option_list (result_key (set_result r m)) →
  entry_key <$> (filter (λ e, re_match e ≠ match_id m) (result_entries c) ++ new)
  ≡ₚ omap result_key (alter (set_result r) i ms).
Proof.
  intros Hnd Hi Hc Hnew.
  destruct (NoDup_ids_others ms i m Hnd Hi) as [Ht Hd].
  rewrite (alter_middle _ _ _ _ Hi), omap_app. csimpl.
  rewrite fmap_app, Hnew.
  assert (entry_key <$> filter (λ e, re_match e ≠ match_id m) (result_entries c)
          ≡ₚ omap result_key (take i ms) ++ omap result_key (drop (S i) ms)) as ->.
  { assert (entry_key <$> filter (λ e, re_match e ≠ match_id m) (result_entries c)
            = filter (λ k : Z * Z * Z * Z * string, k.1.1.1.2 ≠ match_id m)
                (entry_key <$> result_entries c)) as ->.
    { symmetry. by apply filter_fmap_comm. }
    rewrite Hc.
    rewrite <-(take_drop_middle ms i m Hi) at 1.
    rewrite omap_app, filter_app. csimpl.
    rewrite omap_result_key_other by done.
    f_equiv.
    destruct (result_key m) as [k|] eqn:Hk.
    - rewrite filter_cons_False by (by rewrite (result_key_id m k Hk); intros ?).
      by rewrite omap_result_key_other.
    - by rewrite omap_result_key_other. }
  destruct (result_key (set_result r m)); simpl.
  - rewrite <-app_assoc. f_equiv. by rewrite <-Permutation_middle, app_nil_r.
  - by rewrite app_nil_r.
Qed.
Lemma recalculateStats_ext a b :
  teams a = teams b → matches a = matches b → config a = config b →
  current_round a = current_round b →
  teams (state_of (recalculateStats a)) = teams (state_of (recalculateStats b))
  ∧ current_round (state_of (recalculateStats a))
    = current_round (state_of (recalculateStats b)).
Proof.
  intros Ht Hm Hc Hr. unfold recalculateStats. rewrite Ht, Hm, Hc, Hr.
  by destruct (replay_matches _ _).
Qed.

Lemma healthy_recalc_save s :
  healthy s →
  ∃ s', recalculateStats s = Ok tt s' ∧ saveToStorage s' = Ok tt s' ∧ healthy s'
        ∧ matches s' = matches s ∧ config s' = config s
        ∧ next_match_id s' = next_match_id s
        ∧ pairing_file_content s' = pairing_file_content s
        ∧ result_file_content s' = result_file_content s.
Proof.
  intros (HI & Hf & Hl & Hv).
  destruct (recalculateStats_Inv s HI) as (s' & Hr & HI' & Hm & _).
  destruct (recalculateStats_frame s s' Hr) as (_ & Hc & Hn & _ & Hp & Hres).
  assert (ids_fresh s') as Hf' by (unfold ids_fresh; by rewrite Hm, Hn).
  assert (logs_agree s') as Hl' by (unfold logs_agree; by rewrite Hm, Hp, Hres).
  assert (results_valid s') as Hv' by (unfold results_valid; by rewrite Hm).
  exists s'. split_and!; try done.
  by apply healthy_save.
Qed.

Lemma healthy_set_result s i m r (new : list ResultLine) :
  healthy s → matches s !! i = Some m →
  r = None ∨ r = Some "A" ∨ r = Some "N" →
  entry_key <$> result_entries new = option_list (result_key (set_result r m)) →
  healthy (set_result_file_content
             (retire_lines (match_id m) (result_file_content s) ++ new)
             (set_matches (alter (set_result r) i (matches s)) s)).
Proof.
  intros (HI & [Hnd Hlt] & (Hp & Hr & Hpe & Hre) & Hv) Hi Hrv Hnew.
  unfold healthy, ids_fresh, logs_agree, results_valid.
  split_and!;
    cbn [matches next_match_id pairing_file_content result_file_content
         set_matches set_result_file_content].
  - apply Inv_result_file. by apply Inv_alter_match.
  - by rewrite fmap_alter_same.
  - rewrite (alter_middle _ _ _ _ Hi).
    rewrite <-(take_drop_middle _ _ _ Hi) in Hlt.
    apply Forall_app in Hlt as [? [??]%Forall_cons]. apply Forall_app. split; [done|].
    by constructor.
  - by rewrite fmap_alter_same.
  - rewrite result_entries_app, result_entries_retire.
    by apply result_log_after_update.
  - done.
  - destruct (result_file_content s); [done|]. done.
  - apply Forall_alter; [done|]. by intros ? _.
Qed.

Lemma retire_lines_unreported s i m :
  healthy s → matches s !! i = Some m → result m = None →
  retire_lines (match_id m) (result_file_content s) = result_file_content s.
Proof.
  intros (_ & [Hnd _] & (_ & Hr & _) & _) Hi Hres.
  assert (Forall (λ e, re_match e ≠ match_id m) (result_entries (result_file_content s)))
    as Hall.
  { apply Forall_forall. intros e He Heq.
    assert (entry_key e ∈ omap result_key (matches s)) as Hk.
    { rewrite <-Hr. by apply list_elem_of_fmap_2. }
    apply list_elem_of_omap in Hk as (m' & Hm' & Hk).
    pose proof (result_key_id _ _ Hk) as Hid. simpl in Hid.
    apply list_elem_of_lookup in Hm' as [j Hj].
    assert (j = i) as ->.
    { eapply NoDup_lookup; [done| |]; rewrite list_lookup_fmap.
      - by rewrite Hj.
      - rewrite Hi. simpl. congruence. }
    assert (m' = m) as -> by congruence.
    unfold result_key in Hk. by rewrite Hres in Hk. }
  clear Hr. unfold retire_lines.
  induction (result_file_content s) as [|[t|e|e] c IH]; csimpl; try done.
  - f_equal. apply IH. done.
  - unfold result_entries in Hall. csimpl in Hall. apply Forall_cons in Hall as [He Hall].
    rewrite decide_False by done. f_equal. by apply IH.
  - f_equal. by apply IH.
Qed.

Lemma reportResult_healthy s mid i m o :
  healthy s → find_match (matches s) mid = Some (i, m) → result m = None →
  o = "A" ∨ o = "N" →
  ∃ s', reportResult mid o None s = Ok true s' ∧ healthy s'
        ∧ matches s' = alter (set_result (Some o)) i (matches s)
        ∧ result_file_content s'
          = result_file_content s ++ [result_line m o (speaker_points m)]
        ∧ pairing_file_content s' = pairing_file_content s
        ∧ next_match_id s' = next_match_id s ∧ config s' = config s
        ∧ teams s' = teams (state_of (recalculateStats
                        (set_matches (alter (set_result (Some o)) i (matches s)) s)))
        ∧ current_round s' = current_round (state_of (recalculateStats
                        (set_matches (alter (set_result (Some o)) i (matches s)) s))).
Proof.
  intros Hh Hf Hres Ho. unfold reportResult. rewrite Hf.
  apply find_match_Some in Hf as [Hi <-].
  rewrite bool_decide_eq_false_2 by (by rewrite Hres; intros ?).
  assert (valid_outcome o = true) as ->.
  { destruct Ho as [-> | ->]; reflexivity. }
  cbn [negb set_matches matches].
  assert (alter (set_result (Some o)) i (matches s) !!! i = set_result (Some o) m) as ->.
  { apply list_lookup_total_correct. by rewrite list_lookup_alter_eq, Hi. }
  assert (Some o = None ∨ Some o = Some "A" ∨ Some o = Some "N") as Hrv.
  { destruct Ho as [-> | ->]; auto. }
  pose proof (healthy_set_result s i m (Some o)
                [result_line (set_result (Some o) m) o (speaker_points m)]
                Hh Hi Hrv eq_refl) as Hh3.
  rewrite (retire_lines_unreported s i m Hh Hi Hres) in Hh3.
  match goal with
  | |- context [recalculateStats (set_result_file_content ?c ?y)] =>
      destruct (healthy_recalc_save (set_result_file_content c y) Hh3)
        as (s' & Hrec & Hsave & Hh' & Hm & Hc & Hn & Hp & Hr);
      rewrite Hrec, Hsave
  end.
  match type of Hrec with
  | recalculateStats ?x = _ =>
      destruct (recalculateStats_ext x
                  (set_matches (alter (set_result (Some o)) i (matches s)) s))
        as [Ht Hcr]; [done..|]
  end.
  rewrite Hrec in Ht, Hcr.
  exists s'. split_and!; done.
Qed.

Lemma updateResult_healthy s mid i m o :
  healthy s → find_match (matches s) mid = Some (i, m) →
  o = None ∨ o = Some "A" ∨ o = Some "N" →
  ∃ s', updateResult mid o None s = Ok true s' ∧ healthy s'
        ∧ matches s' = alter (set_result o) i (matches s)
        ∧ result_file_content s'
          = retire_lines mid (result_file_content s)
            ++ match o with
               | Some x => [result_line m x (speaker_points m)]
               | None => []
               end
        ∧ pairing_file_content s' = pairing_file_content s
        ∧ next_match_id s' = next_match_id s ∧ config s' = config s
        ∧ teams s' = teams (state_of (recalculateStats
                        (set_matches (alter (set_result o) i (matches s)) s)))
        ∧ current_round s' = current_round (state_of (recalculateStats
                        (set_matches (alter (set_result o) i (matches s)) s))).
Proof.
  intros Hh Hf Ho. unfold updateResult, updateResult_body. rewrite Hf.
  apply find_match_Some in Hf as [Hi <-].
  destruct o as [o|].
  - assert (valid_outcome o = true) as ->.
    { destruct Ho as [|[[= ->] | [= ->]]]; done. }
    cbn [set_matches matches set_result_file_content].
    assert (alter (set_result (Some o)) i (matches s) !!! i = set_result (Some o) m) as ->.
    { apply list_lookup_total_correct. by rewrite list_lookup_alter_eq, Hi. }
    pose proof (healthy_set_result s i m (Some o)
                  [result_line (set_result (Some o) m) o (speaker_points m)]
                  Hh Hi Ho eq_refl) as Hh3.
    match goal with
    | |- context [recalculateStats (set_result_file_content ?c ?y)] =>
        destruct (healthy_recalc_save (set_result_file_content c y) Hh3)
          as (s' & Hrec & Hsave & Hh' & Hm & Hc & Hn & Hp & Hr);
        rewrite Hrec, Hsave
    end.
    match type of Hrec with
    | recalculateStats ?x = _ =>
        destruct (recalculateStats_ext x
                    (set_matches (alter (set_result (Some o)) i (matches s)) s))
          as [Ht Hcr]; [done..|]
    end.
    rewrite Hrec in Ht, Hcr.
    exists s'. split_and!; done.
  - pose proof (healthy_set_result s i m None [] Hh Hi Ho eq_refl) as Hh3.
    rewrite app_nil_r in Hh3.
    match goal with
    | |- context [recalculateStats (set_result_file_content ?c ?y)] =>
        destruct (healthy_recalc_save (set_result_file_content c y) Hh3)
          as (s' & Hrec & Hsave & Hh' & Hm & Hc & Hn & Hp & Hr);
        rewrite Hrec, Hsave
    end.
    match type of Hrec with
    | recalculateStats ?x = _ =>
        destruct (recalculateStats_ext x
                    (set_matches (alter (set_result None) i (matches s)) s))
          as [Ht Hcr]; [done..|]
    end.
    rewrite Hrec in Ht, Hcr.
    exists s'. rewrite app_nil_r. split_and!; done.
Qed.

Lemma init_healthy n p e ds :
  init n p e ds = Ok true (state_of (init n p e ds))
  ∧ healthy (state_of (init n p e ds)).
Proof.
  unfold init.
  match goal with
  | |- context [saveToStorage ?x] =>
      assert (Hh : healthy x); [|by rewrite (healthy_save x Hh)]
  end.
  split_and!.
  - split_and!; simpl; [|done|].
    + rewrite Forall_fmap. apply Forall_forall. intros i _. split; simpl; [lia|done].
    + unfold team_ids. rewrite <-list_fmap_compose.
      apply (NoDup_fmap_2 (λ i : nat, Z.of_nat i)), NoDup_seq.
  - split; simpl; constructor.
  - split_and!; done.
  - constructor.
Qed.
Lemma new_matches_match_ids ts roundNum first pairs :
  match_id <$> new_matches ts roundNum first pairs
  = (λ k : nat, first + Z.of_nat k) <$> seq 0 (length pairs).
Proof.
  unfold new_matches. rewrite fmap_imap, <-imap_seq_0.
  apply imap_ext. by intros k [a n] _.
Qed.

Lemma new_matches_unreported ts roundNum first pairs :
  Forall (λ m, result m = None ∧ round_num m = roundNum)
    (new_matches ts roundNum first pairs).
Proof.
  apply Forall_forall. intros m Hm. unfold new_matches in Hm.
  apply elem_of_lookup_imap in Hm as (k & [a n] & -> & _). done.
Qed.

Lemma omap_result_key_unreported ms :
  Forall (λ m, result m = None) ms → omap result_key ms = [].
Proof.
  induction 1 as [|m ms Hm _ IH]; [done|]. csimpl.
  unfold result_key at 1. by rewrite Hm.
Qed.

Lemma with_new_matches_healthy roundNum pairs s1 :
  healthy s1 →
  Forall (λ r, (r < length (teams s1))%nat) (paired_teams pairs) →
  healthy (with_new_matches roundNum pairs s1).
Proof.
  intros (HI & [Hnd Hlt] & (Hp & Hr & Hpe & Hre) & Hrv) Hv.
  unfold healthy, ids_fresh, logs_agree, results_valid, with_new_matches.
  cbn [matches next_match_id pairing_file_content result_file_content teams].
  split_and!.
  - destruct HI as (Hok & Hms & Hndt). split_and!; simpl; [done| |done].
    apply Forall_app. split; [done|]. by apply new_matches_ids.
  - rewrite fmap_app, new_matches_match_ids. apply NoDup_app. split_and!; [done| |].
    + intros x Hx Hx'. apply list_elem_of_fmap in Hx as (m & -> & Hm).
      apply list_elem_of_fmap in Hx' as (k & Hk & _).
      rewrite Forall_forall in Hlt. specialize (Hlt m Hm). lia.
    + apply NoDup_fmap_2; [|apply NoDup_seq]. intros ???. lia.
  - apply Forall_app. split.
    + eapply Forall_impl; [exact Hlt|]. intros m ?. simpl in *. lia.
    + apply Forall_forall. intros m Hm.
      assert (match_id m ∈ match_id <$> new_matches (teams s1) roundNum
                (next_match_id s1) pairs) as Hin by (by apply list_elem_of_fmap_2).
      rewrite new_matches_match_ids in Hin.
      apply list_elem_of_fmap in Hin as (k & -> & Hk). apply elem_of_seq in Hk. lia.
  - unfold pairing_entries in *. rewrite omap_app, Hp, fmap_app. f_equal.
    induction (new_matches _ _ _ _) as [|m ms IH]; [done|]. csimpl. by f_equal.
  - rewrite omap_app, (omap_result_key_unreported (new_matches _ _ _ _)).
    + by rewrite app_nil_r.
    + eapply Forall_impl; [apply new_matches_unreported|]. by intros m [??].
  - destruct (pairing_file_content s1); done.
  - done.
  - apply Forall_app. split; [done|].
    eapply Forall_impl; [apply new_matches_unreported|]. intros m [??]. by left.
Qed.


Lemma find_match_alter ms mid i m (f : Match → Match) :
  (∀ x, match_id (f x) = match_id x) →
  find_match ms mid = Some (i, m) → find_match (alter f i ms) mid = Some (i, f m).
Proof.
  intros Hid Hf. apply list_find_Some in Hf as (Hi & Hm & Hlt).
  apply list_find_Some. split_and!.
  - by rewrite list_lookup_alter_eq, Hi.
  - by rewrite Hid.
  - intros j y Hj Hji. rewrite list_lookup_alter_ne in Hj by lia. by eapply Hlt.
Qed.

Lemma checkConsistency_nonempty s :
  pairing_file_content s ≠ [] → result_file_content s ≠ [] →
  state_of (checkConsistency s) = s
  ∧ (validateResultRedundancy (matches s) (result_file_content s) = false →
     checkConsistency s = Throw RedundancyCheckFailed s).
Proof.
  intros Hp Hr. unfold checkConsistency.
  destruct (pairing_file_content s) eqn:Hpc; [done|].
  destruct (result_file_content s) eqn:Hrc; [done|].
  rewrite Hrc, Hpc. split.
  - by case_match.
  - intros ->. by rewrite andb_false_r.
Qed.

Lemma length_reported_alter ms i m (h : Match → Match) :
  ms !! i = Some m → result m = None → result (h m) ≠ None →
  length (filter (λ m, result m ≠ None) (alter h i ms))
  = S (length (filter (λ m, result m ≠ None) ms)).
Proof.
  intros Hi Hm Hh. rewrite (alter_middle _ _ _ _ Hi).
  rewrite <-(take_drop_middle _ _ _ Hi) at 3.
  rewrite !filter_app, !length_app.
  rewrite filter_cons_True by done.
  rewrite (filter_cons_False _ m) by (by rewrite Hm; intros ?).
  simpl. lia.
Qed.

Lemma team_ok_store_history r pts t : team_ok t → team_ok (store_history r pts t).
Proof. by intros [??]. Qed.

Lemma Forall_alter_ok (f : Team → Team) r ts :
  (∀ t, team_ok t → team_ok (f t)) → Forall team_ok ts → Forall team_ok (alter f r ts).
Proof.
  intros Hf Hts. apply Forall_forall. intros t Ht.
  apply list_elem_of_lookup in Ht as [j Hj].
  rewrite Forall_forall in Hts.
  destruct (decide (j = r)) as [->|Hne].
  - rewrite list_lookup_alter_eq in Hj.
    destruct (ts !! r) as [t0|] eqn:Ht0; [|done]. injection Hj as <-.
    apply Hf, Hts. by apply list_elem_of_lookup_2 in Ht0.
  - rewrite list_lookup_alter_ne in Hj by done.
    apply Hts. by apply list_elem_of_lookup_2 in Hj.
Qed.
Lemma Inv_find_teams s i m :
  Inv s → matches s !! i = Some m →
  ∃ a n, find_team (teams s) (aff_id m) = Some a ∧ find_team (teams s) (neg_id m) = Some n.
Proof.
  intros (_ & Hms & _) Hi. rewrite Forall_forall in Hms.
  destruct (Hms m) as [Ha Hn]; [by apply list_elem_of_lookup_2 in Hi|].
  apply find_team_is_Some in Ha as [a Ha]. apply find_team_is_Some in Hn as [n Hn].
  by exists a, n.
Qed.

(** [storeSpeakerPoints] on a match that has a result: the nested
    [updateResult] retires the lines of the match and logs the result anew,
    with the points. *)
Lemma storeSpeakerPoints_reported s mid i m o sp :
  Inv s → pairing_file_content s ≠ [] →
  find_match (matches s) mid = Some (i, m) → result m = Some o →
  o = "A" ∨ o = "N" → bad_points sp = None →
  ∃ s', storeSpeakerPoints mid sp s = Ok tt s' ∧ Inv s'
        ∧ matches s'
          = alter (λ m, set_result (Some o) (set_speaker_points (Some sp) m)) i (matches s)
        ∧ result_file_content s'
          = retire_lines mid (result_file_content s) ++ [result_line m o (Some sp)]
        ∧ pairing_file_content s' = pairing_file_content s
        ∧ next_match_id s' = next_match_id s ∧ config s' = config s.
Proof.
  intros HI Hpe Hf Hres Ho Hbad. unfold storeSpeakerPoints. rewrite Hf, Hbad.
  pose proof (find_match_Some _ _ _ _ Hf) as [Hi Hmid].
  destruct (Inv_find_teams s i m HI Hi) as (a & n & Ha & Hn).
  cbn [teams set_matches]. rewrite Ha, Hn, Hres.
  set (ts2 := alter (store_history (round_num m) (negPoints sp)) n
                (alter (store_history (round_num m) (affPoints sp)) a (teams s))).
  set (sB := set_teams ts2
               (set_matches (alter (set_speaker_points (Some sp)) i (matches s)) s)).
  assert (HIB : Inv sB).
  { apply Inv_teams; [| |by apply Inv_alter_match].
    - subst ts2. by rewrite !team_ids_alter.
    - subst ts2. destruct HI as (Hok & _).
      by do 2 (apply Forall_alter_ok; [apply team_ok_store_history|]). }
  unfold updateResult_body.
  assert (find_match (matches sB) mid
          = Some (i, set_speaker_points (Some sp) m)) as ->.
  { by apply find_match_alter. }
  assert (valid_outcome o = true) as -> by (destruct Ho as [-> | ->]; reflexivity).
  cbn [set_matches matches set_result_file_content].
  match goal with
  | |- context [recalculateStats ?x] =>
      assert (HI4 : Inv x);
        [|destruct (recalculateStats_Inv x HI4) as (s5 & Hrec & HI5 & Hm5 & _);
          destruct (recalculateStats_frame x s5 Hrec) as (_ & Hc5 & Hn5 & _ & Hp5 & Hr5);
          rewrite Hrec]
  end.
  { apply Inv_result_file. by apply Inv_alter_match. }
  assert (state_of (saveToStorage s5) = s5) as Hsave.
  { apply checkConsistency_nonempty.
    - by rewrite Hp5.
    - rewrite Hr5. simpl. by destruct (retire_lines _ _). }
  exists s5. split.
  { f_equal. by destruct (saveToStorage s5). }
  split; [done|]. rewrite Hm5, Hr5, Hp5, Hn5, Hc5. subst sB.
  cbn [matches set_matches set_teams set_result_file_content result_file_content
       pairing_file_content next_match_id config].
  assert (alter (set_result (Some o)) i
            (alter (set_speaker_points (Some sp)) i (matches s)) !!! i
          = set_result (Some o) (set_speaker_points (Some sp) m)) as ->.
  { apply list_lookup_total_correct. by rewrite !list_lookup_alter_eq, Hi. }
  split_and!; try done.
  by rewrite list_alter_alter_eq.
Qed.
Lemma reportResult_with_points s mid i m o sp :
  healthy s → find_match (matches s) mid = Some (i, m) → result m = None →
  o = "A" ∨ o = "N" → bad_points sp = None →
  ∃ s', reportResult mid o (Some sp) s = Throw RedundancyCheckFailed s'
        ∧ matches s'
          = alter (λ m, set_speaker_points (Some sp) (set_result (Some o) m)) i (matches s)
        ∧ result_file_content s'
          = result_file_content s
            ++ [result_line m o (Some sp); result_line m o (Some sp)].
Proof.
  intros Hh Hf Hres Ho Hbad.
  pose proof Hh as (HI & [Hnd _] & (_ & Hr & Hpe & Hre) & _).
  unfold reportResult. rewrite Hf.
  pose proof (find_match_Some _ _ _ _ Hf) as [Hi Hmid].
  rewrite bool_decide_eq_false_2 by (by rewrite Hres; intros ?).
  assert (valid_outcome o = true) as -> by (destruct Ho as [-> | ->]; reflexivity).
  cbn [negb].
  set (s1 := set_matches (alter (set_result (Some o)) i (matches s)) s).
  destruct (storeSpeakerPoints_reported s1 mid i (set_result (Some o) m) o sp)
    as (s2 & -> & HI2 & Hm2 & Hr2 & Hp2 & _); try done.
  { by apply Inv_alter_match. }
  { by apply find_match_alter. }
  subst s1. cbn [matches set_matches result_file_content pairing_file_content] in *.
  rewrite list_alter_alter_eq in Hm2.
  rewrite <-Hmid, (retire_lines_unreported s i m Hh Hi Hres) in Hr2.
  assert (matches s2 !!! i = set_speaker_points (Some sp) (set_result (Some o) m)) as ->.
  { apply list_lookup_total_correct. by rewrite Hm2, list_lookup_alter_eq, Hi. }
  match goal with
  | |- context [recalculateStats ?x] =>
      assert (HI3 : Inv x) by (by apply Inv_result_file);
      destruct (recalculateStats_Inv x HI3) as (s4 & Hrec & HI4 & Hm4 & _);
      destruct (recalculateStats_frame x s4 Hrec) as (_ & _ & _ & _ & Hp4 & Hr4);
      rewrite Hrec
  end.
  cbn [matches result_file_content pairing_file_content set_result_file_content] in *.
  unfold saveToStorage.
  rewrite (proj2 (checkConsistency_nonempty s4 ltac:(congruence)
                    ltac:(rewrite Hr4; by destruct (result_file_content s2)))).
  - exists s4. split; [done|]. rewrite Hm4, Hm2, Hr4, Hr2, <-app_assoc. done.
  - unfold validateResultRedundancy. apply andb_false_intro1, bool_decide_eq_false.
    rewrite Hr4, Hr2, Hm4, Hm2, !result_entries_app, !length_app.
    rewrite (length_reported_alter _ _ m) by done.
    rewrite <-length_omap_result_key, <-Hr, length_fmap. simpl. lia.
Qed.
Lemma set_teams_same s : set_teams (teams s) s = s.
Proof. by destruct s. Qed.

Lemma generateElimPairingsBefore_frame roundNum s :
  ∃ ts', state_of (generateElimPairingsBeforeAffNegOrder roundNum s) = set_teams ts' s.
Proof.
  unfold generateElimPairingsBeforeAffNegOrder.
  repeat case_match; simpl; eauto using eq_sym, set_teams_same.
Qed.

Lemma generateElimPairings_frame roundNum g s :
  ∃ ts', state_of (generateElimPairings roundNum g s) = set_teams ts' s.
Proof.
  unfold generateElimPairings.
  destruct (generateElimPairingsBefore_frame roundNum s) as [ts' Hts].
  exists ts'. destruct (generateElimPairingsBeforeAffNegOrder roundNum s); simpl in *;
    [by case_match|done].
Qed.

Lemma healthy_set_teams s ts' : healthy s → Inv (set_teams ts' s) → healthy (set_teams ts' s).
Proof. intros (_ & Hf & Hl & Hv) HI. done. Qed.

Lemma pairRound_Ok_healthy roundNum g s pairs g' s' :
  healthy s → pairRound roundNum g s = Ok (pairs, g') s' →
  healthy s'
  ∧ matches s' = matches s ++ new_matches (teams s') roundNum (next_match_id s) pairs
  ∧ next_match_id s' = next_match_id s + Z.of_nat (length pairs)
  ∧ result_file_content s' = result_file_content s
  ∧ config s' = config s.
Proof.
  intros Hh. unfold pairRound, pairRound_with.
  destruct (if decide (roundNum > 2) then _ else _); [done|].
  destruct (round_matches (matches s) roundNum); [|done].
  assert (Hgen : ∀ generated : Result (list (ref * ref) * Rng),
    (∀ pairs g' s1, generated = Ok (pairs, g') s1 →
       (∃ ts', s1 = set_teams ts' s) ∧ Inv s1
       ∧ Forall (λ r, (r < length (teams s1))%nat) (paired_teams pairs)) →
    match generated with
    | Throw e s' => Throw e s'
    | Ok (pairs, g') s1 =>
        let newMatches := new_matches (teams s1) roundNum (next_match_id s1) pairs in
        let s2 :=
          mkTM (config s1) (current_round s1) (matches s1 ++ newMatches)
            (next_match_id s1 + Z.of_nat (length pairs)) (next_judge_id s1)
            (pairing_file_content s1
             ++ fmap (λ m, PEntry (round_num m) (match_id m) (aff_id m) (neg_id m))
                  newMatches)
            (result_file_content s1) (teams s1) in
        match saveToStorage s2 with
        | Throw e s3 => Throw e s3
        | Ok _ s3 => Ok (pairs, g') s3
        end
    end = Ok (pairs, g') s' →
    healthy s'
    ∧ matches s' = matches s ++ new_matches (teams s') roundNum (next_match_id s) pairs
    ∧ next_match_id s' = next_match_id s + Z.of_nat (length pairs)
    ∧ result_file_content s' = result_file_content s
    ∧ config s' = config s).
  { intros [[pairs0 g0] s1|e s1] Hv; [|done]. cbv zeta.
    destruct (Hv _ _ _ eq_refl) as ([ts' ->] & HI1 & Hvalid).
    pose proof (with_new_matches_healthy roundNum pairs0 (set_teams ts' s)
                  (healthy_set_teams s ts' Hh HI1) Hvalid) as Hh2.
    change (mkTM _ _ _ _ _ _ _ _)
      with (with_new_matches roundNum pairs0 (set_teams ts' s)).
    rewrite (healthy_save _ Hh2).
    intros [= <- <- <-]. done. }
  apply Hgen. intros pairs0 g0 s1 Hg. case_decide.
  - destruct (generateSwissPairings_assignment (teams s) roundNum g)
      as (pairs1 & bye & g1 & Hsw & Hp & _).
    rewrite Hsw in Hg. injection Hg as <- <- <-.
    assert (Hids : team_ids (giveBye (updateBuchholz (teams s)) bye) = team_ids (teams s)).
    { by rewrite team_ids_giveBye, team_ids_updateBuchholz. }
    split_and!; [by eexists| |].
    + apply Inv_teams; [done| |apply Hh].
      apply team_ok_giveBye, team_ok_updateBuchholz, Hh.
    + simpl. rewrite <-team_ids_length, Hids, team_ids_length.
      apply Forall_forall. intros r Hr.
      assert (r ∈ seq 0 (length (teams s))) as Hin
        by (rewrite <-Hp; apply elem_of_app; by left).
      apply elem_of_seq in Hin. lia.
  - destruct (generateElimPairings_frame roundNum g s) as [ts' Hts].
    destruct (generateElimPairings_Inv roundNum g s (proj1 Hh)) as (HI1 & _ & Hv).
    rewrite Hg in Hts, HI1. simpl in Hts, HI1. split_and!; [by eexists|done|].
    by eapply Hv.
Qed.

Lemma omap_alter_ext {A B} (f : A → option B) (h h' : A → A) i (l : list A) :
  (∀ x, f (h x) = f (h' x)) → omap f (alter h i l) = omap f (alter h' i l).
Proof.
  intros H. revert i. induction l as [|y l IH]; intros [|i]; csimpl; try done.
  - by rewrite H.
  - by rewrite IH.
Qed.

Lemma omap_alter_same {A B} (f : A → option B) (h : A → A) i (l : list A) x :
  l !! i = Some x → f (h x) = f x → omap f (alter h i l) = omap f l.
Proof.
  intros Hi H. rewrite (alter_middle _ _ _ _ Hi).
  rewrite <-(take_drop_middle _ _ _ Hi) at 3.
  rewrite !omap_app. csimpl. by rewrite H.
Qed.

Lemma valid_outcome_true o : valid_outcome o = true ↔ o = "A" ∨ o = "N".
Proof.
  unfold valid_outcome. rewrite orb_true_iff, !bool_decide_eq_true. done.
Qed.

Lemma reportResult_Ok_healthy s mid o b s' :
  healthy s → reportResult mid o None s = Ok b s' → healthy s'.
Proof.
  intros Hh H.
  destruct (find_match (matches s) mid) as [[i m]|] eqn:Hf;
    [|by unfold reportResult in H; rewrite Hf in H].
  destruct (result m) as [r|] eqn:Hres.
  { destruct (reportResult_early_errors mid o None s) as (_ & He & _).
    rewrite (He i m Hf) in H; [done|]. by rewrite Hres. }
  destruct (valid_outcome o) eqn:Hv.
  - apply valid_outcome_true in Hv.
    destruct (reportResult_healthy s mid i m o Hh Hf Hres Hv) as (s'' & Hr & Hh' & _).
    rewrite Hr in H. by injection H as _ <-.
  - destruct (reportResult_early_errors mid o None s) as (_ & _ & He).
    rewrite (He i m Hf Hres) in H; [done| |]; intros ->; done.
Qed.

Lemma updateResult_Ok_healthy s mid o b s' :
  healthy s → updateResult mid o None s = Ok b s' → healthy s'.
Proof.
  intros Hh H.
  destruct (find_match (matches s) mid) as [[i m]|] eqn:Hf;
    [|by unfold updateResult, updateResult_body in H; rewrite Hf in H].
  assert (o = None ∨ o = Some "A" ∨ o = Some "N") as Ho.
  { destruct o as [o|]; [|by left]. destruct (valid_outcome o) eqn:Hv.
    - apply valid_outcome_true in Hv as [-> | ->]; auto.
    - unfold updateResult, updateResult_body in H. by rewrite Hf, Hv in H. }
  destruct (updateResult_healthy s mid i m o Hh Hf Ho) as (s'' & Hr & Hh' & _).
  rewrite Hr in H. by injection H as _ <-.
Qed.

(** The manager once [storeSpeakerPoints] has written the points into the
    match and into the histories of its two teams. *)
Lemma points_stored_healthy s i m a n sp :
  healthy s → matches s !! i = Some m →
  healthy (set_teams
             (alter (store_history (round_num m) (negPoints sp)) n
                (alter (store_history (round_num m) (affPoints sp)) a (teams s)))
             (set_matches (alter (set_speaker_points (Some sp)) i (matches s)) s)).
Proof.
  intros (HI & [Hnd Hlt] & (Hp & Hr & Hpe & Hre) & Hv) Hi.
  unfold healthy, ids_fresh, logs_agree, results_valid.
  cbn [matches next_match_id pairing_file_content result_file_content teams
       set_matches set_teams].
  split_and!; try done.
  - apply Inv_teams; [| |by apply Inv_alter_match].
    + by rewrite !team_ids_alter.
    + destruct HI as (Hok & _).
      by do 2 (apply Forall_alter_ok; [apply team_ok_store_history|]).
  - by rewrite fmap_alter_same.
  - apply Forall_alter; [done|]. by intros ? _ ?.
  - by rewrite fmap_alter_same.
  - by rewrite (omap_alter_same result_key _ _ _ m).
  - apply Forall_alter; [done|]. by intros ? _ ?.
Qed.

Lemma storeSpeakerPoints_healthy s mid i m sp :
  healthy s → find_match (matches s) mid = Some (i, m) → bad_points sp = None →
  ∃ s' a n,
    storeSpeakerPoints mid sp s = Ok tt s' ∧ healthy s'
    ∧ find_team (teams s) (aff_id m) = Some a ∧ find_team (teams s) (neg_id m) = Some n
    ∧ (result m = None →
       teams s' = alter (store_history (round_num m) (negPoints sp)) n
                    (alter (store_history (round_num m) (affPoints sp)) a (teams s))
       ∧ result_file_content s' = result_file_content s)
    ∧ (∀ o, result m = Some o →
       result_file_content s'
       = retire_lines mid (result_file_content s) ++ [result_line m o (Some sp)])
    ∧ matches s' = alter (set_speaker_points (Some sp)) i (matches s)
    ∧ pairing_file_content s' = pairing_file_content s
    ∧ next_match_id s' = next_match_id s.
Proof.
  intros Hh Hf Hbad.
  pose proof (find_match_Some _ _ _ _ Hf) as [Hi Hmid].
  destruct (Inv_find_teams s i m (proj1 Hh) Hi) as (a & n & Ha & Hn).
  pose proof (points_stored_healthy s i m a n sp Hh Hi) as HhB.
  destruct (result m) as [o|] eqn:Hres.
  - assert (o = "A" ∨ o = "N") as Ho.
    { destruct Hh as (_ & _ & _ & Hv). unfold results_valid in Hv.
      rewrite Forall_forall in Hv.
      destruct (Hv m) as [|[|]]; [by apply list_elem_of_lookup_2 in Hi|..];
        [congruence|left|right]; congruence. }
    destruct (storeSpeakerPoints_reported s mid i m o sp)
      as (s' & Hs & HI' & Hm' & Hr' & Hp' & Hn' & _); try done; [apply Hh..|].
    assert (Hm'' : matches s' = alter (set_speaker_points (Some sp)) i (matches s)).
    { rewrite Hm'. apply list_alter_ext; [|done]. intros x Hx.
      assert (x = m) as -> by congruence. destruct m. simpl in *. by rewrite Hres. }
    exists s', a, n. split_and!; try done; [|by intros ? [= <-]].
    destruct Hh as (HI & [Hnd Hlt] & (Hp & Hr & Hpe & Hre) & Hv).
    unfold healthy, ids_fresh, logs_agree, results_valid.
    rewrite Hn', Hp', Hr', Hm''. split_and!; try done.
    + by rewrite fmap_alter_same.
    + apply Forall_alter; [done|]. by intros ? _ ?.
    + by rewrite fmap_alter_same.
    + rewrite result_entries_app, result_entries_retire, <-Hmid.
      rewrite (omap_alter_same result_key _ _ _ m) by done.
      rewrite <-(omap_alter_same result_key (set_result (Some o)) i _ m Hi)
        by (unfold result_key; simpl; by rewrite Hres).
      by apply result_log_after_update.
    + by destruct (retire_lines _ _).
    + apply Forall_alter; [done|]. by intros ? _ ?.
  - unfold storeSpeakerPoints. rewrite Hf, Hbad. cbn [teams set_matches].
    rewrite Ha, Hn, Hres. rewrite (healthy_save _ HhB).
    eexists _, a, n. split_and!; try done.
Qed.

(** ** What the stat recomputer leaves alone *)

Lemma replay_match_kept ts m :
  kept_fields <$> (match replay_match ts m with inl x | inr x => x end)
  = kept_fields <$> ts.
Proof.
  unfold replay_match.
  destruct (find_team ts (aff_id m)) as [a|], (find_team ts (neg_id m)) as [n|];
    try done; rewrite ?fmap_alter_same; done.
Qed.

Lemma replay_matches_kept ts ms :
  kept_fields <$> (match replay_matches ts ms with inl x | inr x => x end)
  = kept_fields <$> ts.
Proof.
  revert ts. induction ms as [|m ms IH]; intros ts; simpl; [done|].
  pose proof (replay_match_kept ts m) as Hm.
  destruct (replay_match ts m) as [ts'|ts']; [done|]. by rewrite IH.
Qed.

Lemma recalculateStats_kept s :
  kept_fields <$> teams (state_of (recalculateStats s)) = kept_fields <$> teams s.
Proof.
  unfold recalculateStats.
  pose proof (replay_matches_kept (reset_stats <$> teams s)
                (js_sort (λ a b, round_num a - round_num b) (matches s))) as H.
  rewrite <-list_fmap_compose in H.
  destruct (replay_matches _ _) as [ts'|ts']; simpl; [done|].
  unfold updateBuchholz. by rewrite <-list_fmap_compose.
Qed.

Lemma saveToStorage_teams s : teams (state_of (saveToStorage s)) = teams s.
Proof. apply checkConsistency_state. Qed.

Lemma recalc_save_kept s :
  kept_fields <$> teams (state_of
    match recalculateStats s with
    | Throw e s' => Throw e s'
    | Ok _ s' =>
        match saveToStorage s' with
        | Throw e s'' => Throw e s''
        | Ok _ s'' => Ok true s''
        end
    end) = kept_fields <$> teams s.
Proof.
  pose proof (recalculateStats_kept s) as H.
  destruct (recalculateStats s) as [[] s'|e s']; [|done].
  pose proof (saveToStorage_teams s') as H'.
  destruct (saveToStorage s'); simpl in *; by rewrite H'.
Qed.

Lemma reportResult_kept mid o s :
  kept_fields <$> teams (state_of (reportResult mid o None s)) = kept_fields <$> teams s.
Proof.
  unfold reportResult.
  destruct (find_match (matches s) mid) as [[i m]|]; [|done].
  destruct (bool_decide _); [done|]. destruct (valid_outcome o); [|done].
  cbn [negb]. cbv beta zeta iota. by rewrite recalc_save_kept.
Qed.

Lemma updateResult_kept mid o s :
  kept_fields <$> teams (state_of (updateResult mid o None s)) = kept_fields <$> teams s.
Proof.
  unfold updateResult, updateResult_body.
  destruct (find_match (matches s) mid) as [[i m]|]; [|done].
  destruct o as [o|]; [destruct (valid_outcome o); [|done]|];
    cbv beta zeta iota; by rewrite recalc_save_kept.
Qed.

(** ** The statistics that the stat recomputer rebuilds *)



Lemma foldl_ext_eq {A B} (f g : B → A → B) (l : list A) (acc : B) :
  (∀ b a, f b a = g b a) → foldl f acc l = foldl g acc l.
Proof.
  intros H. revert acc. induction l as [|x l IH]; intros acc; [done|]. simpl.
  by rewrite H, IH.
Qed.



Lemma retire_lines_idemp mid c :
  retire_lines mid (retire_lines mid c) = retire_lines mid c.
Proof.
  unfold retire_lines. rewrite <-list_fmap_compose. apply list_fmap_ext.
  intros _ [t|e|e] _; simpl; try done. case_decide; simpl; [done|]. by rewrite decide_False.
Qed.

Lemma updateResult_with_points s mid i m o sp :
  healthy s → find_match (matches s) mid = Some (i, m) →
  o = "A" ∨ o = "N" → bad_points sp = None →
  ∃ s', updateResult mid (Some o) (Some sp) s = Throw RedundancyCheckFailed s'
        ∧ matches s'
          = alter (λ m, set_speaker_points (Some sp) (set_result (Some o) m)) i (matches s)
        ∧ result_file_content s'
          = retire_lines mid (result_file_content s)
            ++ [result_line m o (Some sp); result_line m o (Some sp)].
Proof.
  intros Hh Hf Ho Hbad.
  pose proof Hh as (HI & [Hnd _] & (_ & Hr & Hpe & Hre) & _).
  unfold updateResult, updateResult_body. rewrite Hf.
  pose proof (find_match_Some _ _ _ _ Hf) as [Hi Hmid].
  assert (valid_outcome o = true) as -> by (by apply valid_outcome_true).
  set (s2 := set_result_file_content _ (set_matches _ s)).
  destruct (storeSpeakerPoints_reported s2 mid i (set_result (Some o) m) o sp)
    as (s3 & -> & HI3 & Hm3 & Hr3 & Hp3 & _); try done.
  { subst s2. apply Inv_result_file. by apply Inv_alter_match. }
  { subst s2. by apply find_match_alter. }
  subst s2. cbn [matches set_matches result_file_content pairing_file_content
                 set_result_file_content] in *.
  rewrite list_alter_alter_eq in Hm3. rewrite retire_lines_idemp in Hr3.
  assert (matches s3 !!! i = set_speaker_points (Some sp) (set_result (Some o) m)) as ->.
  { apply list_lookup_total_correct. by rewrite Hm3, list_lookup_alter_eq, Hi. }
  match goal with
  | |- context [recalculateStats ?x] =>
      assert (HI4 : Inv x) by (by apply Inv_result_file);
      destruct (recalculateStats_Inv x HI4) as (s5 & Hrec & HI5 & Hm5 & _);
      destruct (recalculateStats_frame x s5 Hrec) as (_ & _ & _ & _ & Hp5 & Hr5);
      rewrite Hrec
  end.
  cbn [matches result_file_content pairing_file_content set_result_file_content] in *.
  unfold saveToStorage.
  rewrite (proj2 (checkConsistency_nonempty s5 ltac:(congruence)
                    ltac:(rewrite Hr5; by destruct (result_file_content s3)))).
  - exists s5. split; [done|]. rewrite Hm5, Hm3, Hr5, Hr3, <-app_assoc. done.
  - unfold validateResultRedundancy. apply andb_false_intro1, bool_decide_eq_false.
    rewrite Hr5, Hr3, Hm5, Hm3.
    pose proof (result_log_after_update (matches s) i m (result_file_content s) (Some o)
                  [mkResultEntry (round_num m) (match_id m) (aff_id m) (neg_id m) o 0 None]
                  Hnd Hi Hr eq_refl) as Hperm.
    apply Permutation_length in Hperm.
    rewrite length_fmap, length_app, length_omap_result_key in Hperm. simpl in Hperm.
    rewrite <-(length_omap_result_key (alter _ _ _)).
    rewrite (omap_alter_ext result_key _ (set_result (Some o))) by done.
    rewrite length_omap_result_key, <-Hperm.
    rewrite !result_entries_app, !length_app, result_entries_retire, Hmid. simpl. lia.
Qed.

(** ** Correcting a result *)

Lemma reset_stats_kept (ts ts' : list Team) :
  kept_fields <$> ts = kept_fields <$> ts' → reset_stats <$> ts = reset_stats <$> ts'.
Proof.
  intros H.
  assert (∀ l : list Team,
    reset_stats <$> l
    = (λ k : Z * string * string * list Member * option Z * list SpEntry,
         mkTeam k.1.1.1.1.1 k.1.1.1.1.2 k.1.1.1.2 k.1.1.2 0 0 0 [] 0 0 None ∅ k.1.2 k.2)
      <$> (kept_fields <$> l)) as Hl.
  { intros l. rewrite <-list_fmap_compose. by apply list_fmap_ext. }
  by rewrite !Hl, H.
Qed.

Lemma recalculateStats_teams_ext a b :
  kept_fields <$> teams a = kept_fields <$> teams b → matches a = matches b →
  teams (state_of (recalculateStats a)) = teams (state_of (recalculateStats b)).
Proof.
  intros Ht Hm. unfold recalculateStats. rewrite (reset_stats_kept _ _ Ht), Hm.
  by destruct (replay_matches _ _).
Qed.

Lemma round_complete_shape ms ms' r :
  (λ m, (round_num m, unreported m)) <$> ms = (λ m, (round_num m, unreported m)) <$> ms' →
  round_complete ms r = round_complete ms' r.
Proof.
  intros H. unfold round_complete, round_matches.
  assert (unreported <$> filter (λ m, round_num m = r) ms
          = unreported <$> filter (λ m, round_num m = r) ms') as Hf.
  { revert ms' H. induction ms as [|m ms IH]; intros [|m' ms'] H; try done.
    injection H as Hr Hu H. specialize (IH ms' H).
    destruct (decide (round_num m = r)) as [Hd|Hd].
    - rewrite !filter_cons_True by congruence. csimpl. by rewrite Hu, IH.
    - by rewrite !filter_cons_False by congruence. }
  assert (∀ l : list Match, forallb (λ m, negb (unreported m)) l
                            = forallb negb (unreported <$> l)) as Hfa.
  { induction l as [|x l IHl]; [done|]. csimpl. by rewrite IHl. }
  rewrite !Hfa, Hf. f_equal.
  apply (f_equal length) in Hf. rewrite !length_fmap in Hf. by rewrite Hf.
Qed.

Lemma current_round_loop_shape ms ms' n r c :
  (λ m, (round_num m, unreported m)) <$> ms = (λ m, (round_num m, unreported m)) <$> ms' →
  current_round_loop ms n r c = current_round_loop ms' n r c.
Proof.
  intros H. revert r c. induction n as [|n IH]; intros r c; simpl; [done|].
  rewrite (round_complete_shape ms ms' r H). by rewrite IH.
Qed.

Lemma current_round_loop_idemp ms n r c :
  current_round_loop ms n r (current_round_loop ms n r c) = current_round_loop ms n r c.
Proof.
  destruct n as [|n]; simpl; [done|].
  destruct (round_complete ms r) eqn:Hr; simpl; by rewrite ?Hr.
Qed.

Lemma recalculateStats_current_round s :
  Inv s →
  current_round (state_of (recalculateStats s))
  = current_round_loop (matches s) (Z.to_nat (num_rounds (config s))) 1 (current_round s).
Proof.
  intros HI. destruct (recalculateStats_Inv s HI) as (s' & Hr & _).
  unfold recalculateStats in *. by destruct (replay_matches _ _).
Qed.

Lemma correction_equals_report s mid i m o o' :
  healthy s → find_match (matches s) mid = Some (i, m) → result m = None →
  o = "A" ∨ o = "N" → o' = "A" ∨ o' = "N" →
  ∃ s1 s2 s3,
    reportResult mid o' None s = Ok true s1
    ∧ updateResult mid (Some o) None s1 = Ok true s2
    ∧ reportResult mid o None s = Ok true s3
    ∧ teams s2 = teams s3 ∧ matches s2 = matches s3
    ∧ current_round s2 = current_round s3.
Proof.
  intros Hh Hf Hres Ho Ho'.
  destruct (reportResult_healthy s mid i m o' Hh Hf Hres Ho')
    as (s1 & Hr1 & Hh1 & Hm1 & _ & _ & _ & Hc1 & Ht1 & Hcr1).
  assert (Hf1 : find_match (matches s1) mid = Some (i, set_result (Some o') m)).
  { rewrite Hm1. by apply find_match_alter. }
  destruct (updateResult_healthy s1 mid i _ (Some o) Hh1 Hf1)
    as (s2 & Hr2 & Hh2 & Hm2 & _ & _ & _ & Hc2 & Ht2 & Hcr2).
  { destruct Ho as [-> | ->]; auto. }
  destruct (reportResult_healthy s mid i m o Hh Hf Hres Ho)
    as (s3 & Hr3 & Hh3 & Hm3 & _ & _ & _ & Hc3 & Ht3 & Hcr3).
  exists s1, s2, s3. split_and!; try done.
  - rewrite Ht2, Ht3. apply recalculateStats_teams_ext; simpl.
    + pose proof (reportResult_kept mid o' s) as Hk. by rewrite Hr1 in Hk.
    + by rewrite Hm1, list_alter_alter_eq.
  - by rewrite Hm2, Hm3, Hm1, list_alter_alter_eq.
  - assert (HIA : Inv (set_matches (alter (set_result (Some o)) i (matches s1)) s1))
      by (apply Inv_alter_match; [done|apply Hh1]).
    assert (HIB : Inv (set_matches (alter (set_result (Some o)) i (matches s)) s))
      by (apply Inv_alter_match; [done|apply Hh]).
    assert (HIC : Inv (set_matches (alter (set_result (Some o')) i (matches s)) s))
      by (apply Inv_alter_match; [done|apply Hh]).
    rewrite Hcr2, Hcr3, (recalculateStats_current_round _ HIA),
      (recalculateStats_current_round _ HIB).
    cbn [matches config current_round set_matches].
    rewrite Hc1, Hcr1, (recalculateStats_current_round _ HIC).
    cbn [matches config current_round set_matches].
    rewrite Hm1, list_alter_alter_eq.
    rewrite (current_round_loop_shape (alter (set_result (Some o')) i (matches s))
               (alter (set_result (Some o) ∘ set_result (Some o')) i (matches s))).
    + by rewrite current_round_loop_idemp.
    + assert (∀ (g : Match → Match) (l : list Match),
                (∀ x, round_num (g x) = round_num x ∧ unreported (g x) = false) →
                (λ m, (round_num m, unreported m)) <$> alter g i l
                = alter (λ p : Z * bool, (p.1, false)) i
                    ((λ m, (round_num m, unreported m)) <$> l)) as Hsh.
      { intros g l Hg. apply list_fmap_alter, Forall_forall. intros x _. simpl.
        destruct (Hg x) as [-> ->]. done. }
      by rewrite !Hsh.
Qed.

(** ** Preliminary standings *)

Lemma js_sort_fmap {A B} (f : A → B) (cmp : A → A → Z) (cmp' : B → B → Z) (l : list A) :
  (∀ a b, cmp a b = cmp' (f a) (f b)) →
  f <$> js_sort cmp l = js_sort cmp' (f <$> l).
Proof.
  intros H. induction l as [|x l IH]; [done|]. csimpl. rewrite <-IH.
  generalize (js_sort cmp l). intros k.
  induction k as [|y k IHk]; [done|]. csimpl.
  rewrite <-H. case_decide; csimpl; [done|]. by rewrite IHk.
Qed.

Lemma prelim_stat_team s t : ps_team (prelim_stat s t) = t.
Proof. done. Qed.

Lemma getPreliminaryStandings_Permutation s :
  ps_team <$> getPreliminaryStandings s ≡ₚ teams s.
Proof.
  unfold getPreliminaryStandings. rewrite js_sort_Permutation, <-list_fmap_compose.
  by rewrite list_fmap_id.
Qed.

Lemma prelim_wins_score s t : prelim_wins (prelim_stat s t) = prelim_score (prelim_stat s t).
Proof. done. Qed.

Lemma prelim_cmp_order a b :
  prelim_wins a = prelim_score a → prelim_wins b = prelim_score b →
  prelim_cmp a b ≤ 0 ↔ prelim_order a b.
Proof. intros Ha Hb. unfold prelim_cmp, prelim_order. repeat case_decide; lia. Qed.

Lemma prelim_order_trans : Transitive prelim_order.
Proof. intros a b c. unfold prelim_order. lia. Qed.

Lemma getPreliminaryStandings_sorted s :
  StronglySorted prelim_order (getPreliminaryStandings s).
Proof.
  apply Sorted_StronglySorted; [apply prelim_order_trans|].
  assert (Forall (λ p, prelim_wins p = prelim_score p) (getPreliminaryStandings s)) as Hw.
  { unfold getPreliminaryStandings. rewrite js_sort_Permutation.
    apply Forall_fmap, Forall_forall. by intros t _. }
  assert (Sorted (λ a b, prelim_cmp a b ≤ 0) (getPreliminaryStandings s)) as Hs.
  { apply js_sort_Sorted. intros a b. unfold prelim_cmp. repeat case_decide; lia. }
  induction Hs as [|p l Hs IH Hhd]; [constructor|].
  apply Forall_cons in Hw as [Hp Hl]. constructor; [by apply IH|].
  destruct Hhd as [|q l Hpq]; constructor.
  apply Forall_cons in Hl as [Hq _]. by apply prelim_cmp_order.
Qed.


Lemma filter_prelim_and (P : Match → Prop) `{!∀ m, Decision (P m)} numPrelim
    (ms : list Match) :
  filter (λ m, round_num m ≤ numPrelim ∧ P m) ms
  = filter P (filter (λ m, round_num m ≤ numPrelim) ms).
Proof.
  induction ms as [|m ms IH]; [done|].
  destruct (decide (round_num m ≤ numPrelim)) as [Hr|Hr].
  - rewrite (filter_cons_True (λ m, round_num m ≤ numPrelim)) by done.
    destruct (decide (P m)) as [Hp|Hp].
    + rewrite !filter_cons_True by done. by rewrite IH.
    + rewrite !filter_cons_False by (by intros; try intros [??]). done.
  - rewrite (filter_cons_False (λ m, round_num m ≤ numPrelim)) by done.
    by rewrite filter_cons_False by (by intros [??]).
Qed.

Lemma oppPrelimWins_prelim s oppId :
  oppPrelimWins s oppId
  = Z.of_nat (length (filter (λ m, (aff_id m = oppId ∧ result m = Some "A")
                                   ∨ (neg_id m = oppId ∧ result m = Some "N"))
                        (filter (λ m, plays oppId m ∧ result m ≠ None)
                           (prelim_matches s)))).
Proof.
  unfold oppPrelimWins, prelim_matches.
  by rewrite (filter_prelim_and (λ m, plays oppId m ∧ result m ≠ None)).
Qed.

Lemma prelim_row_ext a b :
  team_ids (teams a) = team_ids (teams b) → prelim_matches a = prelim_matches b →
  ∀ ta tb, id ta = id tb → prelim_row (prelim_stat a ta) = prelim_row (prelim_stat b tb).
Proof.
  intros Hids Hm ta tb Hid. unfold prelim_row, prelim_stat.
  cbn [ps_team prelim_wins prelim_score prelim_buchholz].
  rewrite !(filter_prelim_and (λ m, plays _ m : Prop)).
  fold (prelim_matches a). fold (prelim_matches b). rewrite Hm, Hid.
  f_equal. apply foldl_ext_eq. intros acc o.
  rewrite (find_team_ids (teams a) (teams b)) by done.
  by rewrite !oppPrelimWins_prelim, Hm.
Qed.

Lemma getPreliminaryStandings_ext a b :
  team_ids (teams a) = team_ids (teams b) → prelim_matches a = prelim_matches b →
  prelim_row <$> getPreliminaryStandings a = prelim_row <$> getPreliminaryStandings b.
Proof.
  intros Hids Hm. unfold getPreliminaryStandings.
  assert (∀ x y, prelim_cmp x y
                 = (λ r r' : Z * Z * Z * Z,
                      if decide (r'.1.2 ≠ r.1.2) then r'.1.2 - r.1.2
                      else if decide (r'.2 ≠ r.2) then r'.2 - r.2
                           else r'.1.1.2 - r.1.1.2) (prelim_row x) (prelim_row y)) as Hc.
  { done. }
  rewrite !(js_sort_fmap prelim_row prelim_cmp _ _ Hc). f_equal.
  rewrite <-!list_fmap_compose.
  assert (∀ ts ts' : list Team, id <$> ts = id <$> ts' →
            (prelim_row ∘ prelim_stat a) <$> ts = (prelim_row ∘ prelim_stat b) <$> ts') as Hl.
  { induction ts as [|t ts IH]; intros [|t' ts'] H; try done.
    injection H as Hid H. csimpl. f_equal; [by apply prelim_row_ext|by apply IH]. }
  by apply Hl.
Qed.

(** ** The first elimination round *)

Lemma find_team_self ts (r : nat) t :
  NoDup (team_ids ts) → ts !! r = Some t → find_team ts (id t) = Some r.
Proof.
  intros Hnd Hr. unfold find_team.
  destruct (list_find (λ t', id t' = id t) ts) as [[j t']|] eqn:Hf; simpl.
  - apply list_find_Some in Hf as (Hj & Hid & _). f_equal.
    by eapply (NoDup_ids_eq ts j r t' t).
  - apply list_find_None in Hf. rewrite Forall_forall in Hf.
    destruct (Hf t); [by eapply list_elem_of_lookup_2|done].
Qed.

Lemma find_team_all ts :
  NoDup (team_ids ts) →
  (λ t, find_team ts (id t)) <$> ts = Some <$> seq 0 (length ts).
Proof.
  intros Hnd. apply list_eq. intros j. rewrite !list_lookup_fmap.
  destruct (ts !! j) as [t|] eqn:Hj; simpl.
  - rewrite lookup_seq_lt by (by eapply lookup_lt_Some). simpl.
    f_equal. by apply find_team_self.
  - apply lookup_ge_None in Hj. by rewrite lookup_seq_ge.
Qed.

Lemma Permutation_Some_inv {A} (l : list (option A)) (k : list A) :
  l ≡ₚ Some <$> k → ∃ k', l = Some <$> k' ∧ k' ≡ₚ k.
Proof.
  intros H. exists (omap (λ x, x) l). split.
  - assert (Forall is_Some l) as Hall.
    { rewrite H. apply Forall_fmap, Forall_forall. by eexists. }
    clear H. induction Hall as [|x l [y ->] _ IH]; [done|]. csimpl. by f_equal.
  - rewrite H. clear H. induction k as [|x k IH]; [done|]. csimpl. by constructor.
Qed.

(** The preliminary standings as references into the store. *)
Lemma standings_refs s :
  NoDup (team_ids (teams s)) →
  ∃ rs : list nat,
    (λ p, find_team (teams s) (id (ps_team p))) <$> getPreliminaryStandings s
    = Some <$> rs
    ∧ rs ≡ₚ seq 0 (length (teams s))
    ∧ ∀ j r p, rs !! j = Some r → getPreliminaryStandings s !! j = Some p →
        teams s !! r = Some (ps_team p).
Proof.
  intros Hnd.
  destruct (Permutation_Some_inv
              ((λ p, find_team (teams s) (id (ps_team p))) <$> getPreliminaryStandings s)
              (seq 0 (length (teams s)))) as (rs & Hrs & Hperm).
  { unfold getPreliminaryStandings at 1. rewrite js_sort_Permutation.
    rewrite <-list_fmap_compose. by rewrite <-find_team_all. }
  exists rs. split_and!; [done..|].
  intros j r p Hj Hp.
  assert (find_team (teams s) (id (ps_team p)) = Some r) as Hf.
  { apply (f_equal (λ l, l !! j)) in Hrs. rewrite !list_lookup_fmap, Hj, Hp in Hrs.
    by injection Hrs. }
  assert (ps_team p ∈ teams s) as Hin.
  { rewrite <-getPreliminaryStandings_Permutation. apply list_elem_of_fmap_2.
    by eapply list_elem_of_lookup_2. }
  apply list_elem_of_lookup in Hin as [r' Hr'].
  rewrite (find_team_self _ r' _ Hnd Hr') in Hf. by injection Hf as <-.
Qed.

Lemma assign_seeds_spec (active : list nat) :
  ∀ ts index,
    NoDup active → Forall (λ r, (r < length ts)%nat) active →
    ∃ ts', assign_seeds ts (Some <$> active) index = inr ts'
           ∧ team_ids ts' = team_ids ts
           ∧ (∀ j r, active !! j = Some r →
                break_seed (ts' !!! r) = Some (index + Z.of_nat j + 1))
           ∧ (∀ r, r ∉ active → ts' !! r = ts !! r).
Proof.
  induction active as [|a active IH]; intros ts index Hnd Hlt.
  - exists ts. split_and!; done.
  - apply NoDup_cons in Hnd as [Ha Hnd]. apply Forall_cons in Hlt as [Hal Hlt].
    csimpl.
    destruct (IH (alter (set_break_seed (Some (index + 1))) a ts) (index + 1) Hnd)
      as (ts' & -> & Hids & Hseed & Hother).
    { by rewrite length_alter. }
    exists ts'. split_and!; [done| | |].
    + by rewrite Hids, team_ids_alter.
    + intros [|j] r Hj.
      * injection Hj as <-.
        rewrite (list_lookup_total_correct ts' a
                   (set_break_seed (Some (index + 1)) (ts !!! a))).
        -- simpl. f_equal. lia.
        -- rewrite (Hother a Ha), list_lookup_alter_eq.
           by rewrite (list_lookup_lookup_total_lt ts a Hal).
      * rewrite (Hseed j r Hj). f_equal. lia.
    + intros r Hr. apply not_elem_of_cons in Hr as [Hra Hr].
      by rewrite (Hother r Hr), list_lookup_alter_ne.
Qed.

Lemma filter_none {A} (P : A → Prop) `{!∀ x, Decision (P x)} (l : list A) :
  Forall (λ x, ¬ P x) l → filter P l = [].
Proof.
  induction 1 as [|x l Hx _ IH]; [done|]. by rewrite filter_cons_False.
Qed.

Lemma NoDup_take_prefix {A} (l : list A) n : NoDup l → NoDup (take n l).
Proof.
  intros H. rewrite <-(take_drop n l) in H. by apply NoDup_app in H as [? _].
Qed.

Lemma pow2_nat k : Z.to_nat (2 ^ Z.of_nat k) = (2 ^ k)%nat.
Proof. rewrite <-(Nat2Z.id (2 ^ k)). f_equal. by rewrite Nat2Z.inj_pow. Qed.

Lemma pow2_ge_2 k : (1 ≤ k)%nat → (2 ≤ 2 ^ k)%nat.
Proof.
  intros Hk. destruct k as [|k]; [lia|].
  rewrite Nat.pow_succ_r'. pose proof (Nat.pow_nonzero 2 k). lia.
Qed.

(** The seeding and the bracket of the first elimination round, when no
    team has a break seed yet. *)
Lemma first_elim_round_before s roundNum (k : nat) :
  NoDup (team_ids (teams s)) →
  num_elim_rounds (config s) = Z.of_nat k → (1 ≤ k)%nat →
  roundNum - num_prelim_rounds (config s) = 1 →
  (2 ^ k ≤ length (teams s))%nat →
  Forall (λ t, break_seed t = None) (teams s) →
  ∃ (rs : list nat) ts' (es : list (nat * nat)),
    (λ p, find_team (teams s) (id (ps_team p))) <$> getPreliminaryStandings s
    = Some <$> rs
    ∧ rs ≡ₚ seq 0 (length (teams s))
    ∧ (∀ j r p, rs !! j = Some r → getPreliminaryStandings s !! j = Some p →
         teams s !! r = Some (ps_team p))
    ∧ generateElimPairingsBeforeAffNegOrder roundNum s
      = Ok ((λ p : nat * nat, (take (2 ^ k) rs !! p.1, take (2 ^ k) rs !! p.2)) <$> es)
          (set_teams ts' s)
    ∧ team_ids ts' = team_ids (teams s)
    ∧ (∀ j r, take (2 ^ k) rs !! j = Some r →
         break_seed (ts' !!! r) = Some (Z.of_nat j + 1))
    ∧ (∀ r, r ∉ take (2 ^ k) rs → ts' !! r = teams s !! r)
    ∧ length es = (2 ^ (k - 1))%nat
    ∧ Forall (λ p, p.1 + p.2 = 2 ^ k - 1)%nat es.
Proof.
  intros Hnd Hk Hk1 Hidx Hn Hnone.
  destruct (standings_refs s Hnd) as (rs & Hrs & Hperm & Hat).
  assert (Hlen : length rs = length (teams s)).
  { by rewrite Hperm, length_seq. }
  assert (HB : 2 ^ num_elim_rounds (config s) = Z.of_nat (2 ^ k)).
  { by rewrite Hk, Nat2Z.inj_pow. }
  pose proof (pow2_ge_2 k Hk1) as HB2.
  destruct (assign_seeds_spec (take (2 ^ k) rs) (teams s) 0)
    as (ts' & Hassign & Hids & Hseed & Hother).
  { apply NoDup_take_prefix. rewrite Hperm. apply NoDup_seq. }
  { apply Forall_take. rewrite Hperm. apply Forall_forall. intros r Hr.
    apply elem_of_seq in Hr. lia. }
  destruct (bracket_spec (k - 1) (S (2 ^ k)) (seq 0 (2 ^ k)) (2 ^ k - 1))
    as (ps & Hps & Hpl & Hsum & _).
  { pose proof (Nat.pow_gt_lin_r 2 k). lia. }
  { rewrite length_seq. f_equal. lia. }
  { apply Sorted_seq. }
  { apply mirrored_seq. }
  exists rs, ts', (swap_pass ps).1. split_and!; try done.
  - unfold generateElimPairingsBeforeAffNegOrder.
    rewrite HB, decide_False by lia. rewrite decide_True by done.
    rewrite (filter_none _ _) by
      (apply Forall_forall; intros r Hr; apply elem_of_seq in Hr;
       destruct (lookup_lt_is_Some_2 (teams s) r ltac:(lia)) as [t Ht];
       rewrite (list_lookup_total_correct _ _ _ Ht);
       rewrite Forall_forall in Hnone;
       unfold seeded_within; rewrite (Hnone t) by (by eapply list_elem_of_lookup_2); done).
    rewrite decide_False by (simpl; lia).
    rewrite Nat2Z.id, fmap_take, Hrs, <-fmap_take, Hassign.
    rewrite length_fmap, length_take, Nat.min_l by lia.
    rewrite Hps. unfold swap_pass. cbn [fst snd].
    f_equal. apply list_fmap_ext. intros _ [hi lo] _. simpl.
    rewrite !list_lookup_fmap. by destruct (_ !! hi), (_ !! lo).
  - pose proof (swap_pass_related ps) as Hrel.
    apply Forall2_length in Hrel. rewrite <-Hrel, Hpl. done.
  - eapply related_sums; [apply swap_pass_related|done].
Qed.

Lemma side_pairs_Some ts (pairs : list (option nat * option nat)) g :
  Forall (λ p, is_Some p.1 ∧ is_Some p.2) pairs →
  ∃ sided g',
    side_pairs ts pairs g = Some (sided, g')
    ∧ Forall2 (λ (p : option nat * option nat) (q : nat * nat),
                 p = (Some q.1, Some q.2) ∨ p = (Some q.2, Some q.1)) pairs sided.
Proof.
  intros Hall. revert g. induction Hall as [|[o1 o2] pairs [[t1 H1] [t2 H2]] _ IH];
    intros g.
  - by exists [], g.
  - simpl in H1, H2. subst o1 o2. simpl. destruct (IH (determineSides ts t1 t2 false g).2) as (sided & g' & -> & Hrel).
    eexists _, _. split; [done|]. constructor; [|done].
    destruct (determineSides_teams ts t1 t2 false g) as [-> | ->]; simpl; auto.
Qed.

Lemma pairRound_with_elim gen roundNum g s :
  (roundNum > 2 → first_incomplete (matches s) roundNum = None) →
  round_matches (matches s) roundNum = [] →
  ¬ roundNum ≤ num_prelim_rounds (config s) →
  pairRound_with gen roundNum g s
  = match gen roundNum g s with
    | Throw e s' => Throw e s'
    | Ok (pairs, g') s1 =>
        match saveToStorage (with_new_matches roundNum pairs s1) with
        | Throw e s3 => Throw e s3
        | Ok _ s3 => Ok (pairs, g') s3
        end
    end.
Proof.
  intros Hprev Hnone Hle. unfold pairRound_with.
  assert ((if decide (roundNum > 2) then first_incomplete (matches s) roundNum else None)
          = None) as ->.
  { case_decide; [by apply Hprev|done]. }
  by rewrite Hnone, decide_False by done.
Qed.

Lemma new_matches_lookup ts roundNum first (pairs : list (nat * nat)) m :
  m ∈ new_matches ts roundNum first pairs →
  ∃ aff neg, (aff, neg) ∈ pairs
             ∧ aff_id m = id (ts !!! aff) ∧ neg_id m = id (ts !!! neg)
             ∧ round_num m = roundNum ∧ result m = None.
Proof.
  intros Hm. unfold new_matches in Hm.
  apply elem_of_lookup_imap in Hm as (j & [aff neg] & -> & Hj).
  exists aff, neg. split_and!; try done. by eapply list_elem_of_lookup_2.
Qed.

Lemma seeds_of_refs ts (aff neg : nat) m :
  NoDup (team_ids ts) → (aff < length ts)%nat → (neg < length ts)%nat →
  aff_id m = id (ts !!! aff) → neg_id m = id (ts !!! neg) →
  seeds_of ts m = (break_seed (ts !!! aff), break_seed (ts !!! neg)).
Proof.
  intros Hnd Ha Hn Hai Hni. unfold seeds_of. rewrite Hai, Hni.
  rewrite (find_team_self ts aff) by (done || by apply list_lookup_lookup_total_lt).
  rewrite (find_team_self ts neg) by (done || by apply list_lookup_lookup_total_lt).
  done.
Qed.

Lemma first_elim_round s roundNum (k : nat) g :
  healthy s →
  num_elim_rounds (config s) = Z.of_nat k → (1 ≤ k)%nat →
  roundNum = num_prelim_rounds (config s) + 1 →
  (2 ^ k ≤ length (teams s))%nat →
  Forall (λ t, break_seed t = None) (teams s) →
  (roundNum > 2 → first_incomplete (matches s) roundNum = None) →
  round_matches (matches s) roundNum = [] →
  ∃ pairs g' s',
    pairRound roundNum g s = Ok (pairs, g') s' ∧ healthy s'
    ∧ length pairs = (2 ^ (k - 1))%nat
    ∧ (∀ (j : nat) p, getPreliminaryStandings s !! j = Some p → (j < 2 ^ k)%nat →
         ∃ t, t ∈ teams s' ∧ id t = id (ps_team p)
              ∧ break_seed t = Some (Z.of_nat j + 1))
    ∧ (∀ m, m ∈ matches s' → round_num m = roundNum →
         ∃ a b, seeds_of (teams s') m = (Some a, Some b) ∧ a + b = 2 ^ Z.of_nat k + 1).
Proof.
  intros Hh Hk Hk1 HR Hn Hnone Hprev Hunpaired.
  pose proof Hh as ((Hok & Hms & Hnd) & _).
  pose proof (pow2_ge_2 k Hk1) as HB2.
  destruct (first_elim_round_before s roundNum k Hnd Hk Hk1 ltac:(lia) Hn Hnone)
    as (rs & ts' & es & Hrs & Hperm & Hat & Hgen & Hids & Hseed & Hother & Hel & Hsum).
  assert (Hlen : length rs = length (teams s)) by (by rewrite Hperm, length_seq).
  assert (Hlen' : length ts' = length (teams s)).
  { by rewrite <-!team_ids_length, Hids. }
  assert (Hact : ∀ j, (j < 2 ^ k)%nat →
            ∃ r, take (2 ^ k) rs !! j = Some r ∧ (r < length (teams s))%nat).
  { intros j Hj.
    destruct (lookup_lt_is_Some_2 (take (2 ^ k) rs) j) as [r Hr].
    { rewrite length_take. lia. }
    exists r. split; [done|].
    assert (r ∈ seq 0 (length (teams s))) as Hin.
    { rewrite <-Hperm. apply list_elem_of_lookup_2 in Hr.
      by apply (subseteq_take (2 ^ k) rs). }
    apply elem_of_seq in Hin. lia. }
  destruct (side_pairs_Some ts'
              ((λ p : nat * nat, (take (2 ^ k) rs !! p.1, take (2 ^ k) rs !! p.2)) <$> es) g)
    as (sided & g' & Hside & Hrel).
  { apply Forall_fmap. eapply Forall_impl; [exact Hsum|]. intros [hi lo] Hs. simpl in *.
    destruct (Hact hi ltac:(lia)) as (? & -> & _).
    destruct (Hact lo ltac:(lia)) as (? & -> & _). by split; eexists. }
  assert (HI1 : Inv (set_teams ts' s)).
  { pose proof (elimBefore_Inv roundNum s (proj1 Hh)) as (HI1 & _).
    by rewrite Hgen in HI1. }
  assert (Hvalid : Forall (λ r, (r < length ts')%nat) (paired_teams sided)).
  { eapply (side_pairs_valid ts' (length ts') _ g sided g'); [|done].
    apply Forall_fmap. eapply Forall_impl; [exact Hsum|]. intros [hi lo] Hs. simpl in *.
    destruct (Hact hi ltac:(lia)) as (r1 & -> & ?).
    destruct (Hact lo ltac:(lia)) as (r2 & -> & ?).
    split; intros ? [= <-]; lia. }
  pose proof (with_new_matches_healthy roundNum sided (set_teams ts' s)
                (healthy_set_teams s ts' Hh HI1) Hvalid) as Hh2.
  exists sided, g', (with_new_matches roundNum sided (set_teams ts' s)).
  split_and!.
  - unfold pairRound. rewrite pairRound_with_elim by (done || lia).
    unfold generateElimPairings. rewrite Hgen. cbn [teams set_teams]. rewrite Hside.
    by rewrite (healthy_save _ Hh2).
  - done.
  - apply Forall2_length in Hrel. by rewrite <-Hrel, length_fmap.
  - intros j p Hp Hj.
    destruct (Hact j Hj) as (r & Hr & Hrlt).
    assert (rs !! j = Some r) as Hr'.
    { by rewrite lookup_take_lt in Hr by lia. }
    pose proof (Hat j r p Hr' Hp) as Hteam.
    exists (ts' !!! r). simpl. split_and!.
    + apply list_elem_of_lookup_total_2. lia.
    + assert (team_ids ts' !! r = team_ids (teams s) !! r) as Hl by (by rewrite Hids).
      unfold team_ids in Hl. rewrite !list_lookup_fmap, Hteam in Hl.
      rewrite (list_lookup_lookup_total_lt ts' r) in Hl by lia. by injection Hl.
    + by apply Hseed.
  - intros m Hm HmR. simpl in Hm. apply elem_of_app in Hm as [Hm|Hm].
    { assert (m ∈ round_matches (matches s) roundNum) as Hc
        by (by apply list_elem_of_filter).
      rewrite Hunpaired in Hc. by inversion Hc. }
    apply new_matches_lookup in Hm as (aff & neg & Hin & Hai & Hni & _).
    apply list_elem_of_lookup in Hin as [i Hi].
    destruct (Forall2_lookup_r _ _ _ _ _ Hrel Hi) as (p & Hp & Hpq).
    rewrite list_lookup_fmap in Hp.
    destruct (es !! i) as [[hi lo]|] eqn:Hes; [|done]. injection Hp as <-.
    rewrite Forall_forall in Hsum.
    pose proof (Hsum (hi, lo) ltac:(by eapply list_elem_of_lookup_2)) as Hs.
    simpl in Hs, Hpq.
    destruct (Hact hi ltac:(lia)) as (r1 & Hr1 & Hr1lt).
    destruct (Hact lo ltac:(lia)) as (r2 & Hr2 & Hr2lt).
    rewrite Hr1, Hr2 in Hpq.
    rewrite Forall_forall in Hvalid.
    assert (aff < length ts' ∧ neg < length ts')%nat as [Hafflt Hneglt].
    { split; apply Hvalid; unfold paired_teams; apply list_elem_of_bind;
        exists (aff, neg); (split; [simpl|by eapply list_elem_of_lookup_2]).
      - by left.
      - right. by left. }
    change (teams (with_new_matches roundNum sided (set_teams ts' s))) with ts'.
    rewrite (seeds_of_refs ts' aff neg m) by (done || by rewrite Hids).
    assert (2 ^ Z.of_nat k = Z.of_nat (2 ^ k)) as -> by (by rewrite Nat2Z.inj_pow).
    destruct Hpq as [[= -> ->]|[= -> ->]].
    + rewrite (Hseed hi aff Hr1), (Hseed lo neg Hr2). eexists _, _. split; [done|]. lia.
    + rewrite (Hseed hi neg Hr1), (Hseed lo aff Hr2). eexists _, _. split; [done|]. lia.
Qed.

(** ** Pairing past the last round *)

Lemma generateBracketPairings_nil fuel : generateBracketPairings fuel [] = None.
Proof. induction fuel as [|fuel IH]; [done|]. simpl. by rewrite IH. Qed.

Lemma generateBracketPairings_singleton fuel x : generateBracketPairings fuel [x] = None.
Proof.
  destruct fuel as [|fuel]; [done|]. simpl.
  change (js_sort num_cmp (split_halves [x]).2) with (@nil nat).
  rewrite generateBracketPairings_nil. by destruct (generateBracketPairings fuel _).
Qed.

Lemma no_elim_round_overflows s roundNum g :
  Inv s → num_elim_rounds (config s) = 0 →
  roundNum = num_prelim_rounds (config s) + 1 →
  teams s ≠ [] →
  Forall (λ t, break_seed t = None) (teams s) →
  (roundNum > 2 → first_incomplete (matches s) roundNum = None) →
  round_matches (matches s) roundNum = [] →
  ∃ ts', pairRound roundNum g s = Throw StackOverflow (set_teams ts' s)
         ∧ team_ids ts' = team_ids (teams s).
Proof.
  intros (Hok & Hms & Hnd) Hk HR Hne Hnone Hprev Hunpaired.
  destruct (standings_refs s Hnd) as (rs & Hrs & Hperm & Hat).
  assert (Hlen : length rs = length (teams s)) by (by rewrite Hperm, length_seq).
  assert (0 < length (teams s))%nat as Hpos by (destruct (teams s); [done|simpl; lia]).
  destruct rs as [|r rs]; [simpl in Hlen; lia|].
  destruct (assign_seeds_spec [r] (teams s) 0) as (ts' & Hassign & Hids & _).
  { apply NoDup_singleton. }
  { apply Forall_singleton.
    assert (r ∈ seq 0 (length (teams s))) as Hin by (rewrite <-Hperm; by left).
    apply elem_of_seq in Hin. lia. }
  exists ts'. split; [|done].
  unfold pairRound. rewrite pairRound_with_elim by (done || lia).
  unfold generateElimPairings, generateElimPairingsBeforeAffNegOrder.
  rewrite Hk. change (2 ^ 0) with 1.
  rewrite decide_False by lia. rewrite decide_True by lia.
  rewrite (filter_none _ _) by
    (apply Forall_forall; intros r' Hr'; apply elem_of_seq in Hr';
     destruct (lookup_lt_is_Some_2 (teams s) r' ltac:(lia)) as [t Ht];
     rewrite (list_lookup_total_correct _ _ _ Ht);
     rewrite Forall_forall in Hnone;
     unfold seeded_within; rewrite (Hnone t) by (by eapply list_elem_of_lookup_2); done).
  rewrite decide_False by (simpl; lia).
  change (Z.to_nat 1) with 1%nat.
  rewrite fmap_take, Hrs. change (take 1 (Some <$> r :: rs)) with (Some <$> [r]).
  rewrite Hassign.
  change (length (Some <$> [r])) with 1%nat. change (seq 0 1) with [0%nat].
  by rewrite generateBracketPairings_singleton.
Qed.

(** ** The pairing helpers *)

Lemma list_find_cons_eq {A} (P : A → Prop) `{!∀ x, Decision (P x)} (x : A) (l : list A) :
  list_find P (x :: l)
  = if decide (P x) then Some (0%nat, x) else prod_map S (λ y, y) <$> list_find P l.
Proof. done. Qed.

Lemma findBestOpponent_loop_find ts t1 group i bs :
  findBestOpponent_loop ts t1 group i bs
  = match list_find (never_met ts t1) group with
    | Some (j, c) => mkBest (Some c) (Z.of_nat (i + j)) false
    | None =>
        match bs with
        | Some (c, j) => mkBest (Some c) (Z.of_nat j) true
        | None =>
            match list_find (side_left ts t1) group with
            | Some (j, c) => mkBest (Some c) (Z.of_nat (i + j)) true
            | None => mkBest None (-1) false
            end
        end
    end.
Proof.
  revert i bs. induction group as [|c group IH]; intros i bs; [by destruct bs as [[??]|]|].
  cbn [findBestOpponent_loop]. rewrite !list_find_cons_eq.
  case_bool_decide as Hmet.
  - rewrite decide_True by exact Hmet. by rewrite Nat.add_0_r.
  - rewrite decide_False by (intros Hn; exact (Hn Hmet)). rewrite IH.
    destruct (list_find (never_met ts t1) group) as [[j c']|]; simpl.
    + do 2 f_equal. lia.
    + destruct bs as [[c0 j0]|]; [done|].
      unfold side_left at 2.
      destruct (bool_decide (Aff ∉ _)) eqn:Ha, (bool_decide (Neg ∉ _)) eqn:Hn; simpl.
      * apply bool_decide_eq_true in Ha. rewrite decide_True by (by left).
        by rewrite Nat.add_0_r.
      * apply bool_decide_eq_true in Ha. rewrite decide_True by (by left).
        by rewrite Nat.add_0_r.
      * apply bool_decide_eq_true in Hn. rewrite decide_True by (by right).
        by rewrite Nat.add_0_r.
      * apply bool_decide_eq_false in Ha, Hn.
        rewrite decide_False by (by intros [?|?]).
        destruct (list_find (side_left ts t1) group) as [[j c']|]; simpl; [|done].
        do 2 f_equal. lia.
Qed.


(** ** Speaker points that are stored *)

Lemma updateResult_body_None f f' mid o s :
  updateResult_body f mid o None s = updateResult_body f' mid o None s.
Proof. done. Qed.

Lemma filter_idemp {A} (P : A → Prop) `{!∀ x, Decision (P x)} (l : list A) :
  filter P (filter P l) = filter P l.
Proof.
  induction l as [|x l IH]; [done|]. destruct (decide (P x)).
  - rewrite (filter_cons_True P x l) by done. rewrite filter_cons_True by done.
    by rewrite IH.
  - by rewrite (filter_cons_False P x l) by done.
Qed.

Lemma store_history_round r pts t :
  filter (λ e, sp_round e = r) (speaker_points_history (store_history r pts t))
  = [mkSpEntry r pts]
  ∧ filter (λ e, sp_round e ≠ r) (speaker_points_history (store_history r pts t))
    = filter (λ e, sp_round e ≠ r) (speaker_points_history t).
Proof.
  unfold store_history. simpl. rewrite !filter_app. split.
  - rewrite (filter_none (λ e, sp_round e = r)).
    + by rewrite filter_cons_True.
    + apply Forall_forall. intros e He. by apply list_elem_of_filter in He as [? _].
  - rewrite (filter_cons_False _ (mkSpEntry r pts)) by (simpl; by intros ?).
    by rewrite filter_nil, app_nil_r, filter_idemp.
Qed.

Lemma storeSpeakerPoints_histories s mid i m sp a n :
  healthy s → find_match (matches s) mid = Some (i, m) → bad_points sp = None →
  find_team (teams s) (aff_id m) = Some a → find_team (teams s) (neg_id m) = Some n →
  speaker_points_history <$> teams (state_of (storeSpeakerPoints mid sp s))
  = speaker_points_history
    <$> alter (store_history (round_num m) (negPoints sp)) n
          (alter (store_history (round_num m) (affPoints sp)) a (teams s)).
Proof.
  intros Hh Hf Hbad Ha Hn.
  pose proof (find_match_Some _ _ _ _ Hf) as [Hi Hmid].
  pose proof (points_stored_healthy s i m a n sp Hh Hi) as HhB.
  unfold storeSpeakerPoints. rewrite Hf, Hbad. cbn [teams set_matches].
  rewrite Ha, Hn.
  destruct (result m) as [o|] eqn:Hres.
  - cbn [state_of].
    rewrite (updateResult_body_None _ storeSpeakerPoints).
    fold (updateResult mid (Some o) None).
    match goal with
    | |- context [updateResult mid (Some o) None ?x] =>
        pose proof (updateResult_kept mid (Some o) x) as Hk
    end.
    apply (f_equal (fmap (λ k : Z * string * string * list Member * option Z * list SpEntry,
                            k.2))) in Hk.
    rewrite <-!list_fmap_compose in Hk. exact Hk.
  - by rewrite (healthy_save _ HhB).
Qed.

Lemma storeSpeakerPoints_Ok_healthy s mid sp s' :
  healthy s → storeSpeakerPoints mid sp s = Ok tt s' → healthy s'.
Proof.
  intros Hh H.
  destruct (find_match (matches s) mid) as [[i m]|] eqn:Hf;
    [|by unfold storeSpeakerPoints in H; rewrite Hf in H].
  destruct (bad_points sp) as [p|] eqn:Hbad;
    [by unfold storeSpeakerPoints in H; rewrite Hf, Hbad in H|].
  destruct (storeSpeakerPoints_healthy s mid i m sp Hh Hf Hbad)
    as (s'' & a & n & Hs & Hh' & _).
  rewrite Hs in H. by injection H as <-.
Qed.

Lemma normal_run_healthy s : normal_run s → healthy s.
Proof.
  induction 1 as [n p e ds|s r g pairs g' s' _ IH Hr|s mid o b s' _ IH Hr
                  |s mid o b s' _ IH Hr|s mid sp s' _ IH Hr].
  - apply init_healthy.
  - by apply (pairRound_Ok_healthy r g s pairs g' s').
  - by apply (reportResult_Ok_healthy s mid o b s').
  - by apply (updateResult_Ok_healthy s mid o b s').
  - by apply (storeSpeakerPoints_Ok_healthy s mid sp s').
Qed.

Lemma normal_run_reachable s : normal_run s → reachable s.
Proof.
  induction 1 as [n p e ds|s r g pairs g' s' _ IH Hr|s mid o b s' _ IH Hr
                  |s mid o b s' _ IH Hr|s mid sp s' _ IH Hr].
  - constructor.
  - pose proof (reach_pairRound s r g IH) as H. by rewrite Hr in H.
  - pose proof (reach_reportResult s mid o None IH) as H. by rewrite Hr in H.
  - pose proof (reach_updateResult s mid o None IH) as H. by rewrite Hr in H.
  - pose proof (reach_storeSpeakerPoints s mid sp IH) as H. by rewrite Hr in H.
Qed.

(** * Further properties of the manager *)

Lemma normal_run_two_teams_paired : normal_run two_teams_paired.
Proof.
  eapply (run_pairRound (state_of (init 2 1 0 [])) 1 [] [(1, 0)%nat] []);
    [apply run_init|]. vm_compute. reflexivity.
Qed.

Lemma normal_run_round1_reported : normal_run round1_reported.
Proof.
  eapply (run_reportResult _ 1 "A" true).
  - eapply (run_pairRound (state_of (init 2 4 0 [])) 1 [] [(1, 0)%nat] []);
      [apply run_init|]. vm_compute. reflexivity.
  - vm_compute. reflexivity.
Qed.



(** X2: on a manager in working order, [reportResult] with outcome [A] or
    [N] and no speaker points, for a match that exists and is unreported,
    returns [true]; it sets the result of that match and of no other,
    appends exactly one line to the result log, and leaves the pairing log,
    [next_match_id] and the configuration as they were. *)
Theorem reportResult_succeeds (s : TournamentManager) (mid : Z) (i : nat) (m : Match)
    (o : string) :
  healthy s → find_match (matches s) mid = Some (i, m) → result m = None →
  o = "A" ∨ o = "N" →
  ∃ s', reportResult mid o None s = Ok true s'
        ∧ matches s' = alter (set_result (Some o)) i (matches s)
        ∧ result_file_content s'
          = result_file_content s ++ [result_line m o (speaker_points m)]
        ∧ pairing_file_content s' = pairing_file_content s
        ∧ next_match_id s' = next_match_id s ∧ config s' = config s.
Proof.
  intros Hh Hf Hres Ho.
  destruct (reportResult_healthy s mid i m o Hh Hf Hres Ho)
    as (s' & Hr & _ & Hm & Hlog & Hp & Hn & Hc & _).
  by exists s'.
Qed.

Lemma reportResult_succeeds_witness :
  ∃ s', reportResult 1 "A" None two_teams_paired = Ok true s'
        ∧ matches s' = alter (set_result (Some "A")) 0%nat (matches two_teams_paired)
        ∧ result_file_content s'
          = result_file_content two_teams_paired
            ++ [result_line the_match "A" (speaker_points the_match)]
        ∧ pairing_file_content s' = pairing_file_content two_teams_paired
        ∧ next_match_id s' = next_match_id two_teams_paired
        ∧ config s' = config two_teams_paired.
Proof.
  apply (reportResult_succeeds two_teams_paired 1 0 the_match "A").
  - apply normal_run_healthy, normal_run_two_teams_paired.
  - vm_compute. reflexivity.
  - reflexivity.
  - by left.
Defined.

(** X3: on a manager in working order, [updateResult] without speaker
    points, for a match that exists and with the new outcome [A], [N] or
    [null], returns [true]; it sets the result of that match and of no
    other, comments out the active lines of the match in the result log and
    appends one line when the new outcome is not [null]. *)
Theorem updateResult_succeeds (s : TournamentManager) (mid : Z) (i : nat) (m : Match)
    (o : option string) :
  healthy s → find_match (matches s) mid = Some (i, m) →
  o = None ∨ o = Some "A" ∨ o = Some "N" →
  ∃ s', updateResult mid o None s = Ok true s'
        ∧ matches s' = alter (set_result o) i (matches s)
        ∧ result_file_content s'
          = retire_lines mid (result_file_content s)
            ++ match o with
               | Some x => [result_line m x (speaker_points m)]
               | None => []
               end
        ∧ pairing_file_content s' = pairing_file_content s
        ∧ next_match_id s' = next_match_id s ∧ config s' = config s.
Proof.
  intros Hh Hf Ho.
  destruct (updateResult_healthy s mid i m o Hh Hf Ho)
    as (s' & Hr & _ & Hm & Hlog & Hp & Hn & Hc & _).
  by exists s'.
Qed.

Lemma updateResult_succeeds_witness :
  ∃ s', updateResult 1 (Some "N") None round1_reported = Ok true s'
        ∧ matches s' = alter (set_result (Some "N")) 0%nat (matches round1_reported)
        ∧ result_file_content s'
          = retire_lines 1 (result_file_content round1_reported)
            ++ [result_line (set_result (Some "A") the_match) "N" None]
        ∧ pairing_file_content s' = pairing_file_content round1_reported
        ∧ next_match_id s' = next_match_id round1_reported
        ∧ config s' = config round1_reported.
Proof.
  apply (updateResult_succeeds round1_reported 1 0 (set_result (Some "A") the_match)
           (Some "N")).
  - apply normal_run_healthy, normal_run_round1_reported.
  - vm_compute. reflexivity.
  - right. by right.
Defined.



(** X5: [reportResult] and [updateResult] never return when they are given
    speaker points that are all within [0, 30]. On a manager in working
    order, for a match that exists (and, for [reportResult], is
    unreported) and an outcome [A] or [N], the nested [storeSpeakerPoints]
    calls [updateResult], which logs the result; the outer call then logs
    it a second time, and [saveToStorage] throws the redundancy error. The
    result and the points stay in the match, and the result log ends with
    the same line twice. *)
Theorem results_with_speaker_points_are_refused (s : TournamentManager) (mid : Z)
    (i : nat) (m : Match) (o : string) (sp : SpeakerPoints) :
  healthy s → find_match (matches s) mid = Some (i, m) →
  o = "A" ∨ o = "N" → bad_points sp = None →
  (result m = None →
   ∃ s', reportResult mid o (Some sp) s = Throw RedundancyCheckFailed s'
         ∧ matches s'
           = alter (λ m, set_speaker_points (Some sp) (set_result (Some o) m)) i
               (matches s)
         ∧ result_file_content s'
           = result_file_content s
             ++ [result_line m o (Some sp); result_line m o (Some sp)])
  ∧ (∃ s', updateResult mid (Some o) (Some sp) s = Throw RedundancyCheckFailed s'
           ∧ matches s'
             = alter (λ m, set_speaker_points (Some sp) (set_result (Some o) m)) i
                 (matches s)
           ∧ result_file_content s'
             = retire_lines mid (result_file_content s)
               ++ [result_line m o (Some sp); result_line m o (Some sp)]).
Proof.
  intros Hh Hf Ho Hbad. split.
  - intros Hres. by apply reportResult_with_points.
  - by apply updateResult_with_points.
Qed.

Lemma results_with_speaker_points_are_refused_witness :
  (∃ s', reportResult 1 "A" (Some good_points) two_teams_paired
         = Throw RedundancyCheckFailed s'
         ∧ matches s'
           = alter (λ m, set_speaker_points (Some good_points) (set_result (Some "A") m))
               0%nat (matches two_teams_paired)
         ∧ result_file_content s'
           = result_file_content two_teams_paired
             ++ [result_line the_match "A" (Some good_points);
                 result_line the_match "A" (Some good_points)])
  ∧ (∃ s', updateResult 1 (Some "A") (Some good_points) two_teams_paired
           = Throw RedundancyCheckFailed s'
           ∧ matches s'
             = alter (λ m, set_speaker_points (Some good_points)
                             (set_result (Some "A") m))
                 0%nat (matches two_teams_paired)
           ∧ result_file_content s'
             = retire_lines 1 (result_file_content two_teams_paired)
               ++ [result_line the_match "A" (Some good_points);
                   result_line the_match "A" (Some good_points)]).
Proof.
  destruct (results_with_speaker_points_are_refused two_teams_paired 1 0 the_match "A"
              good_points) as [H1 H2].
  - apply normal_run_healthy, normal_run_two_teams_paired.
  - vm_compute. reflexivity.
  - by left.
  - vm_compute. reflexivity.
  - split; [by apply H1|exact H2].
Defined.

(** X6: on a manager in working order, [storeSpeakerPoints] with points
    within [0, 30] for a match that exists returns. It writes the points
    into the match and touches no other match field; in the history of the
    Aff team and of the Neg team it replaces the entry of the round of the
    match, so that the history has exactly one entry for that round, the
    new one, and the entries of the other rounds as before; and when the
    match has a result it comments out the result lines of the match and
    logs the result anew, with the points. *)
Theorem storeSpeakerPoints_succeeds (s : TournamentManager) (mid : Z) (i : nat)
    (m : Match) (sp : SpeakerPoints) :
  healthy s → find_match (matches s) mid = Some (i, m) → bad_points sp = None →
  ∃ s' a n,
    storeSpeakerPoints mid sp s = Ok tt s'
    ∧ find_team (teams s) (aff_id m) = Some a ∧ find_team (teams s) (neg_id m) = Some n
    ∧ matches s' = alter (set_speaker_points (Some sp)) i (matches s)
    ∧ speaker_points_history <$> teams s'
      = speaker_points_history
        <$> alter (store_history (round_num m) (negPoints sp)) n
              (alter (store_history (round_num m) (affPoints sp)) a (teams s))
    ∧ (∀ pts t,
         filter (λ e, sp_round e = round_num m)
           (speaker_points_history (store_history (round_num m) pts t))
         = [mkSpEntry (round_num m) pts]
         ∧ filter (λ e, sp_round e ≠ round_num m)
             (speaker_points_history (store_history (round_num m) pts t))
           = filter (λ e, sp_round e ≠ round_num m) (speaker_points_history t))
    ∧ (result m = None → result_file_content s' = result_file_content s)
    ∧ (∀ o, result m = Some o →
         result_file_content s'
         = retire_lines mid (result_file_content s) ++ [result_line m o (Some sp)]).
Proof.
  intros Hh Hf Hbad.
  destruct (storeSpeakerPoints_healthy s mid i m sp Hh Hf Hbad)
    as (s' & a & n & Hs & _ & Ha & Hn & Hun & Hrep & Hm & _).
  exists s', a, n. split_and!; try done.
  - pose proof (storeSpeakerPoints_histories s mid i m sp a n Hh Hf Hbad Ha Hn) as Hh'.
    by rewrite Hs in Hh'.
  - intros pts t. apply store_history_round.
  - intros Hres. by apply Hun.
Qed.

Lemma storeSpeakerPoints_succeeds_witness :
  ∃ s' a n,
    storeSpeakerPoints 1 good_points two_teams_paired = Ok tt s'
    ∧ find_team (teams two_teams_paired) (aff_id the_match) = Some a
    ∧ find_team (teams two_teams_paired) (neg_id the_match) = Some n
    ∧ matches s'
      = alter (set_speaker_points (Some good_points)) 0%nat (matches two_teams_paired)
    ∧ speaker_points_history <$> teams s'
      = speaker_points_history
        <$> alter (store_history (round_num the_match) (negPoints good_points)) n
              (alter (store_history (round_num the_match) (affPoints good_points)) a
                 (teams two_teams_paired))
    ∧ (∀ pts t,
         filter (λ e, sp_round e = round_num the_match)
           (speaker_points_history (store_history (round_num the_match) pts t))
         = [mkSpEntry (round_num the_match) pts]
         ∧ filter (λ e, sp_round e ≠ round_num the_match)
             (speaker_points_history (store_history (round_num the_match) pts t))
           = filter (λ e, sp_round e ≠ round_num the_match) (speaker_points_history t))
    ∧ (result the_match = None →
       result_file_content s' = result_file_content two_teams_paired)
    ∧ (∀ o, result the_match = Some o →
         result_file_content s'
         = retire_lines 1 (result_file_content two_teams_paired)
           ++ [result_line the_match o (Some good_points)]).
Proof.
  apply (storeSpeakerPoints_succeeds two_teams_paired 1 0 the_match good_points).
  - apply normal_run_healthy, normal_run_two_teams_paired.
  - vm_compute. reflexivity.
  - vm_compute. reflexivity.
Defined.

(** X7: [recalculateStats], and [reportResult] and [updateResult] without
    speaker points, never change what identifies a team: whether they
    return or throw, every team object keeps its id, name, institution,
    members, break seed and speaker point history, and the teams keep their
    order. *)
Theorem reports_keep_the_identity_of_teams (s : TournamentManager) (mid : Z) :
  kept_fields <$> teams (state_of (recalculateStats s)) = kept_fields <$> teams s
  ∧ (∀ o, kept_fields <$> teams (state_of (reportResult mid o None s))
          = kept_fields <$> teams s)
  ∧ (∀ o, kept_fields <$> teams (state_of (updateResult mid o None s))
          = kept_fields <$> teams s).
Proof.
  split_and!.
  - apply recalculateStats_kept.
  - intros o. apply reportResult_kept.
  - intros o. apply updateResult_kept.
Qed.



(** X9: correcting a result gives the statistics that reporting the right
    result in the first place would have given. On a manager in working
    order and for an unreported match, [reportResult] with one outcome
    followed by [updateResult] with another leaves the same teams, the same
    matches and the same [current_round] as [reportResult] with the second
    outcome alone; all three calls return. *)
Theorem correction_is_as_good_as_the_right_report (s : TournamentManager) (mid : Z)
    (i : nat) (m : Match) (o o' : string) :
  healthy s → find_match (matches s) mid = Some (i, m) → result m = None →
  o = "A" ∨ o = "N" → o' = "A" ∨ o' = "N" →
  ∃ s1 s2 s3,
    reportResult mid o' None s = Ok true s1
    ∧ updateResult mid (Some o) None s1 = Ok true s2
    ∧ reportResult mid o None s = Ok true s3
    ∧ teams s2 = teams s3 ∧ matches s2 = matches s3
    ∧ current_round s2 = current_round s3.
Proof.
  intros Hh Hf Hres Ho Ho'.
  destruct (correction_equals_report s mid i m o o' Hh Hf Hres Ho Ho')
    as (s1 & s2 & s3 & H).
  by exists s1, s2, s3.
Qed.

Lemma correction_is_as_good_as_the_right_report_witness :
  ∃ s1 s2 s3,
    reportResult 1 "A" None two_teams_paired = Ok true s1
    ∧ updateResult 1 (Some "N") None s1 = Ok true s2
    ∧ reportResult 1 "N" None two_teams_paired = Ok true s3
    ∧ teams s2 = teams s3 ∧ matches s2 = matches s3
    ∧ current_round s2 = current_round s3.
Proof.
  apply (correction_is_as_good_as_the_right_report two_teams_paired 1 0 the_match
           "N" "A").
  - apply normal_run_healthy, normal_run_two_teams_paired.
  - vm_compute. reflexivity.
  - reflexivity.
  - by right.
  - by left.
Defined.

(** X10: [getPreliminaryStandings] returns every team once, ordered by
    preliminary wins, then by preliminary Buchholz, both descending. What
    it shows of a team (its id and its three preliminary statistics)
    depends on the ids of the teams and on the matches of the preliminary
    rounds only: two managers that agree on these show the same standings,
    whatever their elimination matches and the other fields of their
    teams. *)
Theorem preliminary_standings (a : TournamentManager) :
  ps_team <$> getPreliminaryStandings a ≡ₚ teams a
  ∧ StronglySorted prelim_order (getPreliminaryStandings a)
  ∧ ∀ b, team_ids (teams a) = team_ids (teams b) →
         prelim_matches a = prelim_matches b →
         prelim_row <$> getPreliminaryStandings a
         = prelim_row <$> getPreliminaryStandings b.
Proof.
  split_and!.
  - apply getPreliminaryStandings_Permutation.
  - apply getPreliminaryStandings_sorted.
  - intros b. apply getPreliminaryStandings_ext.
Qed.

Lemma preliminary_standings_witness :
  prelim_row <$> getPreliminaryStandings round1_reported
  = prelim_row
    <$> getPreliminaryStandings
          (set_matches (matches round1_reported
                        ++ [mkMatch 2 5 0 1 "Team 1" "Team 2" (Some "A") None None])
             round1_reported).
Proof.
  apply (proj2 (proj2 (preliminary_standings round1_reported))).
  - reflexivity.
  - vm_compute. reflexivity.
Defined.

(** X11: the first elimination round on real team objects. On a manager in
    working order with [k ≥ 1] elimination rounds, at least [2 ^ k] teams,
    no break seed assigned yet and the preliminary rounds complete,
    [pairRound] for the round after the last preliminary one returns
    [2 ^ (k - 1)] pairs; the team at position [j] of the preliminary
    standings (from 0) has break seed [j + 1] afterwards, for every
    [j < 2 ^ k]; and in every match of the new round the break seeds of the
    two teams add up to [2 ^ k + 1]. *)
Theorem first_elimination_round (s : TournamentManager) (roundNum : Z) (k : nat)
    (g : Rng) :
  healthy s →
  num_elim_rounds (config s) = Z.of_nat k → (1 ≤ k)%nat →
  roundNum = num_prelim_rounds (config s) + 1 →
  (2 ^ k ≤ length (teams s))%nat →
  Forall (λ t, break_seed t = None) (teams s) →
  (roundNum > 2 → first_incomplete (matches s) roundNum = None) →
  round_matches (matches s) roundNum = [] →
  ∃ pairs g' s',
    pairRound roundNum g s = Ok (pairs, g') s'
    ∧ length pairs = (2 ^ (k - 1))%nat
    ∧ (∀ (j : nat) p, getPreliminaryStandings s !! j = Some p → (j < 2 ^ k)%nat →
         ∃ t, t ∈ teams s' ∧ id t = id (ps_team p)
              ∧ break_seed t = Some (Z.of_nat j + 1))
    ∧ (∀ m, m ∈ matches s' → round_num m = roundNum →
         ∃ a b, seeds_of (teams s') m = (Some a, Some b) ∧ a + b = 2 ^ Z.of_nat k + 1).
Proof.
  intros Hh Hk Hk1 HR Hn Hnone Hprev Hunpaired.
  destruct (first_elim_round s roundNum k g Hh Hk Hk1 HR Hn Hnone Hprev Hunpaired)
    as (pairs & g' & s' & Hr & _ & Hl & Hseeds & Hsum).
  by exists pairs, g', s'.
Qed.

Lemma first_elimination_round_witness :
  ∃ pairs g' s',
    pairRound 1 [] four_team_break = Ok (pairs, g') s'
    ∧ length pairs = (2 ^ (2 - 1))%nat
    ∧ (∀ (j : nat) p, getPreliminaryStandings four_team_break !! j = Some p →
         (j < 2 ^ 2)%nat →
         ∃ t, t ∈ teams s' ∧ id t = id (ps_team p)
              ∧ break_seed t = Some (Z.of_nat j + 1))
    ∧ (∀ m, m ∈ matches s' → round_num m = 1 →
         ∃ a b, seeds_of (teams s') m = (Some a, Some b)
                ∧ a + b = 2 ^ Z.of_nat 2 + 1).
Proof.
  apply (first_elimination_round four_team_break 1 2 []).
  - apply init_healthy.
  - reflexivity.
  - lia.
  - reflexivity.
  - simpl. lia.
  - repeat constructor.
  - lia.
  - reflexivity.
Defined.

(** X12: pairing past the last round when no elimination round is
    configured. The recursive closure [generateBracketPairings] does not
    return on an array of one seed or of none, whatever the depth allowed;
    and [pairRound] for the round after the last preliminary one, on a
    manager with at least one team, no break seed assigned and that round
    unpaired, checks nothing about the round number: it runs into that
    recursion and ends with the stack overflow, having created no match;
    only break seeds have changed. *)
Theorem pairing_past_the_last_round (s : TournamentManager) (roundNum : Z) (g : Rng) :
  Inv s → num_elim_rounds (config s) = 0 →
  roundNum = num_prelim_rounds (config s) + 1 →
  teams s ≠ [] →
  Forall (λ t, break_seed t = None) (teams s) →
  (roundNum > 2 → first_incomplete (matches s) roundNum = None) →
  round_matches (matches s) roundNum = [] →
  (∀ fuel x, generateBracketPairings fuel [] = None
             ∧ generateBracketPairings fuel [x] = None)
  ∧ ∃ ts', pairRound roundNum g s = Throw StackOverflow (set_teams ts' s)
           ∧ team_ids ts' = team_ids (teams s).
Proof.
  intros HI Hk HR Hne Hnone Hprev Hunpaired. split.
  - intros fuel x. split.
    + apply generateBracketPairings_nil.
    + apply generateBracketPairings_singleton.
  - by apply no_elim_round_overflows.
Qed.

Lemma pairing_past_the_last_round_witness :
  (∀ fuel x, generateBracketPairings fuel [] = None
             ∧ generateBracketPairings fuel [x] = None)
  ∧ ∃ ts', pairRound 2 [] (state_of (init 2 1 0 []))
           = Throw StackOverflow (set_teams ts' (state_of (init 2 1 0 [])))
           ∧ team_ids ts' = team_ids (teams (state_of (init 2 1 0 []))).
Proof.
  apply (pairing_past_the_last_round (state_of (init 2 1 0 [])) 2 []).
  - apply init_Inv.
  - reflexivity.
  - reflexivity.
  - discriminate.
  - repeat constructor.
  - lia.
  - reflexivity.
Defined.

(** X13: [findBestOpponent] returns the first candidate of the group that
    [t1] has never met, not swappable; when [t1] has met every candidate,
    the first one against whom [t1] has not yet been on both sides,
    swappable; and when there is none either, no opponent, index [-1]. The
    index returned is the position of the opponent in the group. *)
Theorem findBestOpponent_spec (ts : list Team) (t1 : ref) (group : list ref) :
  findBestOpponent ts t1 group
  = match list_find (never_met ts (ts !!! t1)) group with
    | Some (j, c) => mkBest (Some c) (Z.of_nat j) false
    | None =>
        match list_find (side_left ts (ts !!! t1)) group with
        | Some (j, c) => mkBest (Some c) (Z.of_nat j) true
        | None => mkBest None (-1) false
        end
    end.
Proof.
  unfold findBestOpponent. rewrite findBestOpponent_loop_find.
  destruct (list_find (never_met ts (ts !!! t1)) group) as [[j c]|]; [done|].
  by destruct (list_find (side_left ts (ts !!! t1)) group) as [[j c]|].
Qed.


(** ** Judges *)

Lemma elem_of_alter {A} (f : A → A) i (l : list A) x :
  x ∈ alter f i l ↔
  (∃ j, j ≠ i ∧ l !! j = Some x) ∨ (∃ y, l !! i = Some y ∧ x = f y).
Proof.
  rewrite list_elem_of_lookup. split.
  - intros [j Hj]. destruct (decide (j = i)) as [->|Hne].
    + rewrite list_lookup_alter_eq in Hj. destruct (l !! i) as [y|] eqn:Hy; [|done].
      injection Hj as <-. right. by exists y.
    + rewrite list_lookup_alter_ne in Hj by done. left. by exists j.
  - intros [(j & Hne & Hj)|(y & Hy & ->)].
    + exists j. by rewrite list_lookup_alter_ne.
    + exists i. by rewrite list_lookup_alter_eq, Hy.
Qed.

Lemma checkConsistency_next_judge_id d :
  next_judge_id (state_of (checkConsistency d)) = next_judge_id d.
Proof.
  unfold checkConsistency.
  destruct (pairing_file_content d), (result_file_content _); simpl;
    case_match; done.
Qed.

Lemma save_panel_state {A} (a : A) d js :
  judges (panel_of (save_panel a d js)) = js
  ∧ matches (data (panel_of (save_panel a d js))) = matches d
  ∧ next_judge_id (data (panel_of (save_panel a d js))) = next_judge_id d.
Proof.
  unfold save_panel.
  destruct (checkConsistency_state d) as (_ & Hm & _).
  pose proof (checkConsistency_next_judge_id d) as Hn.
  unfold saveToStorage. by destruct (checkConsistency d).
Qed.

Lemma judges_ok_ext s s' :
  judges s' = judges s → matches (data s') = matches (data s) →
  next_judge_id (data s') = next_judge_id (data s) →
  judges_ok s → judges_ok s'.
Proof. unfold judges_ok. by intros -> -> ->. Qed.

Lemma judges_ok_save {A} (a : A) d js :
  judges_ok (mkPanel d js) → judges_ok (panel_of (save_panel a d js)).
Proof.
  destruct (save_panel_state a d js) as (Hj & Hm & Hn). by apply judges_ok_ext.
Qed.

Section judges_proofs.
Variable trim : string → string.
Variable toLowerCase : string → string.

Lemma addJudge_ok name institution s :
  judges_ok s → judges_ok (panel_of (addJudge trim toLowerCase name institution s)).
Proof.
  intros (Hnd & Hlt & Hb & Hc & Hl). unfold addJudge.
  case_decide; [done|]. case_match; [done|].
  apply judges_ok_save. unfold judges_ok. simpl. split_and!.
  - rewrite fmap_app. apply NoDup_app. split_and!; [done| |by apply NoDup_singleton].
    intros x Hx Hx'. apply list_elem_of_singleton in Hx'. subst x.
    apply list_elem_of_fmap in Hx as (j & Hj & Hin).
    rewrite Forall_forall in Hlt. specialize (Hlt j Hin). simpl in Hj, Hlt.
    rewrite Hj in Hlt. by apply Z.lt_irrefl in Hlt.
  - apply Forall_app. split.
    + eapply Forall_impl; [exact Hlt|]. intros j ?. simpl in *. lia.
    + apply Forall_singleton. simpl. lia.
  - intros m jid Hm Hj. destruct (Hb m jid Hm Hj) as (j & Hin & ?).
    exists j. split; [|done]. apply elem_of_app. by left.
  - intros j mid Hj Hmid. apply elem_of_app in Hj as [Hj|Hj]; [by apply Hc|].
    apply list_elem_of_singleton in Hj. subst j. simpl in Hmid. by inversion Hmid.
  - apply Forall_app. split; [done|]. apply Forall_singleton. simpl. constructor.
Qed.
End judges_proofs.

Lemma find_judge_Some js jid k j :
  find_judge js jid = Some (k, j) → js !! k = Some j ∧ j_id j = jid.
Proof. intros H. apply list_find_Some in H as (? & ? & _). done. Qed.

Lemma judge_ids_unique js k k' j j' :
  NoDup (j_id <$> js) → js !! k = Some j → js !! k' = Some j' → j_id j = j_id j' →
  k = k'.
Proof.
  intros Hnd Hk Hk' Hid.
  eapply NoDup_lookup; [done| |]; rewrite list_lookup_fmap.
  - by rewrite Hk.
  - rewrite Hk'. simpl. by rewrite Hid.
Qed.

Lemma removeJudge_ok judgeId s :
  judges_ok s → judges_ok (panel_of (removeJudge judgeId s)).
Proof.
  intros (Hnd & Hlt & Hb & Hc & Hl). unfold removeJudge.
  destruct (find_judge (judges s) judgeId) as [[k j0]|] eqn:Hf; [|done].
  case_decide as Hlen; [done|].
  apply find_judge_Some in Hf as [Hk Hid].
  assert (matches_judged j0 = []) as Hempty.
  { destruct (matches_judged j0); [done|simpl in Hlen; lia]. }
  apply judges_ok_save. unfold judges_ok. simpl. split_and!.
  - clear -Hnd. induction (judges s) as [|j l IH]; [constructor|].
    csimpl in Hnd. apply NoDup_cons in Hnd as [Hj Hnd].
    destruct (decide (j_id j ≠ judgeId)).
    + rewrite filter_cons_True by done. csimpl. apply NoDup_cons. split; [|by apply IH].
      intros Hin. apply Hj. apply list_elem_of_fmap in Hin as (j' & -> & Hin).
      apply list_elem_of_filter in Hin as [_ Hin]. by apply list_elem_of_fmap_2.
    + rewrite filter_cons_False by done. by apply IH.
  - apply Forall_forall. intros j Hj. apply list_elem_of_filter in Hj as [_ Hj].
    rewrite Forall_forall in Hlt. by apply Hlt.
  - intros m jid Hm Hj. destruct (Hb m jid Hm Hj) as (j & Hin & Hjid & Hmem).
    exists j. split; [|done]. apply list_elem_of_filter. split; [|done].
    intros Heq. apply list_elem_of_lookup in Hin as [k' Hk'].
    assert (k' = k) as -> by (eapply judge_ids_unique; [done..|congruence]).
    assert (j = j0) as -> by congruence. rewrite Hempty in Hmem. by inversion Hmem.
  - intros j mid Hj Hmid. apply list_elem_of_filter in Hj as [_ Hj]. by apply Hc.
  - apply Forall_forall. intros j Hj. apply list_elem_of_filter in Hj as [_ Hj].
    rewrite Forall_forall in Hl. by apply Hl.
Qed.

Lemma omap_alter_all {A B} (f : A → option B) (h : A → A) i (l : list A) :
  (∀ x, f (h x) = f x) → omap f (alter h i l) = omap f l.
Proof.
  intros H. revert i. induction l as [|y l IH]; intros [|i]; csimpl; try done.
  - by rewrite H.
  - by rewrite IH.
Qed.

Lemma healthy_set_judge s i jid :
  healthy s → healthy (set_matches (alter (set_judge_id jid) i (matches s)) s).
Proof.
  intros ((Ht & Hm & Hn) & [Hnd Hlt] & (Hp & Hr & Hpe & Hre) & Hv).
  unfold healthy, Inv, ids_fresh, logs_agree, results_valid.
  cbn [matches set_matches teams next_match_id pairing_file_content
       result_file_content].
  rewrite !fmap_alter_same by done. rewrite omap_alter_all by done.
  split_and!; try done.
  - apply Forall_alter; [exact Hm|]. by intros m _ ?.
  - apply Forall_alter; [exact Hlt|]. by intros m _ ?.
  - apply Forall_alter; [exact Hv|]. by intros m _ ?.
Qed.

Lemma match_ids_unique ms i i' m m' :
  NoDup (match_id <$> ms) → ms !! i = Some m → ms !! i' = Some m' →
  match_id m = match_id m' → i = i'.
Proof.
  intros Hnd Hk Hk' Hid.
  eapply NoDup_lookup; [done| |]; rewrite list_lookup_fmap.
  - by rewrite Hk.
  - rewrite Hk'. simpl. by rewrite Hid.
Qed.

Lemma find_judge_exists js j :
  j ∈ js → ∃ k j', find_judge js (j_id j) = Some (k, j').
Proof.
  intros Hin. unfold find_judge.
  destruct (list_find (λ j0, j_id j0 = j_id j) js) as [[k j']|] eqn:Hf; [by eauto|].
  apply list_find_None in Hf. rewrite Forall_forall in Hf. by destruct (Hf j Hin).
Qed.

(** The two assignments of [unassignJudgeFromMatch]. *)
Lemma unassign_step_ok s matchId i m jid k j0 :
  judges_ok s → NoDup (match_id <$> matches (data s)) →
  matches (data s) !! i = Some m → match_id m = matchId → judge_id m = Some jid →
  judges s !! k = Some j0 → j_id j0 = jid →
  judges_ok
    (mkPanel (set_matches (alter (set_judge_id None) i (matches (data s))) (data s))
       (alter (λ j, set_matches_judged
                      (filter (λ mid, mid ≠ matchId) (matches_judged j)) j)
          k (judges s))).
Proof.
  intros (Hnd & Hlt & Hb & Hc & Hl) Hmnd Hi Hid Hjm Hk Hjid.
  unfold judges_ok.
  cbn [data judges matches set_matches next_judge_id].
  split_and!.
  - by rewrite fmap_alter_same.
  - apply Forall_alter; [exact Hlt|]. by intros j _ ?.
  - intros m' jid' Hm' Hj'. apply elem_of_alter in Hm' as [(i' & Hne & Hi')|(y & _ & ->)];
      [|done].
    destruct (Hb m' jid') as (j1 & Hin & Hj1 & Hmem);
      [by eapply list_elem_of_lookup_2|done|].
    assert (match_id m' ≠ matchId) as Hmid.
    { intros Heq. apply Hne. eapply match_ids_unique; [done..|congruence]. }
    apply list_elem_of_lookup in Hin as [k1 Hk1].
    destruct (decide (k1 = k)) as [->|Hnk].
    + assert (j1 = j0) as -> by congruence.
      eexists. split; [apply elem_of_alter; right; by eexists|].
      split; [done|]. simpl. by apply list_elem_of_filter.
    + exists j1. split; [|done]. apply elem_of_alter. left. by exists k1.
  - intros j mid Hj Hmid. apply elem_of_alter in Hj as [(k1 & Hnk & Hk1)|(y & Hy & ->)].
    + destruct (Hc j mid) as (m' & Hin & Hm' & Hjm'); [by eapply list_elem_of_lookup_2|done|].
      apply list_elem_of_lookup in Hin as [i' Hi'].
      exists m'. split; [|done]. apply elem_of_alter. left. exists i'. split; [|done].
      intros ->. assert (m' = m) as -> by congruence.
      apply Hnk. eapply judge_ids_unique; [done..|congruence].
    + simpl in Hmid. apply list_elem_of_filter in Hmid as [Hne Hmid].
      assert (y = j0) as -> by congruence.
      destruct (Hc j0 mid) as (m' & Hin & Hm' & Hjm'); [by eapply list_elem_of_lookup_2|done|].
      apply list_elem_of_lookup in Hin as [i' Hi'].
      exists m'. split; [|done]. apply elem_of_alter. left. exists i'. split; [|done].
      intros ->. assert (m' = m) as -> by congruence. congruence.
  - apply Forall_alter; [exact Hl|]. intros j _ ?. simpl. by apply NoDup_filter.
Qed.

(** The two assignments of [assignJudgeToMatch]. *)
Lemma assign_step_ok s matchId judgeId i m k j0 :
  judges_ok s → NoDup (match_id <$> matches (data s)) →
  matches (data s) !! i = Some m → match_id m = matchId → judge_id m = None →
  judges s !! k = Some j0 → j_id j0 = judgeId →
  judges_ok
    (mkPanel (set_matches (alter (set_judge_id (Some judgeId)) i (matches (data s)))
                (data s))
       (alter (λ j, if bool_decide (matchId ∈ matches_judged j) then j
                    else set_matches_judged (matches_judged j ++ [matchId]) j)
          k (judges s))).
Proof.
  intros (Hnd & Hlt & Hb & Hc & Hl) Hmnd Hi Hid Hjm Hk Hjid.
  assert (∀ j, j ∈ judges s → matchId ∉ matches_judged j) as Hfree.
  { intros j Hj Hin. destruct (Hc j matchId Hj Hin) as (m' & Hm' & Hid' & Hjm').
    apply list_elem_of_lookup in Hm' as [i' Hi'].
    assert (i' = i) as -> by (eapply match_ids_unique; [done..|congruence]).
    congruence. }
  unfold judges_ok.
  cbn [data judges matches set_matches next_judge_id].
  split_and!.
  - rewrite fmap_alter_same; [done|]. intros j. by case_bool_decide.
  - apply Forall_alter; [exact Hlt|]. intros j _ ?. by case_bool_decide.
  - intros m' jid' Hm' Hj'. apply elem_of_alter in Hm' as [(i' & Hne & Hi')|(y & Hy & ->)].
    + destruct (Hb m' jid') as (j1 & Hin & Hj1 & Hmem);
        [by eapply list_elem_of_lookup_2|done|].
      apply list_elem_of_lookup in Hin as [k1 Hk1].
      destruct (decide (k1 = k)) as [->|Hnk].
      * assert (j1 = j0) as -> by congruence.
        eexists. split; [apply elem_of_alter; right; by eexists|].
        case_bool_decide; [done|]. split; [done|]. simpl. apply elem_of_app. by left.
      * exists j1. split; [|done]. apply elem_of_alter. left. by exists k1.
    + simpl in Hj'. injection Hj' as <-. assert (y = m) as -> by congruence.
      eexists. split; [apply elem_of_alter; right; by eexists|].
      case_bool_decide; (split; [done|]); simpl; rewrite Hid; [done|].
      apply elem_of_app. right. by apply list_elem_of_singleton.
  - intros j mid Hj Hmid. apply elem_of_alter in Hj as [(k1 & Hnk & Hk1)|(y & Hy & ->)].
    + destruct (Hc j mid) as (m' & Hin & Hm' & Hjm'); [by eapply list_elem_of_lookup_2|done|].
      apply list_elem_of_lookup in Hin as [i' Hi'].
      exists m'. split; [|done]. apply elem_of_alter. left. exists i'. split; [|done].
      intros ->. assert (m' = m) as -> by congruence. congruence.
    + assert (y = j0) as -> by congruence.
      assert (matchId ∉ matches_judged j0) as Hnot
        by (apply Hfree; by eapply list_elem_of_lookup_2).
      rewrite bool_decide_false in Hmid |- * by done. simpl in Hmid |- *.
      apply elem_of_app in Hmid as [Hmid|Hmid].
      * destruct (Hc j0 mid) as (m' & Hin & Hm' & Hjm');
          [by eapply list_elem_of_lookup_2|done|].
        apply list_elem_of_lookup in Hin as [i' Hi'].
        exists m'. split; [|done]. apply elem_of_alter. left. exists i'. split; [|done].
        intros ->. assert (m' = m) as -> by congruence. congruence.
      * apply list_elem_of_singleton in Hmid. subst mid.
        exists (set_judge_id (Some judgeId) m). split; [|by rewrite Hjid].
        apply elem_of_alter. right. by exists m.
  - apply Forall_alter; [exact Hl|]. intros j Hj Hndj. case_bool_decide; [done|].
    simpl. apply NoDup_app. split_and!; [done| |apply NoDup_singleton].
    intros x Hx Hx'. apply list_elem_of_singleton in Hx'. by subst x.
Qed.

Lemma unassignJudgeFromMatch_ok matchId s :
  judges_ok s → NoDup (match_id <$> matches (data s)) →
  judges_ok (panel_of (unassignJudgeFromMatch matchId s)).
Proof.
  intros Hok Hmnd. unfold unassignJudgeFromMatch.
  destruct (find_match (matches (data s)) matchId) as [[i m]|] eqn:Hf; [|done].
  apply find_match_Some in Hf as [Hi Hid].
  destruct (judge_id m) as [jid|] eqn:Hjm; [|done].
  apply judges_ok_save.
  destruct Hok as (Hnd & Hlt & Hb & Hc & Hl).
  destruct (Hb m jid) as (j1 & Hin & Hj1 & _); [by eapply list_elem_of_lookup_2|done|].
  destruct (find_judge_exists _ _ Hin) as (k & j0 & Hfj). rewrite Hj1 in Hfj.
  rewrite Hfj. apply find_judge_Some in Hfj as [Hk Hj0].
  by eapply unassign_step_ok.
Qed.

Lemma unassignJudgeFromMatch_match_ids matchId s :
  match_id <$> matches (data (panel_of (unassignJudgeFromMatch matchId s)))
  = match_id <$> matches (data s).
Proof.
  unfold unassignJudgeFromMatch.
  destruct (find_match (matches (data s)) matchId) as [[i m]|]; [|done].
  destruct (judge_id m); [|done].
  match goal with |- context [save_panel ?a ?d ?js] =>
    destruct (save_panel_state a d js) as (_ & -> & _) end.
  simpl. by rewrite fmap_alter_same.
Qed.

Lemma assignJudgeToMatch_ok matchId judgeId s :
  judges_ok s → NoDup (match_id <$> matches (data s)) →
  judges_ok (panel_of (assignJudgeToMatch matchId judgeId s)).
Proof.
  intros Hok Hmnd. unfold assignJudgeToMatch.
  destruct (find_match (matches (data s)) matchId) as [[i m]|] eqn:Hf; [|done].
  destruct (find_judge (judges s) judgeId) as [[k j0]|] eqn:Hfj; [|done].
  set (r := match judge_id m with
            | Some _ => unassignJudgeFromMatch matchId s
            | None => JOk tt s
            end).
  assert (judges_ok (panel_of r)
          ∧ match_id <$> matches (data (panel_of r)) = match_id <$> matches (data s)
          ∧ (∃ m1, matches (data (panel_of r)) !! i = Some m1
                   ∧ match_id m1 = matchId
                   ∧ (∀ a s1, r = JOk a s1 → judge_id m1 = None))
          ∧ ∃ j1, judges (panel_of r) !! k = Some j1 ∧ j_id j1 = judgeId)
    as (Hok1 & Hids & (m1 & Hi1 & Hid1 & Hnone) & (j1 & Hk1 & Hjid1)).
  { apply find_match_Some in Hf as [Hi Hid]. apply find_judge_Some in Hfj as [Hk Hjid].
    subst r. destruct (judge_id m) as [jid|] eqn:Hjm.
    - split; [by apply unassignJudgeFromMatch_ok|].
      split; [apply unassignJudgeFromMatch_match_ids|].
      unfold unassignJudgeFromMatch.
      destruct (find_match (matches (data s)) matchId) as [[i' m']|] eqn:Hf'.
      2:{ apply list_find_None in Hf'. rewrite Forall_forall in Hf'.
          destruct (Hf' m); [by eapply list_elem_of_lookup_2|done]. }
      apply find_match_Some in Hf' as [Hi' Hid'].
      assert (i' = i) as -> by (eapply match_ids_unique; [done..|congruence]).
      assert (m' = m) as -> by congruence. rewrite Hjm.
      match goal with |- context [save_panel ?a ?d ?js] =>
        destruct (save_panel_state a d js) as (-> & -> & _) end.
      cbn [matches set_matches]. split.
      + exists (set_judge_id None m). rewrite list_lookup_alter_eq, Hi. done.
      + destruct (find_judge (judges s) jid) as [[k' ?]|].
        * destruct (decide (k = k')) as [<-|Hne].
          -- eexists. rewrite list_lookup_alter_eq, Hk. done.
          -- exists j0. by rewrite list_lookup_alter_ne.
        * by exists j0.
    - simpl. split_and!; [done|done| |by exists j0].
      exists m. done. }
  destruct r as [[] s1|e s1] eqn:Hr; [|done].
  simpl in *. apply judges_ok_save.
  eapply assign_step_ok; try done.
  - by rewrite Hids.
  - by eapply Hnone.
Qed.

Lemma alter_fixed {A} (f : A → A) i (l : list A) x :
  l !! i = Some x → f x = x → alter f i l = l.
Proof.
  intros Hi Hf. rewrite (alter_middle _ _ _ _ Hi), Hf. by apply take_drop_middle.
Qed.

Lemma find_judge_alter js jid k j (f : Judge → Judge) :
  (∀ x, j_id (f x) = j_id x) →
  find_judge js jid = Some (k, j) → find_judge (alter f k js) jid = Some (k, f j).
Proof.
  intros Hid Hf. apply list_find_Some in Hf as (Hi & Hm & Hlt).
  apply list_find_Some. split_and!.
  - by rewrite list_lookup_alter_eq, Hi.
  - by rewrite Hid.
  - intros i' x Hx Hlt'. rewrite list_lookup_alter_ne in Hx by lia. by eapply Hlt.
Qed.

Lemma healthy_set_next_judge_id n s : healthy s → healthy (set_next_judge_id n s).
Proof. done. Qed.

Lemma one_judge_panel_healthy : healthy (data one_judge_panel).
Proof.
  apply healthy_set_next_judge_id, normal_run_healthy, normal_run_two_teams_paired.
Qed.

Lemma one_judge_panel_ok : judges_ok one_judge_panel.
Proof.
  unfold judges_ok. split_and!.
  - apply NoDup_singleton.
  - apply Forall_singleton. reflexivity.
  - intros m jid Hm Hj. apply list_elem_of_singleton in Hm. by subst m.
  - intros j mid Hj Hmid. apply list_elem_of_singleton in Hj. subst j.
    by apply elem_of_nil in Hmid.
  - apply Forall_singleton. constructor.
Qed.

Lemma one_judge_panel_ids : NoDup (match_id <$> matches (data one_judge_panel)).
Proof. apply NoDup_singleton. Qed.

(** What [assignJudgeToMatch] returns on a manager in working order. *)
Lemma assignJudgeToMatch_Ok s matchId judgeId i m k j :
  healthy (data s) →
  find_match (matches (data s)) matchId = Some (i, m) →
  find_judge (judges s) judgeId = Some (k, j) →
  assignJudgeToMatch matchId judgeId s
  = JOk tt
      (mkPanel
         (set_matches (alter (set_judge_id (Some judgeId)) i (matches (data s))) (data s))
         (alter (λ j, if bool_decide (matchId ∈ matches_judged j) then j
                      else set_matches_judged (matches_judged j ++ [matchId]) j)
            k
            (match judge_id m with
             | Some jid =>
                 match find_judge (judges s) jid with
                 | Some (k0, _) =>
                     alter (λ j, set_matches_judged
                                   (filter (λ mid, mid ≠ matchId) (matches_judged j)) j)
                       k0 (judges s)
                 | None => judges s
                 end
             | None => judges s
             end))).
Proof.
  intros Hh Hf Hfj. unfold assignJudgeToMatch. rewrite Hf, Hfj.
  destruct (judge_id m) as [jid|] eqn:Hjm.
  - unfold unassignJudgeFromMatch. rewrite Hf, Hjm. unfold save_panel.
    rewrite (healthy_save _ (healthy_set_judge (data s) i None Hh)).
    cbn [data judges].
    pose proof (healthy_set_judge _ i (Some judgeId)
                  (healthy_set_judge (data s) i None Hh)) as Hh2.
    rewrite (healthy_save _ Hh2).
    cbn [matches set_matches]. rewrite list_alter_alter_eq. reflexivity.
  - unfold save_panel. cbn [data judges].
    by rewrite (healthy_save _ (healthy_set_judge (data s) i (Some judgeId) Hh)).
Qed.

Lemma filter_remove_added (matchId : Z) (l : list Z) :
  filter (λ mid, mid ≠ matchId) (l ++ [matchId]) = filter (λ mid, mid ≠ matchId) l.
Proof.
  rewrite filter_app, (filter_cons_False _ matchId []) by (intros H; by apply H).
  by rewrite app_nil_r.
Qed.

Lemma filter_absent (matchId : Z) (l : list Z) :
  matchId ∉ l → filter (λ mid, mid ≠ matchId) l = l.
Proof.
  induction l as [|x l IH]; [done|]. intros Hnot.
  apply not_elem_of_cons in Hnot as [Hne Hnot].
  rewrite filter_cons_True by done. by rewrite IH.
Qed.

Lemma removed_judge_filter (js : list Judge) k j :
  NoDup (j_id <$> js) → js !! k = Some j →
  filter (λ j', j_id j' ≠ j_id j) js = take k js ++ drop (S k) js.
Proof.
  revert k. induction js as [|x js IH]; intros k Hnd Hk; [done|].
  csimpl in Hnd. apply NoDup_cons in Hnd as [Hx Hnd]. destruct k as [|k].
  - simpl in Hk. injection Hk as ->. rewrite filter_cons_False by (intros H; by apply H).
    simpl. rewrite drop_0. clear IH Hnd. induction js as [|y js IH]; [done|].
    csimpl in Hx. apply not_elem_of_cons in Hx as [Hne Hx].
    rewrite filter_cons_True by done. by rewrite IH.
  - simpl in Hk. rewrite filter_cons_True.
    + simpl. by rewrite (IH k).
    + intros Heq. apply Hx. rewrite Heq. apply list_elem_of_fmap_2.
      by eapply list_elem_of_lookup_2.
Qed.

Lemma assignJudgeToMatch_match_ids matchId judgeId s :
  match_id <$> matches (data (panel_of (assignJudgeToMatch matchId judgeId s)))
  = match_id <$> matches (data s).
Proof.
  unfold assignJudgeToMatch.
  destruct (find_match (matches (data s)) matchId) as [[i m]|]; [|done].
  destruct (find_judge (judges s) judgeId) as [[k j0]|]; [|done].
  pose proof (unassignJudgeFromMatch_match_ids matchId s) as Hu.
  destruct (judge_id m).
  - destruct (unassignJudgeFromMatch matchId s) as [[] s1|e s1]; [|done].
    match goal with |- context [save_panel ?a ?d ?js] =>
      destruct (save_panel_state a d js) as (_ & -> & _) end.
    cbn [matches set_matches]. by rewrite fmap_alter_same.
  - match goal with |- context [save_panel ?a ?d ?js] =>
      destruct (save_panel_state a d js) as (_ & -> & _) end.
    cbn [matches set_matches]. by rewrite fmap_alter_same.
Qed.

Lemma judge_rest_alter_remove matchId (k : nat) (js : list Judge) :
  judge_rest matchId
  <$> alter (λ j, set_matches_judged
                    (filter (λ mid, mid ≠ matchId) (matches_judged j)) j) k js
  = judge_rest matchId <$> js.
Proof.
  apply fmap_alter_same. intros j. unfold judge_rest. simpl. by rewrite filter_idemp.
Qed.

Lemma judge_rest_alter_add matchId (k : nat) (js : list Judge) :
  judge_rest matchId
  <$> alter (λ j, if bool_decide (matchId ∈ matches_judged j) then j
                  else set_matches_judged (matches_judged j ++ [matchId]) j) k js
  = judge_rest matchId <$> js.
Proof.
  apply fmap_alter_same. intros j. case_bool_decide; [done|].
  unfold judge_rest. simpl. by rewrite filter_remove_added.
Qed.

(** ** Judges *)

(** X15: the judge bookkeeping is kept by every judge operation, whether
    it returns or throws: no two judges share an id, [next_judge_id] is
    above every judge id, a match that names a judge is in that judge's
    list, and a judge lists only matches that name him, each once. *)
Theorem judge_bookkeeping_is_kept (trim toLowerCase : string → string) s :
  panel_ok s →
  (∀ name institution,
     panel_ok (panel_of (addJudge trim toLowerCase name institution s)))
  ∧ (∀ judgeId, panel_ok (panel_of (removeJudge judgeId s)))
  ∧ (∀ matchId judgeId, panel_ok (panel_of (assignJudgeToMatch matchId judgeId s)))
  ∧ (∀ matchId, panel_ok (panel_of (unassignJudgeFromMatch matchId s))).
Proof.
  intros [Hok Hnd]. split_and!.
  - intros name institution. split; [by apply addJudge_ok|].
    unfold addJudge. case_decide; [done|]. case_match; [done|].
    match goal with |- context [save_panel ?a ?d ?js] =>
      destruct (save_panel_state a d js) as (_ & -> & _) end.
    done.
  - intros judgeId. split; [by apply removeJudge_ok|].
    unfold removeJudge. destruct (find_judge _ _) as [[k j]|]; [|done].
    case_decide; [done|].
    match goal with |- context [save_panel ?a ?d ?js] =>
      destruct (save_panel_state a d js) as (_ & -> & _) end.
    done.
  - intros matchId judgeId. split; [by apply assignJudgeToMatch_ok|].
    by rewrite assignJudgeToMatch_match_ids.
  - intros matchId. split; [by apply unassignJudgeFromMatch_ok|].
    by rewrite unassignJudgeFromMatch_match_ids.
Qed.

Lemma judge_bookkeeping_is_kept_witness :
  (∀ name institution,
     panel_ok (panel_of (addJudge (λ x, x) (λ x, x) name institution one_judge_panel)))
  ∧ (∀ judgeId, panel_ok (panel_of (removeJudge judgeId one_judge_panel)))
  ∧ (∀ matchId judgeId,
       panel_ok (panel_of (assignJudgeToMatch matchId judgeId one_judge_panel)))
  ∧ (∀ matchId, panel_ok (panel_of (unassignJudgeFromMatch matchId one_judge_panel))).
Proof.
  apply (judge_bookkeeping_is_kept (λ x, x) (λ x, x) one_judge_panel).
  split; [apply one_judge_panel_ok|apply one_judge_panel_ids].
Defined.

(** X16: on a manager in working order, assigning an existing judge to an
    existing match returns; afterwards the match names that judge and
    nothing else of the manager's data has changed, the judge and no other
    judge lists the match, and apart from this match every judge is as
    before. *)
Theorem assignJudgeToMatch_succeeds s matchId judgeId i m k j :
  healthy (data s) → judges_ok s →
  find_match (matches (data s)) matchId = Some (i, m) →
  find_judge (judges s) judgeId = Some (k, j) →
  ∃ s',
    assignJudgeToMatch matchId judgeId s = JOk tt s'
    ∧ data s'
      = set_matches (alter (set_judge_id (Some judgeId)) i (matches (data s))) (data s)
    ∧ healthy (data s')
    ∧ judges_ok s'
    ∧ (∀ j', j' ∈ judges s' → matchId ∈ matches_judged j' ↔ j_id j' = judgeId)
    ∧ judge_rest matchId <$> judges s' = judge_rest matchId <$> judges s.
Proof.
  intros Hh Hok Hf Hfj.
  assert (NoDup (match_id <$> matches (data s))) as Hnd by apply Hh.
  pose proof (assignJudgeToMatch_ok matchId judgeId s Hok Hnd) as Hok'.
  rewrite (assignJudgeToMatch_Ok s matchId judgeId i m k j Hh Hf Hfj) in Hok' |- *.
  eexists. split; [reflexivity|]. cbn [data judges panel_of] in Hok' |- *.
  split; [done|]. split; [by apply healthy_set_judge|]. split; [done|].
  apply find_match_Some in Hf as [Hi Hid].
  split.
  - destruct Hok' as (Hnd' & _ & Hb & Hc & _). cbn [data judges matches set_matches] in *.
    intros j' Hj'. split.
    + intros Hin. destruct (Hc j' matchId Hj' Hin) as (m' & Hm' & Hid' & Hjm').
      apply elem_of_alter in Hm' as [(i' & Hne & Hi')|(y & Hy & ->)].
      * destruct Hne. eapply match_ids_unique; [done..|congruence].
      * simpl in Hjm'. congruence.
    + intros Hjid.
      destruct (Hb (set_judge_id (Some judgeId) m) judgeId) as (j1 & Hj1 & Hid1 & Hin1);
        [apply elem_of_alter; right; by exists m|done|].
      apply list_elem_of_lookup in Hj' as [k' Hk'].
      apply list_elem_of_lookup in Hj1 as [k1 Hk1].
      assert (k' = k1) as -> by (eapply judge_ids_unique; [done..|congruence]).
      assert (j' = j1) as -> by congruence. simpl in Hin1. by rewrite Hid in Hin1.
  - rewrite judge_rest_alter_add. destruct (judge_id m); [|done].
    destruct (find_judge (judges s) z) as [[k0 ?]|]; [|done].
    apply judge_rest_alter_remove.
Qed.

Lemma assignJudgeToMatch_succeeds_witness :
  ∃ s',
    assignJudgeToMatch 1 1 one_judge_panel = JOk tt s'
    ∧ data s'
      = set_matches (alter (set_judge_id (Some 1)) 0%nat (matches (data one_judge_panel)))
          (data one_judge_panel)
    ∧ healthy (data s')
    ∧ judges_ok s'
    ∧ (∀ j', j' ∈ judges s' → 1 ∈ matches_judged j' ↔ j_id j' = 1)
    ∧ judge_rest 1 <$> judges s' = judge_rest 1 <$> judges one_judge_panel.
Proof.
  apply (assignJudgeToMatch_succeeds one_judge_panel 1 1 0 the_match 0
           (mkJudge 1 "Ann" "Tournament Hire" [])).
  - apply one_judge_panel_healthy.
  - apply one_judge_panel_ok.
  - reflexivity.
  - reflexivity.
Defined.

(** X17: assigning a judge to a match that has none and then unassigning
    the match gives back the panel as it was. *)
Theorem unassign_undoes_assign s matchId judgeId i m k j :
  healthy (data s) → judges_ok s →
  find_match (matches (data s)) matchId = Some (i, m) → judge_id m = None →
  find_judge (judges s) judgeId = Some (k, j) →
  ∃ s1,
    assignJudgeToMatch matchId judgeId s = JOk tt s1
    ∧ unassignJudgeFromMatch matchId s1 = JOk tt s.
Proof.
  intros Hh Hok Hf Hjm Hfj.
  assert (NoDup (match_id <$> matches (data s))) as Hnd by apply Hh.
  rewrite (assignJudgeToMatch_Ok s matchId judgeId i m k j Hh Hf Hfj), Hjm.
  eexists. split; [reflexivity|].
  unfold unassignJudgeFromMatch. cbn [data judges matches set_matches].
  rewrite (find_match_alter _ _ _ _ (set_judge_id (Some judgeId)) (λ _, eq_refl) Hf).
  cbn [judge_id set_judge_id].
  erewrite find_judge_alter; [|by intros x; case_bool_decide|exact Hfj].
  rewrite !list_alter_alter_eq.
  apply find_match_Some in Hf as [Hi Hid]. apply find_judge_Some in Hfj as [Hk Hjid].
  assert (matchId ∉ matches_judged j) as Hfree.
  { intros Hin. destruct Hok as (_ & _ & _ & Hc & _).
    destruct (Hc j matchId) as (m' & Hm' & Hid' & Hjm');
      [by eapply list_elem_of_lookup_2|done|].
    apply list_elem_of_lookup in Hm' as [i' Hi'].
    assert (i' = i) as -> by (eapply match_ids_unique; [done..|congruence]).
    congruence. }
  rewrite (alter_fixed _ i (matches (data s)) m Hi);
    [|destruct m; simpl in *; by subst].
  rewrite (alter_fixed _ k (judges s) j Hk).
  2:{ simpl. rewrite bool_decide_false by done. unfold set_matches_judged. simpl.
      rewrite filter_remove_added, filter_absent by done. by destruct j. }
  match goal with |- save_panel _ ?d _ = _ =>
    assert (d = data s) as -> by by destruct (data s) end.
  unfold save_panel. rewrite (healthy_save _ Hh). by destruct s.
Qed.

Lemma unassign_undoes_assign_witness :
  ∃ s1,
    assignJudgeToMatch 1 1 one_judge_panel = JOk tt s1
    ∧ unassignJudgeFromMatch 1 s1 = JOk tt one_judge_panel.
Proof.
  apply (unassign_undoes_assign one_judge_panel 1 1 0 the_match 0
           (mkJudge 1 "Ann" "Tournament Hire" [])).
  - apply one_judge_panel_healthy.
  - apply one_judge_panel_ok.
  - reflexivity.
  - reflexivity.
  - reflexivity.
Defined.

(** X18: on a manager in working order a judge is removed exactly when no
    match names him: if some match does, [removeJudge] throws and changes
    nothing; if none does, it returns and the judges are the former ones
    without that judge, in the same order. *)
Theorem removeJudge_spec s k j :
  healthy (data s) → judges_ok s → judges s !! k = Some j →
  (Exists (λ m, judge_id m = Some (j_id j)) (matches (data s)) →
   removeJudge (j_id j) s
   = JThrow (JudgeIsAssigned (j_id j) (length (matches_judged j))) s
   ∧ (0 < length (matches_judged j))%nat)
  ∧ (¬ Exists (λ m, judge_id m = Some (j_id j)) (matches (data s)) →
     removeJudge (j_id j) s
     = JOk tt (mkPanel (data s) (take k (judges s) ++ drop (S k) (judges s)))).
Proof.
  intros Hh (Hnd & Hlt & Hb & Hc & Hl) Hk.
  assert (find_judge (judges s) (j_id j) = Some (k, j)) as Hfj.
  { destruct (find_judge_exists (judges s) j) as (k' & j' & Hf);
      [by eapply list_elem_of_lookup_2|].
    rewrite Hf. apply find_judge_Some in Hf as [Hk' Hid].
    assert (k' = k) as -> by (eapply judge_ids_unique; [done..|congruence]).
    congruence. }
  unfold removeJudge. rewrite Hfj. split.
  - intros Hex. apply Exists_exists in Hex as (m & Hm & Hjm).
    destruct (Hb m (j_id j) Hm Hjm) as (j1 & Hj1 & Hid1 & Hin1).
    apply list_elem_of_lookup in Hj1 as [k1 Hk1].
    assert (k1 = k) as -> by (eapply judge_ids_unique; [done..|congruence]).
    assert (j1 = j) as -> by congruence.
    assert (0 < length (matches_judged j))%nat as Hlen.
    { destruct (matches_judged j); [by apply elem_of_nil in Hin1|simpl; lia]. }
    by rewrite decide_True.
  - intros Hex. rewrite decide_False.
    + unfold save_panel. rewrite (healthy_save _ Hh).
      by rewrite (removed_judge_filter (judges s) k j).
    + intros Hlen. apply Hex.
      destruct (matches_judged j) as [|mid l] eqn:Hmj; [simpl in Hlen; lia|].
      destruct (Hc j mid) as (m & Hm & _ & Hjm);
        [by eapply list_elem_of_lookup_2|rewrite Hmj; by left|].
      apply Exists_exists. by exists m.
Qed.

Lemma removeJudge_spec_witness :
  (Exists (λ m, judge_id m = Some 1) (matches (data one_judge_panel)) →
   removeJudge 1 one_judge_panel = JThrow (JudgeIsAssigned 1 0) one_judge_panel
   ∧ (0 < 0)%nat)
  ∧ (¬ Exists (λ m, judge_id m = Some 1) (matches (data one_judge_panel)) →
     removeJudge 1 one_judge_panel = JOk tt (mkPanel (data one_judge_panel) [])).
Proof.
  apply (removeJudge_spec one_judge_panel 0 (mkJudge 1 "Ann" "Tournament Hire" [])).
  - apply one_judge_panel_healthy.
  - apply one_judge_panel_ok.
  - reflexivity.
Defined.

(** X19: on a manager in working order, a name that is not blank and whose
    lower-case form no judge has is accepted: the new judge gets the id
    [next_judge_id], which no judge of the panel has, the trimmed name, the
    trimmed institution or "Tournament Hire" when that is empty, and no
    match; he is added after the other judges and [next_judge_id] goes up
    by one. *)
Theorem addJudge_succeeds (trim toLowerCase : string → string) s name institution :
  healthy (data s) → judges_ok s →
  name ≠ "" → trim name ≠ "" →
  Forall (λ j, toLowerCase (j_name j) ≠ toLowerCase name) (judges s) →
  ∃ judge,
    addJudge trim toLowerCase name institution s
    = JOk judge
        (mkPanel (set_next_judge_id (next_judge_id (data s) + 1) (data s))
           (judges s ++ [judge]))
    ∧ judge
      = mkJudge (next_judge_id (data s)) (trim name)
          (if decide (trim institution = "") then "Tournament Hire"
           else trim institution) []
    ∧ j_id judge ∉ j_id <$> judges s.
Proof.
  intros Hh (Hnd & Hlt & _) Hn Ht Hnew. eexists. split_and!; [|reflexivity|].
  - unfold addJudge. rewrite decide_False by (intros [?|?]; done).
    assert (existsb (λ j, bool_decide (toLowerCase (j_name j) = toLowerCase name))
              (judges s) = false) as ->.
    { clear -Hnew. induction Hnew as [|j l Hj _ IH]; [done|]. simpl.
      by rewrite bool_decide_false, IH. }
    unfold save_panel.
    by rewrite (healthy_save _ (healthy_set_next_judge_id _ _ Hh)).
  - simpl. intros Hin. apply list_elem_of_fmap in Hin as (j & Hid & Hj).
    rewrite Forall_forall in Hlt. specialize (Hlt j Hj). rewrite <-Hid in Hlt.
    by apply Z.lt_irrefl in Hlt.
Qed.

Lemma addJudge_succeeds_witness :
  ∃ judge,
    addJudge (λ x, x) (λ x, x) "Bea" "" one_judge_panel
    = JOk judge
        (mkPanel (set_next_judge_id (next_judge_id (data one_judge_panel) + 1)
                    (data one_judge_panel))
           (judges one_judge_panel ++ [judge]))
    ∧ judge = mkJudge (next_judge_id (data one_judge_panel)) "Bea" "Tournament Hire" []
    ∧ j_id judge ∉ j_id <$> judges one_judge_panel.
Proof.
  apply (addJudge_succeeds (λ x, x) (λ x, x) one_judge_panel "Bea" "").
  - apply one_judge_panel_healthy.
  - apply one_judge_panel_ok.
  - discriminate.
  - discriminate.
  - apply Forall_singleton. discriminate.
Defined.

Lemma fill_logs_healthy d : healthy d → fill_logs d = d.
Proof.
  intros (_ & _ & (_ & _ & Hp & Hr) & _). unfold fill_logs.
  destruct (pairing_file_content d) eqn:Hpc; [done|].
  by destruct (result_file_content d) eqn:Hrc.
Qed.

Lemma checkConsistency_fill_logs d :
  checkConsistency d
  = if validatePairingRedundancy (matches (fill_logs d)) (pairing_file_content (fill_logs d))
       && validateResultRedundancy (matches (fill_logs d))
            (result_file_content (fill_logs d))
    then Ok tt (fill_logs d) else Throw RedundancyCheckFailed (fill_logs d).
Proof. reflexivity. Qed.

Lemma import_team_as_built t : as_built t → import_team t = t.
Proof.
  intros (Hi & Hm & Hs). unfold import_team, new_Team. simpl.
  rewrite !(decide_False (P := institution t = "")) by done.
  rewrite !(decide_True (P := length (members t) = 2%nat)) by done.
  destruct t as [? ? ? ? ? ? ? ? ? ? ? ? [[| |]|] ?]; simpl in *; done.
Qed.

Lemma import_judge_hired j : j_institution j ≠ "" → import_judge j = j.
Proof.
  intros Hi. unfold import_judge, new_Judge, set_matches_judged. simpl.
  rewrite decide_False by done. by destruct j.
Qed.

Lemma fmap_fixed {A} (f : A → A) (P : A → Prop) (l : list A) :
  (∀ x, P x → f x = x) → Forall P l → f <$> l = l.
Proof.
  intros Hf. induction 1 as [|x l Hx _ IH]; [done|]. csimpl. by rewrite Hf, IH.
Qed.

(** ** Export and import *)

(** X20: on a manager in working order whose teams have an institution, two
    members and no break seed 0, whose judges have an institution and whose
    [next_judge_id] is not 0, [exportData] changes nothing and [importData]
    of what it returns, into whatever manager, gives back exactly the data,
    teams and judges exported. *)
Theorem import_of_export_restores s s0 :
  healthy (data s) → Forall as_built (teams (data s)) →
  Forall (λ j, j_institution j ≠ "") (judges s) → next_judge_id (data s) ≠ 0 →
  (exportData s).2 = s ∧ importData (exportData s).1 s0 = JOk tt s.
Proof.
  intros Hh Hts Hjs Hn. unfold exportData. rewrite (fill_logs_healthy _ Hh).
  cbn [fst snd]. split; [by destruct s|].
  unfold importData. cbn [ex_data ex_judges]. rewrite (fill_logs_healthy _ Hh).
  rewrite decide_False by done.
  pose proof (healthy_save _ Hh) as Hsave. unfold saveToStorage in Hsave.
  rewrite checkConsistency_fill_logs, (fill_logs_healthy _ Hh) in Hsave.
  destruct (validatePairingRedundancy _ _ && validateResultRedundancy _ _); [|done].
  rewrite (fmap_fixed import_team as_built) by (done || apply import_team_as_built).
  rewrite (fmap_fixed import_judge (λ j, j_institution j ≠ ""))
    by (done || apply import_judge_hired).
  rewrite set_teams_same. unfold save_panel. rewrite (healthy_save _ Hh). by destruct s.
Qed.

Lemma import_of_export_restores_witness :
  (exportData one_judge_panel).2 = one_judge_panel
  ∧ importData (exportData one_judge_panel).1 (mkPanel four_team_break [])
    = JOk tt one_judge_panel.
Proof.
  apply (import_of_export_restores one_judge_panel (mkPanel four_team_break [])).
  - apply one_judge_panel_healthy.
  - repeat constructor; discriminate.
  - repeat constructor; discriminate.
  - discriminate.
Defined.

(** ** Participant standings: the other methods *)






(** ** The simulations *)

Section tally.
Context {W : Type}.
Variable runTournament : W → list Simulator.Team * W.
Variable aWins : nat → Simulator.Team → Simulator.Team → W → bool * W.

Lemma record_matchup_adds_up targetRound teamA teamB acc :
  tally_adds_up acc.1 →
  tally_adds_up (Simulator.record_matchup aWins targetRound teamA teamB acc).1
  ∧ Simulator.totalSims (Simulator.record_matchup aWins targetRound teamA teamB acc).1
    = Simulator.totalSims acc.1.
Proof.
  intros (H1 & H2 & H3 & H4 & H5). unfold Simulator.record_matchup.
  case_decide; [|done]. destruct (aWins _ _ _ _) as [won w'].
  unfold tally_adds_up. simpl. rewrite !length_app. simpl.
  destruct won; split_and!; lia.
Qed.

Lemma foldl_invariant {A B} (P : A → Prop) (f : A → B → A) (l : list B) a :
  (∀ a b, P a → P (f a b)) → P a → P (foldl f a l).
Proof. intros Hf. revert a. induction l as [|b l IH]; simpl; auto. Qed.

Lemma one_tournament_adds_up historyA historyB acc :
  tally_adds_up acc.1 →
  tally_adds_up (Simulator.one_tournament runTournament aWins historyA historyB acc).1.
Proof.
  intros Hacc. unfold Simulator.one_tournament.
  destruct (runTournament acc.2) as [teams w].
  apply (foldl_invariant (λ a : Simulator.Tally * W, tally_adds_up a.1)); [|done].
  intros a teamA Ha. case_decide; [done|].
  apply (foldl_invariant (λ a : Simulator.Tally * W, tally_adds_up a.1)); [|done].
  intros a' teamB Ha'. by apply record_matchup_adds_up.
Qed.

Lemma one_batch_adds_up historyA historyB acc :
  tally_adds_up acc.1 →
  tally_adds_up (Simulator.one_batch runTournament aWins historyA historyB acc).1.
Proof.
  intros Hacc. unfold Simulator.one_batch. generalize Simulator.batchSize. intros n.
  assert (tally_adds_up
            (Nat.iter n
               (Simulator.one_tournament runTournament aWins historyA historyB) acc).1)
    as (H1 & H2 & H3 & H4 & H5).
  { induction n as [|n IH]; [done|].
    rewrite Nat.iter_succ. by apply one_tournament_adds_up. }
  unfold tally_adds_up. cbn [fst Simulator.matchupCount Simulator.teamAWins
    Simulator.teamBWins Simulator.teamARanks Simulator.teamBRanks]. done.
Qed.

Lemma run_adds_up historyA historyB maxSims minMatchups w :
  let r := Simulator.run runTournament aWins historyA historyB maxSims minMatchups w in
  tally_adds_up r.1
  ∧ (Simulator.totalSims r.1 = 0 ∨ Simulator.totalSims r.1 < maxSims + 100)
  ∧ (minMatchups ≤ 0 ∨ maxSims ≤ 0 → r = (Simulator.mkTally 0 0 0 0 [] [], w)).
Proof.
  intros r. subst r. unfold Simulator.run.
  destruct (while_loop_batches runTournament aWins historyA historyB maxSims minMatchups
              (Simulator.mkTally 0 0 0 0 [] [], w)) as (n & Hn & Hk).
  rewrite Hn. split_and!.
  - clear Hn Hk. induction n as [|n IH].
    + unfold tally_adds_up. simpl. lia.
    + rewrite Nat.iter_succ. by apply one_batch_adds_up.
  - rewrite iter_batches_totalSims. simpl. destruct n as [|n]; [left; lia|right].
    destruct (Hk n ltac:(lia)) as [Hlt _].
    rewrite iter_batches_totalSims in Hlt. simpl in Hlt. lia.
  - intros Hle. destruct n as [|n]; [done|].
    destruct (Hk 0%nat ltac:(lia)) as [Hlt Hlt']. simpl in Hlt, Hlt'. lia.
Qed.

End tally.

Lemma sum_counts_empty : sum_counts ∅ = 0.
Proof. unfold sum_counts. by rewrite map_fold_empty. Qed.

Lemma sum_counts_insert_fresh (m : gmap Z Z) k v :
  m !! k = None → sum_counts (<[k := v]> m) = sum_counts m + v.
Proof.
  intros Hk. unfold sum_counts. rewrite map_fold_insert_L; [done| |done].
  intros. lia.
Qed.

Lemma sum_counts_insert (m : gmap Z Z) k v :
  sum_counts (<[k := v]> m) = sum_counts m - default 0 (m !! k) + v.
Proof.
  destruct (m !! k) as [v0|] eqn:Hk; simpl.
  - rewrite <-(insert_delete_id m k v0 Hk) at 2.
    rewrite <-insert_delete_eq.
    rewrite !sum_counts_insert_fresh by apply lookup_delete_eq. lia.
  - rewrite sum_counts_insert_fresh by done. lia.
Qed.

(** X22: what the head-to-head simulation returns adds up, in both
    simulators: the matchup count is the sum of the two win counts, which
    are not negative, and the number of ranks collected for either side;
    the number of simulated tournaments is 0 or less than the cap plus one
    batch; and when [minMatchups] is not positive no tournament is run at
    all. *)
Theorem head_to_head_tally_adds_up
    {W : Type} (runTournament : W → list Simulator.Team * W)
    (drawWin : Simulator.Team → Simulator.Team → W → bool * W)
    (params : Simulator.Params) (w : W) :
  let cap := if decide (Simulator.maxSimulations params = 0) then 50000
             else Simulator.maxSimulations params in
  let r := Simulator.runHeadToHeadSimulation runTournament params w in
  let r' := Simulator.runHeadToHeadSimulation_docs runTournament drawWin params w in
  (tally_adds_up r.1
   ∧ (Simulator.totalSims r.1 = 0 ∨ Simulator.totalSims r.1 < cap + 100)
   ∧ (Simulator.minMatchups params ≤ 0 → r = (Simulator.mkTally 0 0 0 0 [] [], w)))
  ∧ (tally_adds_up r'.1
     ∧ (Simulator.totalSims r'.1 = 0 ∨ Simulator.totalSims r'.1 < 50000 + 100)
     ∧ (Simulator.minMatchups params ≤ 0 → r' = (Simulator.mkTally 0 0 0 0 [] [], w))).
Proof.
  intros cap r r'. split.
  - subst r. unfold Simulator.runHeadToHeadSimulation.
    match goal with
    | |- context [Simulator.run ?rt ?aw ?hA ?hB ?mx ?mn ?w] =>
        destruct (run_adds_up rt aw hA hB mx mn w) as (H1 & H2 & H3)
    end.
    split_and!; [done|done|]. intros Hle. apply H3. by left.
  - subst r'. unfold Simulator.runHeadToHeadSimulation_docs.
    match goal with
    | |- context [Simulator.run ?rt ?aw ?hA ?hB ?mx ?mn ?w] =>
        destruct (run_adds_up rt aw hA hB mx mn w) as (H1 & H2 & H3)
    end.
    split_and!; [done|done|]. intros Hle. apply H3. by left.
Qed.

Section sims_proofs.
Context {W : Type}.
Variable runTournament : W → list Simulator.Team * W.

Lemma count_rank_adds_up history acc team :
  sum_counts acc.1 = acc.2 ∧ map_Forall (λ _ v, 0 < v) acc.1 →
  sum_counts (Simulations.count_rank history acc team).1
  = (Simulations.count_rank history acc team).2
  ∧ map_Forall (λ _ v, 0 < v) (Simulations.count_rank history acc team).1.
Proof.
  intros [Hsum Hpos]. unfold Simulations.count_rank.
  destruct (Simulator.has_prefix history team); [|done]. simpl. split.
  - rewrite sum_counts_insert. lia.
  - apply map_Forall_insert_2; [|done].
    destruct (acc.1 !! Simulator.trueRank team) as [v|] eqn:Hv; simpl; [|lia].
    specialize (Hpos _ _ Hv). simpl in Hpos. lia.
Qed.

Lemma count_top_bounds history ids acc team :
  0 ≤ acc.2 ≤ acc.1 →
  0 ≤ (Simulations.count_top history ids acc team).2
  ≤ (Simulations.count_top history ids acc team).1.
Proof.
  intros H. unfold Simulations.count_top.
  destruct (Simulator.has_prefix history team); [|done]. cbn [fst snd].
  destruct (bool_decide _); lia.
Qed.

Lemma count_top_nil history acc team :
  (Simulations.count_top history [] acc team).2 = acc.2.
Proof.
  unfold Simulations.count_top.
  destruct (Simulator.has_prefix history team); [|done]. cbn [fst snd].
  rewrite (bool_decide_eq_false_2 (Simulator.id team ∈ [])); [done|].
  apply not_elem_of_nil.
Qed.

End sims_proofs.

(** X23: in what the rank-from-history simulation returns, [totalTeams]
    is the sum of all the counts of [rankCounts], and every count in the
    table is positive; with [numSims] not positive the table is empty and
    no tournament is run. *)
Theorem rank_counts_add_up {W : Type} (runTournament : W → list Simulator.Team * W)
    (history : string) (numSims : Z) (w : W) :
  let r := Simulations.runRankFromHistorySimulation runTournament history numSims w in
  sum_counts r.1.1 = r.1.2
  ∧ map_Forall (λ _ count, 0 < count) r.1.1
  ∧ (numSims ≤ 0 → r = ((∅, 0), w)).
Proof.
  intros r. subst r. unfold Simulations.runRankFromHistorySimulation.
  match goal with
  | |- ?A ∧ ?B ∧ ?C => cut ((A ∧ B) ∧ C); [by intros [[? ?] ?]|]
  end.
  split.
  - induction (Z.to_nat numSims) as [|n IH].
    + cbn [Nat.iter nat_rect fst snd].
      split; [apply sum_counts_empty|apply map_Forall_empty].
    + rewrite Nat.iter_succ. destruct (runTournament _) as [teams w']. simpl.
      apply (foldl_invariant (λ a : gmap Z Z * Z, sum_counts a.1 = a.2
                                                  ∧ map_Forall (λ _ v, 0 < v) a.1));
        [|done].
      intros a t. apply count_rank_adds_up.
  - intros Hle. by replace (Z.to_nat numSims) with 0%nat by lia.
Qed.

(** X24: in what the top-N-from-history simulation returns, the number of
    teams with the history that finished in the top N is between 0 and the
    number of teams with the history; with [topN = 0] it is 0. *)
Theorem top_n_counts_are_bounded {W : Type}
    (runTournament : W → list Simulator.Team * W)
    (history : string) (topN numSims : Z) (w : W) :
  let r := Simulations.runTopNFromHistorySimulation runTournament history topN numSims w in
  let r0 := Simulations.runTopNFromHistorySimulation runTournament history 0 numSims w in
  0 ≤ r.1.2 ≤ r.1.1 ∧ r0.1.2 = 0.
Proof.
  intros r r0. subst r r0. unfold Simulations.runTopNFromHistorySimulation. split.
  - induction (Z.to_nat numSims) as [|n IH]; [done|].
    rewrite Nat.iter_succ. destruct (runTournament _) as [teams w']. simpl.
    apply (foldl_invariant (λ a : Z * Z, 0 ≤ a.2 ≤ a.1)); [|done].
    intros a t. apply count_top_bounds.
  - induction (Z.to_nat numSims) as [|n IH]; [done|].
    rewrite Nat.iter_succ. destruct (runTournament _) as [teams w']. simpl.
    apply (foldl_invariant (λ a : Z * Z, a.2 = 0)); [|done].
    intros a t Ha. unfold Simulations.slice_to. simpl. by rewrite count_top_nil.
Qed.

(** ** Standings *)

Section stable.
Context {A : Type} (cmp : A → A → Z) (before R : relation A).
Hypothesis R_trans : Transitive R.
Hypothesis R_keeps : ∀ x y, cmp x y ≤ 0 → before x y → R x y.
Hypothesis R_moves : ∀ x y, ¬ cmp x y ≤ 0 → R y x.

Lemma sort_insert_stable x l :
  StronglySorted R l → Forall (before x) l → StronglySorted R (sort_insert cmp x l).
Proof.
  induction l as [|y l IH]; intros Hs Hb; simpl; [by repeat constructor|].
  apply StronglySorted_cons in Hs as [Hy Hs].
  apply Forall_cons in Hb as [Hxy Hb].
  case_decide as Hc.
  - apply StronglySorted_cons. split; [|by apply StronglySorted_cons].
    assert (R x y) as Hxy' by by apply R_keeps.
    constructor; [done|]. eapply Forall_impl; [exact Hy|].
    intros z Hz. by transitivity y.
  - apply StronglySorted_cons. split; [|by apply IH].
    assert (sort_insert cmp x l ≡ₚ x :: l) as ->.
    { clear. induction l as [|z l IH]; simpl; [done|].
      case_decide; [done|]. rewrite IH. apply Permutation_swap. }
    constructor; [by apply R_moves|done].
Qed.

Lemma js_sort_stable l :
  StronglySorted before l → StronglySorted R (js_sort cmp l).
Proof.
  induction l as [|x l IH]; intros Hs; simpl; [constructor|].
  apply StronglySorted_cons in Hs as [Hx Hs].
  apply sort_insert_stable; [by apply IH|].
  by rewrite js_sort_Permutation.
Qed.
End stable.

Lemma standings_order_trans ts : Transitive (standings_order ts).
Proof. intros a b c. unfold standings_order. lia. Qed.

(** X25: [getStandings] lists every team once, ordered by score, then
    Buchholz score, then wins, the higher first; teams that are equal in
    all three stay in the order of the team list. *)
Theorem getStandings_is_a_stable_ranking (ts : list Team) :
  Legacy.getStandings ts ≡ₚ seq 0 (length ts)
  ∧ StronglySorted (standings_order ts) (Legacy.getStandings ts).
Proof.
  unfold Legacy.getStandings. split; [apply js_sort_Permutation|].
  apply (js_sort_stable _ lt).
  - apply standings_order_trans.
  - intros a b. unfold Legacy.standings_cmp, standings_order.
    repeat case_decide; lia.
  - intros a b. unfold Legacy.standings_cmp, standings_order.
    repeat case_decide; lia.
  - clear. generalize 0%nat. induction (length ts) as [|n IH]; intros k; simpl.
    + constructor.
    + apply StronglySorted_cons. split; [|apply IH].
      apply Forall_forall. intros x Hx. apply elem_of_seq in Hx. lia.
Qed.

(** ** Regenerated logs *)

Lemma validatePairingRedundancy_perm ms c :
  NoDup (match_id <$> ms) → pairing_entries c ≡ₚ pairing_key <$> ms →
  validatePairingRedundancy ms c = true.
Proof.
  intros Hnd Hc. unfold validatePairingRedundancy.
  apply andb_true_intro. split.
  - apply bool_decide_eq_true. by rewrite Hc, length_fmap.
  - apply forallb_forall. intros [[[r mid] a] n] Hin.
    apply list_elem_of_In in Hin. rewrite Hc in Hin.
    apply list_elem_of_fmap in Hin as (m & Hk & Hin).
    injection Hk as -> -> -> ->.
    destruct (find_match_NoDup ms m Hnd Hin) as [i ->].
    by rewrite !bool_decide_eq_true_2.
Qed.

Lemma pairing_entries_generated ms :
  pairing_entries (generatePairingFileContent ms)
  = pairing_key <$> js_sort (λ a b, match_id a - match_id b) ms.
Proof.
  unfold generatePairingFileContent, pairing_entries. csimpl.
  induction (js_sort _ ms) as [|m l IH]; [done|]. csimpl. by rewrite IH.
Qed.

Lemma result_entries_generated ms :
  entry_key <$> result_entries (generateResultFileContent ms)
  = omap result_key (js_sort (λ a b, match_id a - match_id b) ms).
Proof.
  unfold generateResultFileContent, result_entries. csimpl.
  induction (js_sort _ ms) as [|m l IH]; [done|]. csimpl.
  unfold result_key at 1. destruct (result m); csimpl; by rewrite IH.
Qed.

Lemma generated_logs_pass ms :
  NoDup (match_id <$> ms) →
  validatePairingRedundancy ms (generatePairingFileContent ms) = true
  ∧ validateResultRedundancy ms (generateResultFileContent ms) = true.
Proof.
  intros Hnd. split.
  - apply validatePairingRedundancy_perm; [done|].
    by rewrite pairing_entries_generated, js_sort_Permutation.
  - apply validateResultRedundancy_agree; [done|].
    by rewrite result_entries_generated, js_sort_Permutation.
Qed.

(** X26: the logs that the manager regenerates from its match records pass
    its own redundancy checks whenever no two matches share an id; so a
    manager whose two logs are missing is repaired by [saveToStorage], which
    returns with both logs regenerated, one line per match in the pairing
    log and one per reported match in the result log. *)
Theorem regenerated_logs_are_accepted (s : TournamentManager) :
  NoDup (match_id <$> matches s) →
  pairing_file_content s = [] → result_file_content s = [] →
  saveToStorage s
  = Ok tt (set_result_file_content (generateResultFileContent (matches s))
             (set_pairing_file_content (generatePairingFileContent (matches s)) s))
  ∧ pairing_entries (generatePairingFileContent (matches s)) ≡ₚ pairing_key <$> matches s
  ∧ entry_key <$> result_entries (generateResultFileContent (matches s))
    ≡ₚ omap result_key (matches s).
Proof.
  intros Hnd Hp Hr. split_and!.
  - unfold saveToStorage, checkConsistency. rewrite Hp. cbn [result_file_content
      set_pairing_file_content]. rewrite Hr.
    cbn [matches pairing_file_content result_file_content set_result_file_content
         set_pairing_file_content].
    destruct (generated_logs_pass (matches s) Hnd) as [-> ->]. done.
  - by rewrite pairing_entries_generated, js_sort_Permutation.
  - by rewrite result_entries_generated, js_sort_Permutation.
Qed.

Lemma regenerated_logs_are_accepted_witness :
  saveToStorage (set_result_file_content [] (set_pairing_file_content [] round1_reported))
  = Ok tt (set_result_file_content (generateResultFileContent (matches round1_reported))
             (set_pairing_file_content
                (generatePairingFileContent (matches round1_reported))
                (set_result_file_content []
                   (set_pairing_file_content [] round1_reported))))
  ∧ pairing_entries (generatePairingFileContent (matches round1_reported))
    ≡ₚ pairing_key <$> matches round1_reported
  ∧ entry_key <$> result_entries (generateResultFileContent (matches round1_reported))
    ≡ₚ omap result_key (matches round1_reported).
Proof.
  apply (regenerated_logs_are_accepted
           (set_result_file_content [] (set_pairing_file_content [] round1_reported))).
  - apply NoDup_singleton.
  - reflexivity.
  - reflexivity.
Defined.

(** ** Speaker points out of range *)

Lemma result_check_fails_on_count ms c :
  length (result_entries c) ≠ length (filter (λ m, result m ≠ None) ms) →
  validateResultRedundancy ms c = false.
Proof.
  intros Hne. unfold validateResultRedundancy. by rewrite bool_decide_eq_false_2.
Qed.

Lemma storeSpeakerPoints_bad_points s mid i m sp p :
  find_match (matches s) mid = Some (i, m) → bad_points sp = Some p →
  storeSpeakerPoints mid sp s = Throw (SpeakerPointsOutOfRange p) s.
Proof. intros Hf Hb. unfold storeSpeakerPoints. by rewrite Hf, Hb. Qed.

Lemma reported_after_set_result ms i m o :
  ms !! i = Some m →
  length (filter (λ m, result m ≠ None) (alter (set_result (Some o)) i ms))
  = S (length (filter (λ m, result m ≠ None) (alter (set_result None) i ms))).
Proof.
  intros Hi.
  rewrite <-(length_reported_alter (alter (set_result None) i ms) i (set_result None m)
               (set_result (Some o))).
  - by rewrite list_alter_alter_eq.
  - by rewrite list_lookup_alter_eq, Hi.
  - done.
  - done.
Qed.

(** X27: a report or a correction that is refused because a speaker point
    is outside 0..30 has already written the outcome into the match (and a
    correction has already retired the old result lines), but no result
    line; the manager is left with its result log disagreeing with its
    matches, so that [saveToStorage] throws the redundancy error on it. *)
Theorem refused_points_leave_the_logs_behind s mid i m o sp p :
  healthy s → find_match (matches s) mid = Some (i, m) →
  o = "A" ∨ o = "N" → bad_points sp = Some p →
  (result m = None →
   ∃ s', reportResult mid o (Some sp) s = Throw (SpeakerPointsOutOfRange p) s'
         ∧ matches s' = alter (set_result (Some o)) i (matches s)
         ∧ result_file_content s' = result_file_content s
         ∧ saveToStorage s' = Throw RedundancyCheckFailed s')
  ∧ (∃ s', updateResult mid (Some o) (Some sp) s = Throw (SpeakerPointsOutOfRange p) s'
           ∧ matches s' = alter (set_result (Some o)) i (matches s)
           ∧ result_file_content s' = retire_lines mid (result_file_content s)
           ∧ saveToStorage s' = Throw RedundancyCheckFailed s').
Proof.
  intros Hh Hf Ho Hb.
  pose proof (find_match_Some _ _ _ _ Hf) as [Hi Hid].
  pose proof Hh as (_ & [Hnd _] & (Hp & Hr & Hpe & Hre) & _).
  assert (valid_outcome o = true) as Hvalid by by apply valid_outcome_true.
  pose proof (find_match_alter _ _ _ _ (set_result (Some o)) (λ _, eq_refl) Hf) as Hf'.
  split.
  - intros Hnone. eexists. split_and!.
    + unfold reportResult. rewrite Hf, Hnone, Hvalid. cbn [negb].
      rewrite bool_decide_eq_false_2 by (intros H; by apply H).
      erewrite storeSpeakerPoints_bad_points; [reflexivity| |done]. exact Hf'.
    + done.
    + done.
    + unfold saveToStorage.
      refine (proj2 (checkConsistency_nonempty _ _ _) _); [exact Hpe|exact Hre|].
      apply result_check_fails_on_count.
      cbn [matches set_matches result_file_content].
      rewrite (length_reported_alter _ _ _ _ Hi Hnone) by done.
      rewrite <-length_omap_result_key, <-Hr, length_fmap. lia.
  - eexists. split_and!.
    + unfold updateResult, updateResult_body. rewrite Hf, Hvalid.
      erewrite storeSpeakerPoints_bad_points; [reflexivity| |done]. exact Hf'.
    + done.
    + reflexivity.
    + unfold saveToStorage.
      refine (proj2 (checkConsistency_nonempty _ _ _) _).
      * exact Hpe.
      * cbn [result_file_content set_result_file_content set_matches].
        clear -Hre. destruct (result_file_content s) as [|l c]; [done|].
        unfold retire_lines. rewrite fmap_cons. discriminate.
      * apply result_check_fails_on_count.
        cbn [matches set_matches result_file_content set_result_file_content].
        rewrite (reported_after_set_result _ _ _ _ Hi).
        rewrite <-length_omap_result_key.
        pose proof (result_log_after_update (matches s) i m (result_file_content s)
                      None [] Hnd Hi Hr eq_refl) as Hlog.
        rewrite app_nil_r, Hid, <-result_entries_retire in Hlog.
        rewrite <-Hlog, length_fmap. lia.
Qed.

Lemma refused_points_leave_the_logs_behind_witness :
  (result the_match = None →
   ∃ s', reportResult 1 "A" (Some (mkSpeakerPoints [Some 31; Some 25] [Some 25; Some 25]))
           two_teams_paired
         = Throw (SpeakerPointsOutOfRange 31) s'
         ∧ matches s' = alter (set_result (Some "A")) 0%nat (matches two_teams_paired)
         ∧ result_file_content s' = result_file_content two_teams_paired
         ∧ saveToStorage s' = Throw RedundancyCheckFailed s')
  ∧ (∃ s', updateResult 1 (Some "A")
             (Some (mkSpeakerPoints [Some 31; Some 25] [Some 25; Some 25]))
             two_teams_paired
           = Throw (SpeakerPointsOutOfRange 31) s'
           ∧ matches s' = alter (set_result (Some "A")) 0%nat (matches two_teams_paired)
           ∧ result_file_content s'
             = retire_lines 1 (result_file_content two_teams_paired)
           ∧ saveToStorage s' = Throw RedundancyCheckFailed s').
Proof.
  apply (refused_points_leave_the_logs_behind two_teams_paired 1 0 the_match "A"
           (mkSpeakerPoints [Some 31; Some 25] [Some 25; Some 25]) 31).
  - apply normal_run_healthy, normal_run_two_teams_paired.
  - reflexivity.
  - by left.
  - reflexivity.
Defined.

(** ** Completeness of the preliminary rounds *)

Lemma round_complete_true ms r :
  round_complete ms r = true ↔
  round_matches ms r ≠ [] ∧ Forall (λ m, result m ≠ None) (round_matches ms r).
Proof.
  unfold round_complete. rewrite andb_true_iff, bool_decide_eq_true.
  rewrite forallb_forall, Forall_forall.
  split; intros [Hl Hall]; split.
  - intros Heq. rewrite Heq in Hl. simpl in Hl. lia.
  - intros m Hm. apply list_elem_of_In, Hall in Hm.
    unfold unreported in Hm. apply negb_true_iff, bool_decide_eq_false in Hm. done.
  - destruct (round_matches ms r); [done|simpl; lia].
  - intros m Hm. apply list_elem_of_In, Hall in Hm.
    unfold unreported. by apply negb_true_iff, bool_decide_eq_false.
Qed.

Lemma rounds_upto (P r : Z) :
  r ∈ fmap (λ k, Z.of_nat k) (seq 1 (Z.to_nat P)) ↔ 1 ≤ r ≤ P.
Proof.
  rewrite list_elem_of_fmap. split.
  - intros (k & -> & Hk). apply elem_of_seq in Hk. lia.
  - intros Hr. exists (Z.to_nat r). split; [lia|]. apply elem_of_seq. lia.
Qed.

Lemma current_round_loop_range ms n r c :
  current_round_loop ms n r c = c ∨ r ≤ current_round_loop ms n r c.
Proof.
  revert r c. induction n as [|n IH]; intros r c; simpl; [by left|].
  destruct (round_complete ms r); [|by left]. right.
  destruct (IH (r + 1) r) as [->|Hle]; lia.
Qed.

Lemma current_round_loop_reaches ms (k n : nat) r c :
  (1 ≤ k ≤ n)%nat →
  (∀ r', r ≤ r' < r + Z.of_nat k → round_complete ms r' = true) →
  r + Z.of_nat k - 1 ≤ current_round_loop ms n r c.
Proof.
  revert n r c. induction k as [|k IH]; intros n r c Hk Hall; [lia|].
  destruct n as [|n]; [lia|]. simpl. rewrite Hall by lia.
  destruct k as [|k].
  - destruct (current_round_loop_range ms n (r + 1) r) as [->|Hle]; lia.
  - etrans; [|apply (IH n (r + 1) r)]; [lia|lia|].
    intros r' Hr'. apply Hall. lia.
Qed.

(** X28: [arePrelimRoundsComplete] returns true exactly when every round
    from 1 to [num_prelim_rounds] has at least one match and all its matches
    are reported (so always when there is no preliminary round). When it
    does, the check that [pairRound] makes before the first elimination
    round finds no incomplete round and, if there is a preliminary round,
    a recalculation of the statistics puts [current_round] at
    [num_prelim_rounds] or later. *)
Theorem arePrelimRoundsComplete_spec (s : TournamentManager) :
  (arePrelimRoundsComplete s = true ↔
   ∀ r, 1 ≤ r ≤ num_prelim_rounds (config s) →
        round_matches (matches s) r ≠ []
        ∧ Forall (λ m, result m ≠ None) (round_matches (matches s) r))
  ∧ (arePrelimRoundsComplete s = true →
     first_incomplete (matches s) (num_prelim_rounds (config s) + 1) = None)
  ∧ (arePrelimRoundsComplete s = true → Inv s →
     1 ≤ num_prelim_rounds (config s) ≤ num_rounds (config s) →
     num_prelim_rounds (config s) ≤ current_round (state_of (recalculateStats s))).
Proof.
  assert (arePrelimRoundsComplete s = true ↔
          ∀ r, 1 ≤ r ≤ num_prelim_rounds (config s) →
               round_complete (matches s) r = true) as Hiff.
  { unfold arePrelimRoundsComplete. rewrite forallb_forall. split.
    - intros H r Hr. apply H, list_elem_of_In, rounds_upto. done.
    - intros H r Hr. apply H. by apply list_elem_of_In, rounds_upto in Hr. }
  split_and!.
  - rewrite Hiff. split; intros H r Hr; apply round_complete_true; by apply H.
  - intros Hc. rewrite Hiff in Hc. unfold first_incomplete.
    replace (num_prelim_rounds (config s) + 1 - 1) with (num_prelim_rounds (config s))
      by lia.
    destruct (list_find _ _) as [[j r]|] eqn:Hf; [|done].
    apply list_find_Some in Hf as (Hj & Hex & _).
    apply list_elem_of_lookup_2, rounds_upto in Hj.
    specialize (Hc r Hj). apply round_complete_true in Hc as [_ Hall].
    apply existsb_exists in Hex as (m & Hm & Hun).
    rewrite Forall_forall in Hall. apply list_elem_of_In in Hm.
    specialize (Hall m Hm). unfold unreported in Hun.
    by apply bool_decide_eq_true in Hun.
  - intros Hc HI HP. rewrite Hiff in Hc.
    rewrite recalculateStats_current_round by done.
    pose proof (current_round_loop_reaches (matches s)
                  (Z.to_nat (num_prelim_rounds (config s)))
                  (Z.to_nat (num_rounds (config s))) 1 (current_round s)) as Hle.
    etrans; [|apply Hle]; [lia|lia|].
    intros r' Hr'. apply Hc. lia.
Qed.

(** ** The tournament runner of [docs/simulation.js] *)









Section docs_run.
Variable below : DocsSimulator.Team → DocsSimulator.Team → draw → bool.








End docs_run.





